(** * tinystl::avl_tree — an intrusive AVL tree over caller-owned nodes

    A shallow embedding of [include/tinystl/avl_tree.h].  Node storage is a
    finite map from addresses to node records; a nullable [avl_node *] is an
    [option positive].  Every member function is a computation in a small
    state-and-failure monad over the tree object together with the node
    storage it points into: dereferencing a null or dangling pointer, or a
    failing [assert], is [None]. *)

From stdpp Require Import gmap list sorting.
From Stdlib Require Import ZArith Lia.

Local Open Scope Z_scope.

(** A nullable pointer to a node. *)
Abbreviation ptr := (option positive).

(** ** Machine integers *)

(** [size_t] arithmetic wraps modulo [2^64]. *)
Definition size_wrap (z : Z) : Z := z mod 2 ^ 64.

(** [static_cast<int32_t>] of a [size_t]. *)
Definition to_int32 (z : Z) : Z := (z + 2 ^ 31) mod 2 ^ 32 - 2 ^ 31.

Section AvlTree.

(** The user type [T] derives from [avl_node]; [elem] is the part of the
    object the comparator looks at. *)
Context {T : Type}.

(** The ordering relation stored in the tree ([value_comp()]). *)
Variable value_comp : T -> T -> bool.

Record avl_node : Type := AvlNode {
  mParent : ptr;
  mLeft : ptr;
  mRight : ptr;
  mHeight : Z;
  elem : T
}.

(** The tree object ([mSize], [mValue.first()]) and the node storage. *)
Record avl_tree : Type := AvlTree {
  mSize : Z;
  mRoot : ptr;
  nodes : gmap positive avl_node
}.

(** ** The monad *)

Definition M (A : Type) : Type := avl_tree -> option (A * avl_tree).

Definition ret {A} (a : A) : M A := fun s => Some (a, s).
Definition fail {A} : M A := fun _ => None.
Definition bind {A B} (c : M A) (k : A -> M B) : M B :=
  fun s => match c s with
           | Some (a, s') => k a s'
           | None => None
           end.

Notation "x <~ c ; k" := (bind c (fun x => k))
  (at level 20, c at level 100, k at level 200, only parsing).
Notation "c ;~ k" := (bind c (fun _ => k))
  (at level 100, k at level 200, only parsing, right associativity).

Definition load (p : positive) : M avl_node :=
  fun s => match nodes s !! p with
           | Some n => Some (n, s)
           | None => None
           end.

Definition store (p : positive) (n : avl_node) : M unit :=
  fun s => Some (tt, AvlTree (mSize s) (mRoot s) (<[p := n]> (nodes s))).

(** Field reads: [parent()], [left()], [right()], [height()]. *)
Definition parent (p : positive) : M ptr := n <~ load p ; ret (mParent n).
Definition left (p : positive) : M ptr := n <~ load p ; ret (mLeft n).
Definition right (p : positive) : M ptr := n <~ load p ; ret (mRight n).
Definition height (p : positive) : M Z := n <~ load p ; ret (mHeight n).
Definition value (p : positive) : M T := n <~ load p ; ret (elem n).

(** Field writes. *)
Definition set_mParent (p : positive) (v : ptr) : M unit :=
  n <~ load p ;
  store p (AvlNode v (mLeft n) (mRight n) (mHeight n) (elem n)).
Definition set_mLeft (p : positive) (v : ptr) : M unit :=
  n <~ load p ;
  store p (AvlNode (mParent n) v (mRight n) (mHeight n) (elem n)).
Definition set_mRight (p : positive) (v : ptr) : M unit :=
  n <~ load p ;
  store p (AvlNode (mParent n) (mLeft n) v (mHeight n) (elem n)).
Definition set_mHeight (p : positive) (v : Z) : M unit :=
  n <~ load p ;
  store p (AvlNode (mParent n) (mLeft n) (mRight n) v (elem n)).

(** The tree's own fields. *)
Definition root : M ptr := fun s => Some (mRoot s, s).
Definition set_root (v : ptr) : M unit :=
  fun s => Some (tt, AvlTree (mSize s) v (nodes s)).
Definition size : M Z := fun s => Some (mSize s, s).
Definition set_mSize (v : Z) : M unit :=
  fun s => Some (tt, AvlTree v (mRoot s) (nodes s)).

(** [bool empty() const noexcept { return mSize; }] *)
Definition empty : M bool := n <~ size ; ret (negb (n =? 0)).

(** Loops run on fuel; an acyclic walk never takes more steps than there are
    nodes in storage. *)
Definition fuel_of (s : avl_tree) : nat := S (base.size (nodes s)).
Definition with_fuel {A} (k : nat -> M A) : M A := fun s => k (fuel_of s) s.

(** [p ? p->height() : 0] *)
Definition height_or_0 (p : ptr) : M Z :=
  match p with
  | Some q => height q
  | None => ret 0
  end.

Definition when_some (p : ptr) (k : positive -> M unit) : M unit :=
  match p with
  | Some q => k q
  | None => ret tt
  end.

(** ** avl_node *)

Definition update_height (this : positive) : M unit :=
  l <~ left this ;
  hl <~ height_or_0 l ;
  r <~ right this ;
  hr <~ height_or_0 r ;
  set_mHeight this (size_wrap (Z.max hl hr + 1)).

Definition is_left (this : positive) : M bool :=
  par <~ parent this ;
  match par with
  | None => ret false
  | Some q => l <~ left q ; ret (bool_decide (l = Some this))
  end.

Definition is_right (this : positive) : M bool :=
  par <~ parent this ;
  match par with
  | None => ret false
  | Some q => r <~ right q ; ret (bool_decide (r = Some this))
  end.

(** [while (node->left() != nullptr) node = node->left();] *)
Fixpoint leftmost (fuel : nat) (node : positive) : M positive :=
  match fuel with
  | O => fail
  | S fuel' =>
      l <~ left node ;
      match l with
      | Some l' => leftmost fuel' l'
      | None => ret node
      end
  end.

(** [while (node->right() != nullptr) node = node->right();] *)
Fixpoint rightmost (fuel : nat) (node : positive) : M positive :=
  match fuel with
  | O => fail
  | S fuel' =>
      r <~ right node ;
      match r with
      | Some r' => rightmost fuel' r'
      | None => ret node
      end
  end.

(** The upward loop of [next]: climb while the node is reached from its
    parent's right side. *)
Fixpoint next_up (fuel : nat) (node : positive) : M ptr :=
  match fuel with
  | O => fail
  | S fuel' =>
      let last := node in
      par <~ parent node ;
      match par with
      | None => ret None
      | Some q =>
          l <~ left q ;
          if bool_decide (l = Some last) then ret (Some q)
          else next_up fuel' q
      end
  end.

Fixpoint prev_up (fuel : nat) (node : positive) : M ptr :=
  match fuel with
  | O => fail
  | S fuel' =>
      let last := node in
      par <~ parent node ;
      match par with
      | None => ret None
      | Some q =>
          r <~ right q ;
          if bool_decide (r = Some last) then ret (Some q)
          else prev_up fuel' q
      end
  end.

Definition next (this : positive) : M ptr :=
  r <~ right this ;
  match r with
  | Some node => with_fuel (fun f => x <~ leftmost f node ; ret (Some x))
  | None => with_fuel (fun f => next_up f this)
  end.

Definition prev (this : positive) : M ptr :=
  l <~ left this ;
  match l with
  | Some node => with_fuel (fun f => x <~ rightmost f node ; ret (Some x))
  | None => with_fuel (fun f => prev_up f this)
  end.

Definition replace_as_child (this : positive) (node : ptr) (par : ptr)
  : M unit :=
  match par with
  | Some q =>
      l <~ left q ;
      if bool_decide (l = Some this) then set_mLeft q node
      else set_mRight q node
  | None => set_root node
  end.

Definition replace (this : positive) (node : positive) : M unit :=
  par <~ parent this ;
  replace_as_child this (Some node) par ;~
  l <~ left this ;
  when_some l (fun l' => set_mParent l' (Some node)) ;~
  r <~ right this ;
  when_some r (fun r' => set_mParent r' (Some node)) ;~
  l <~ left this ;
  set_mLeft node l ;~
  r <~ right this ;
  set_mRight node r ;~
  par <~ parent this ;
  set_mParent node par ;~
  h <~ height this ;
  set_mHeight node h.

Definition rotate_left (this : positive) : M positive :=
  r0 <~ right this ;
  match r0 with
  | None => fail
  | Some r =>
      par <~ parent this ;
      rl <~ left r ;
      set_mRight this rl ;~
      r' <~ right this ;
      when_some r' (fun x => set_mParent x (Some this)) ;~
      set_mLeft r (Some this) ;~
      set_mParent r par ;~
      replace_as_child this (Some r) par ;~
      set_mParent this (Some r) ;~
      ret r
  end.

Definition rotate_right (this : positive) : M positive :=
  l0 <~ left this ;
  match l0 with
  | None => fail
  | Some l =>
      par <~ parent this ;
      lr <~ right l ;
      set_mLeft this lr ;~
      lr' <~ right l ;
      when_some lr' (fun x => set_mParent x (Some this)) ;~
      set_mRight l (Some this) ;~
      set_mParent l par ;~
      replace_as_child this (Some l) par ;~
      set_mParent this (Some l) ;~
      ret l
  end.

(** [p->child()->update_height()] where the child must exist. *)
Definition deref (p : ptr) : M positive :=
  match p with
  | Some q => ret q
  | None => fail
  end.

Definition fix_left (this : positive) : M positive :=
  r0 <~ right this ;
  r <~ deref r0 ;
  rl <~ left r ;
  rh0 <~ height_or_0 rl ;
  rr <~ right r ;
  rh1 <~ height_or_0 rr ;
  (if rh1 <? rh0 then
     r' <~ rotate_right r ;
     c0 <~ right r' ;
     c <~ deref c0 ;
     update_height c ;~
     update_height r'
   else ret tt) ;~
  node <~ rotate_left this ;
  c0 <~ left node ;
  c <~ deref c0 ;
  update_height c ;~
  update_height node ;~
  ret node.

Definition fix_right (this : positive) : M positive :=
  l0 <~ left this ;
  l <~ deref l0 ;
  ll <~ left l ;
  rh0 <~ height_or_0 ll ;
  lr <~ right l ;
  rh1 <~ height_or_0 lr ;
  (if rh0 <? rh1 then
     l' <~ rotate_left l ;
     c0 <~ left l' ;
     c <~ deref c0 ;
     update_height c ;~
     update_height l'
   else ret tt) ;~
  node <~ rotate_right this ;
  c0 <~ right node ;
  c <~ deref c0 ;
  update_height c ;~
  update_height node ;~
  ret node.

(** The body of the [for] loop of [rebalance]; [None] is the [break]. *)
Definition rebalance_step (node : positive) : M ptr :=
  l <~ left node ;
  r <~ right node ;
  hl <~ height_or_0 l ;
  hr <~ height_or_0 r ;
  let h := size_wrap (Z.max hl hr + 1) in
  h0 <~ height node ;
  if h0 =? h then ret None
  else
    set_mHeight node h ;~
    let diff := to_int32 hl - to_int32 hr in
    node' <~ (if diff <=? -2 then fix_left node
              else if 2 <=? diff then fix_right node
              else ret node) ;
    ret (Some node').

Fixpoint rebalance_loop (fuel : nat) (node : ptr) : M unit :=
  match node with
  | None => ret tt
  | Some n =>
      match fuel with
      | O => fail
      | S fuel' =>
          r <~ rebalance_step n ;
          match r with
          | None => ret tt
          | Some n' => up <~ parent n' ; rebalance_loop fuel' up
          end
      end
  end.

Definition rebalance (this : positive) : M unit :=
  with_fuel (fun f => rebalance_loop f (Some this)).

Definition fix_insert (this : positive) : M unit :=
  set_mRight this None ;~
  set_mLeft this None ;~
  set_mHeight this 1 ;~
  par <~ parent this ;
  when_some par rebalance.

(** ** avl_tree: insertion *)

(** The shared prologue for an empty tree, up to the size update. *)
Definition link_as_root (node : positive) : M unit :=
  set_root (Some node) ;~
  set_mRight node None ;~
  set_mLeft node None ;~
  set_mParent node None ;~
  set_mHeight node 1.

Definition incr_size : M unit := n <~ size ; set_mSize (size_wrap (n + 1)).
Definition decr_size : M unit := n <~ size ; set_mSize (size_wrap (n - 1)).

Definition link_left (current node : positive) : M unit :=
  set_mLeft current (Some node) ;~
  set_mParent node (Some current) ;~
  fix_insert node ;~
  incr_size.

Definition link_right (current node : positive) : M unit :=
  set_mRight current (Some node) ;~
  set_mParent node (Some current) ;~
  fix_insert node ;~
  incr_size.

Fixpoint insert_unique_loop (fuel : nat) (node current : positive) : M bool :=
  match fuel with
  | O => fail
  | S fuel' =>
      vn <~ value node ;
      vc <~ value current ;
      if value_comp vn vc then
        l <~ left current ;
        match l with
        | Some l' => insert_unique_loop fuel' node l'
        | None => link_left current node ;~ ret true
        end
      else if value_comp vc vn then
        r <~ right current ;
        match r with
        | Some r' => insert_unique_loop fuel' node r'
        | None => link_right current node ;~ ret true
        end
      else ret false
  end.

Definition insert_unique (node : positive) : M bool :=
  current <~ root ;
  match current with
  | None => link_as_root node ;~ incr_size ;~ ret true
  | Some c => with_fuel (fun f => insert_unique_loop f node c)
  end.

Fixpoint insert_or_replace_loop (fuel : nat) (node current : positive)
  : M ptr :=
  match fuel with
  | O => fail
  | S fuel' =>
      vn <~ value node ;
      vc <~ value current ;
      if value_comp vc vn then
        l <~ left current ;
        match l with
        | Some l' => insert_or_replace_loop fuel' node l'
        | None => link_left current node ;~ ret None
        end
      else if value_comp vn vc then
        r <~ right current ;
        match r with
        | Some r' => insert_or_replace_loop fuel' node r'
        | None => link_right current node ;~ ret None
        end
      else replace current node ;~ ret (Some current)
  end.

Definition insert_or_replace (node : positive) : M ptr :=
  current <~ root ;
  match current with
  | None => link_as_root node ;~ ret None
  | Some c => with_fuel (fun f => insert_or_replace_loop f node c)
  end.

Fixpoint insert_multi_loop (fuel : nat) (node current : positive) : M unit :=
  match fuel with
  | O => fail
  | S fuel' =>
      vn <~ value node ;
      vc <~ value current ;
      if value_comp vn vc then
        l <~ left current ;
        match l with
        | Some l' => insert_multi_loop fuel' node l'
        | None => link_left current node
        end
      else if value_comp vc vn then
        r <~ right current ;
        match r with
        | Some r' => insert_multi_loop fuel' node r'
        | None => link_right current node
        end
      else
        l <~ left current ;
        match l with
        | None => link_left current node
        | Some l' =>
            r <~ right current ;
            match r with
            | None => link_right current node
            | Some r' =>
                hl <~ height l' ;
                hr <~ height r' ;
                if hl <? hr then insert_multi_loop fuel' node l'
                else insert_multi_loop fuel' node r'
            end
        end
  end.

Definition insert_multi (node : positive) : M unit :=
  current <~ root ;
  match current with
  | None => link_as_root node ;~ incr_size
  | Some c => with_fuel (fun f => insert_multi_loop f node c)
  end.

(** ** avl_tree: erase *)

(** Everything [erase] does before the rebalance walk; the result is the
    local [parent], the node the walk starts from. *)
Definition erase_unlink (node : positive) : M ptr :=
  l <~ left node ;
  r <~ right node ;
  match l, r with
  | Some _, Some r' =>
      let old := node in
      s <~ with_fuel (fun f => leftmost f r') ;
      child <~ right s ;
      par <~ parent s ;
      when_some child (fun c => set_mParent c par) ;~
      replace_as_child s child par ;~
      sp <~ parent s ;
      let par' := if bool_decide (sp = Some old) then Some s else par in
      ol <~ left old ;
      set_mLeft s ol ;~
      or <~ right old ;
      set_mRight s or ;~
      op <~ parent old ;
      set_mParent s op ;~
      oh <~ height old ;
      set_mHeight s oh ;~
      op' <~ parent old ;
      replace_as_child old (Some s) op' ;~
      ol0 <~ left old ;
      ol' <~ deref ol0 ;
      set_mParent ol' (Some s) ;~
      or' <~ right old ;
      when_some or' (fun x => set_mParent x (Some s)) ;~
      ret par'
  | _, _ =>
      l1 <~ left node ;
      child <~ (match l1 with
                | None => right node
                | Some _ => left node
                end) ;
      par <~ parent node ;
      replace_as_child node child par ;~
      when_some child (fun c => set_mParent c par) ;~
      ret par
  end.

Definition erase (node : positive) : M unit :=
  par <~ erase_unlink node ;
  when_some par rebalance ;~
  decr_size.

(** ** avl_tree: clear *)

Section Clear.
(** The caller's handler: any change to the tree object and the node
    storage, possibly failing. *)
Variable handler : positive -> M unit.

(** The result is the sequence of handler invocations. *)
Fixpoint clear_impl (fuel : nat) (node : positive) : M (list positive) :=
  match fuel with
  | O => fail
  | S fuel' =>
      l <~ left node ;
      r <~ right node ;
      handler node ;~
      vl <~ (match l with
             | Some l' => clear_impl fuel' l'
             | None => ret []
             end) ;
      vr <~ (match r with
             | Some r' => clear_impl fuel' r'
             | None => ret []
             end) ;
      ret (node :: vl ++ vr)
  end.

Definition clear : M (list positive) :=
  first <~ root ;
  match first with
  | Some r =>
      visited <~ with_fuel (fun f => clear_impl f r) ;
      set_root None ;~
      set_mSize 0 ;~
      ret visited
  | None => ret []
  end.
End Clear.

(** ** avl_tree: find *)

Fixpoint find_loop (fuel : nat) (v : T) (node : ptr) : M ptr :=
  match node with
  | None => ret None
  | Some n =>
      match fuel with
      | O => fail
      | S fuel' =>
          vn <~ value n ;
          if value_comp v vn then
            l <~ left n ; find_loop fuel' v l
          else if value_comp vn v then
            r <~ right n ; find_loop fuel' v r
          else ret (Some n)
      end
  end.

Definition find (v : T) : M ptr :=
  first <~ root ;
  with_fuel (fun f => find_loop f v first).

(** ** avl_tree_iterator: [++] and [--] act on [mPtr], and [--] reads the
    root of [mTree], the tree the computation runs on. *)

Definition iter_incr (mPtr : ptr) : M ptr :=
  match mPtr with
  | Some p => next p
  | None => ret None
  end.

Definition iter_decr (mPtr : ptr) : M ptr :=
  match mPtr with
  | Some p => prev p
  | None =>
      first <~ root ;
      match first with
      | None => ret None
      | Some r => with_fuel (fun f => x <~ rightmost f r ; ret (Some x))
      end
  end.

Definition tree_end : M ptr := ret None.

(** The iterator with both of its fields.  [mTree] is null or points to
    the tree the computation runs on. *)
Inductive tree_ptr : Type := null_tree | this_tree.

Record avl_tree_iterator : Type := Iterator { mTree : tree_ptr; mPtr : ptr }.

Definition tree_ptr_eqb (a b : tree_ptr) : bool :=
  match a, b with
  | null_tree, null_tree | this_tree, this_tree => true
  | _, _ => false
  end.

(** [operator==]: both fields are compared. *)
Definition iter_eq (a b : avl_tree_iterator) : bool :=
  tree_ptr_eqb (mTree a) (mTree b) && bool_decide (mPtr a = mPtr b).

(** [end()] is [iterator(this, nullptr)]. *)
Definition end_iterator : avl_tree_iterator := Iterator this_tree None.

(** [operator++] leaves [mTree] as it is. *)
Definition iter_next (it : avl_tree_iterator) : M avl_tree_iterator :=
  p <~ iter_incr (mPtr it) ;
  ret (Iterator (mTree it) p).

(** [begin()]: on an empty tree [return nullptr] builds the iterator from
    a null tree pointer, with the default null node. *)
Definition tree_begin : M avl_tree_iterator :=
  first <~ root ;
  match first with
  | None => ret (Iterator null_tree None)
  | Some r =>
      with_fuel (fun f => x <~ leftmost f r ; ret (Iterator this_tree (Some x)))
  end.

End AvlTree.

Arguments avl_node : clear implicits.
Arguments avl_tree : clear implicits.
Arguments M : clear implicits.

(** * The linked structure as a tree

    What the node storage holds below a pointer, read as a binary tree: every
    node with its address, its stored height and its element.  A storage
    [m] represents the tree [t] under the parent pointer [par] when every
    node's record is exactly the one the tree dictates. *)

Section Shape.
Context {T : Type}.

Inductive tree : Type :=
  | Leaf
  | Node (l : tree) (p : positive) (h : Z) (v : T) (r : tree).

Definition root_of (t : tree) : ptr :=
  match t with
  | Leaf => None
  | Node _ p _ _ _ => Some p
  end.

(** The stored height of the root, 0 for an absent child. *)
Definition ht (t : tree) : Z :=
  match t with
  | Leaf => 0
  | Node _ _ h _ _ => h
  end.

(** In-order sequence of (address, element). *)
Fixpoint elems (t : tree) : list (positive * T) :=
  match t with
  | Leaf => []
  | Node l p _ v r => elems l ++ (p, v) :: elems r
  end.

Definition ids (t : tree) : list positive := (elems t).*1.
Definition vals (t : tree) : list T := (elems t).*2.

(** Pre-order sequence of addresses. *)
Fixpoint preorder (t : tree) : list positive :=
  match t with
  | Leaf => []
  | Node l p _ _ r => p :: preorder l ++ preorder r
  end.

Fixpoint depth (t : tree) : nat :=
  match t with
  | Leaf => O
  | Node l _ _ _ r => S (Nat.max (depth l) (depth r))
  end.

Definition count (t : tree) : nat := length (elems t).

Fixpoint Repr (m : gmap positive (avl_node T)) (par : ptr) (t : tree) : Prop :=
  match t with
  | Leaf => True
  | Node l p h v r =>
      m !! p = Some (AvlNode par (root_of l) (root_of r) h v)
      /\ Repr m (Some p) l /\ Repr m (Some p) r
  end.

(** The state [s] holds exactly the tree [t]. *)
Record linked (s : avl_tree T) (t : tree) : Prop := Linked {
  lk_root : mRoot s = root_of t;
  lk_repr : Repr (nodes s) None t;
  lk_nodup : NoDup (ids t)
}.

(** Stored heights are the real ones. *)
Fixpoint hok (t : tree) : Prop :=
  match t with
  | Leaf => True
  | Node l _ h _ r => hok l /\ hok r /\ h = Z.max (ht l) (ht r) + 1
  end.

(** The AVL balance condition on stored heights. *)
Fixpoint balanced (t : tree) : Prop :=
  match t with
  | Leaf => True
  | Node l _ _ _ r =>
      balanced l /\ balanced r /\ -1 <= ht l - ht r <= 1
  end.

(** ** Contexts: the path from a subtree up to the root *)

Inductive frame : Type :=
  | FL (p : positive) (h : Z) (v : T) (r : tree)
  | FR (l : tree) (p : positive) (h : Z) (v : T).

Definition fill (f : frame) (t : tree) : tree :=
  match f with
  | FL p h v r => Node t p h v r
  | FR l p h v => Node l p h v t
  end.

Definition plug (c : list frame) (t : tree) : tree := foldl (flip fill) t c.

Definition frame_node (f : frame) : positive :=
  match f with
  | FL p _ _ _ => p
  | FR _ p _ _ => p
  end.

Definition cparent (c : list frame) : ptr :=
  match c with
  | [] => None
  | f :: _ => Some (frame_node f)
  end.

Definition frame_before (f : frame) : list (positive * T) :=
  match f with
  | FL _ _ _ _ => []
  | FR l p _ v => elems l ++ [(p, v)]
  end.

Definition frame_after (f : frame) : list (positive * T) :=
  match f with
  | FL p _ v r => (p, v) :: elems r
  | FR _ _ _ _ => []
  end.

Fixpoint before (c : list frame) : list (positive * T) :=
  match c with
  | [] => []
  | f :: c' => before c' ++ frame_before f
  end.

Fixpoint after (c : list frame) : list (positive * T) :=
  match c with
  | [] => []
  | f :: c' => frame_after f ++ after c'
  end.

Fixpoint ReprC (m : gmap positive (avl_node T)) (c : list frame) (hole : ptr)
  : Prop :=
  match c with
  | [] => True
  | FL p h v r :: c' =>
      m !! p = Some (AvlNode (cparent c') hole (root_of r) h v)
      /\ Repr m (Some p) r /\ ReprC m c' (Some p)
  | FR l p h v :: c' =>
      m !! p = Some (AvlNode (cparent c') (root_of l) hole h v)
      /\ Repr m (Some p) l /\ ReprC m c' (Some p)
  end.

(** The context's stored heights are right for a hole of stored height [h]. *)
Fixpoint hokC (c : list frame) (h : Z) : Prop :=
  match c with
  | [] => True
  | FL _ hp _ r :: c' => hok r /\ hp = Z.max h (ht r) + 1 /\ hokC c' hp
  | FR l _ hp _ :: c' => hok l /\ hp = Z.max (ht l) h + 1 /\ hokC c' hp
  end.

(** The root of [plug c t] depends on [t] only through its root. *)
Fixpoint croot (c : list frame) (hole : ptr) : ptr :=
  match c with
  | [] => hole
  | f :: c' => croot c' (Some (frame_node f))
  end.

End Shape.

(** * The operations on trees

    What each member function does to the tree the storage represents. *)

Section TreeOps.
Context {T : Type}.
Implicit Types (m : gmap positive (avl_node T)) (t l r : @tree T).
Implicit Types (c : list (@frame T)).
Implicit Types (e : list (positive * T)).

Definition cids c : list positive := (before c).*1 ++ (after c).*1.

Definition wp {A} (c : M T A) (s : avl_tree T) (Q : A -> avl_tree T -> Prop) : Prop :=
  match c s with
  | Some (a, s') => Q a s'
  | None => False
  end.

(** Distinctness of addresses from the facts a [NoDup] decomposes into. *)
Definition NoDup_keep (l : list positive) : Prop := NoDup l.

(** [update_height] on the tree. *)
Definition node (l : @tree T) (p : positive) (v : T) (r : tree) : tree :=
  Node l p (size_wrap (Z.max (ht l) (ht r) + 1)) v r.

Definition fix_left_tree (t : @tree T) : tree :=
  match t with
  | Node l x hx vx (Node rl y hy vy rr) =>
      if ht rr <? ht rl then
        match rl with
        | Node a q hq vq b => node (node l x vx a) q vq (node b y vy rr)
        | Leaf => t
        end
      else node (node l x vx rl) y vy rr
  | _ => t
  end.

Definition fix_right_tree (t : @tree T) : tree :=
  match t with
  | Node (Node ll y hy vy lr) x hx vx r =>
      if ht ll <? ht lr then
        match lr with
        | Node a q hq vq b => node (node ll y vy a) q vq (node b x vx r)
        | Leaf => t
        end
      else node ll y vy (node lr x vx r)
  | _ => t
  end.

(** One round of the [rebalance] loop on the tree; [None] is the [break]. *)
Definition step_tree (t : @tree T) : option tree :=
  match t with
  | Leaf => None
  | Node l x h v r =>
      let h' := size_wrap (Z.max (ht l) (ht r) + 1) in
      if h =? h' then None
      else
        let diff := to_int32 (ht l) - to_int32 (ht r) in
        Some (if diff <=? -2 then fix_left_tree (Node l x h' v r)
              else if 2 <=? diff then fix_right_tree (Node l x h' v r)
              else Node l x h' v r)
  end.

Fixpoint rebalance_tree (c : list frame) (t : @tree T) : tree :=
  match step_tree t with
  | None => plug c t
  | Some t' =>
      match c with
      | [] => t'
      | f :: c' => rebalance_tree c' (fill f t')
      end
  end.

(** The leaf a fresh node becomes once [fix_insert] has run on it. *)
Definition leaf (n : positive) (v : T) : @tree T := Node Leaf n 1 v Leaf.

(** The tree after linking [leaf n v] into the empty slot at [c]. *)
Definition insert_at (c : list frame) (n : positive) (v : T) : @tree T :=
  match c with
  | [] => leaf n v
  | f :: c' => rebalance_tree c' (fill f (leaf n v))
  end.

(** The left-most node of [t], as a subtree, and the path up from it. *)
Fixpoint min_ctx (t : @tree T) (c : list frame) : list frame * tree :=
  match t with
  | Leaf => (c, t)
  | Node l p h v r =>
      match l with
      | Leaf => (c, t)
      | Node _ _ _ _ _ => min_ctx l (FL p h v r :: c)
      end
  end.

(** The tree [erase] leaves before its rebalance walk, and the node the
    walk starts from, when the node has two children. *)
Definition unlink2_tree (c : list frame) (l : @tree T) (r : @tree T) (h : Z)
  : @tree T :=
  match (min_ctx r []).2 with
  | Node _ s _ vs sr => plug c (Node l s h vs (plug (min_ctx r []).1 sr))
  | Leaf => Leaf
  end.

Definition unlink2_start (r : @tree T) : ptr :=
  match cparent (min_ctx r []).1 with
  | Some p => Some p
  | None => root_of (min_ctx r []).2
  end.

(** The tree after [erase] of a node with two children [l] and [r], stored
    height [h], below the context [c]. *)
Definition erase2_tree (c : list frame) (l r : @tree T) (h : Z) : @tree T :=
  match (min_ctx r []).2 with
  | Node _ s _ vs sr =>
      match (min_ctx r []).1 with
      | [] => rebalance_tree c (Node l s h vs sr)
      | FL p1 h1 v1 r1 :: cr' =>
          rebalance_tree (cr' ++ FR l s h vs :: c) (Node sr p1 h1 v1 r1)
      | FR _ _ _ _ :: _ => Leaf
      end
  | Leaf => Leaf
  end.

(** A handler that returns and only touches the storage of the node it is
    given: it may overwrite it or give it back to the allocator. *)
Definition handler_local (handler : positive -> M T unit) : Prop :=
  forall p s, exists s',
    handler p s = Some (tt, s')
    /\ forall q, q ≠ p -> nodes s' !! q = nodes s !! q.

(** The handler run on the nodes of a list, one after the other. *)
Fixpoint visit_all (handler : positive -> M T unit) (ps : list positive)
  : M T unit :=
  match ps with
  | [] => ret tt
  | p :: ps' => bind (handler p) (fun _ => visit_all handler ps')
  end.

(** [prev] applied [k] times from [p], with the nodes passed on the way. *)
Fixpoint prev_walk (k : nat) (p : positive) : M T (list positive) :=
  match k with
  | O => ret [p]
  | S k' =>
      bind (prev p) (fun q =>
        match q with
        | Some q' => bind (prev_walk k' q') (fun rest => ret (p :: rest))
        | None => ret [p]
        end)
  end.

End TreeOps.

(** * Order

    The comparator [value_comp] is the tree's [Compare] applied to the
    elements of two nodes. *)

Section OrderDefs.
Context {T : Type}.
Variable value_comp : T -> T -> bool.
Implicit Types (m : gmap positive (avl_node T)) (t l r : @tree T).
Implicit Types (c : list (@frame T)).
Implicit Types (e : list (positive * T)).

(** Where the descent of [insert_unique] ends: the empty slot, as a context,
    or nowhere when it meets a node that compares equal. *)
Fixpoint slot_unique (vn : T) (t : @tree T) (c : list frame)
  : option (list frame) :=
  match t with
  | Leaf => Some c
  | Node l p h v r =>
      if value_comp vn v then slot_unique vn l (FL p h v r :: c)
      else if value_comp v vn then slot_unique vn r (FR l p h v :: c)
      else None
  end.

(** The descent of [insert_multi] always ends at an empty slot. *)
Fixpoint slot_multi (vn : T) (t : @tree T) (c : list frame) : list frame :=
  match t with
  | Leaf => c
  | Node l p h v r =>
      if value_comp vn v then slot_multi vn l (FL p h v r :: c)
      else if value_comp v vn then slot_multi vn r (FR l p h v :: c)
      else
        match l, r with
        | Leaf, _ => FL p h v r :: c
        | _, Leaf => FR l p h v :: c
        | _, _ =>
            if ht l <? ht r then slot_multi vn l (FL p h v r :: c)
            else slot_multi vn r (FR l p h v :: c)
        end
  end.

(** Two values compare equal when neither is less than the other. *)
Definition equivalent (a b : T) : Prop :=
  value_comp a b = false /\ value_comp b a = false.

(** What the tree asks of its comparator. *)
Record strict_weak_order : Prop := StrictWeak {
  sw_irrefl : forall a, value_comp a a = false;
  sw_trans : forall a b d,
    value_comp a b = true -> value_comp b d = true -> value_comp a d = true;
  sw_equiv : forall a b d, equivalent a b -> equivalent b d -> equivalent a d
}.

(** BST order, node by node: everything on the left is strictly less,
    everything on the right strictly greater. *)
Fixpoint bst (t : @tree T) : Prop :=
  match t with
  | Leaf => True
  | Node l _ _ v r =>
      bst l /\ bst r
      /\ (forall x, x ∈ vals l -> value_comp x v = true)
      /\ (forall x, x ∈ vals r -> value_comp v x = true)
  end.

(** The same on the in-order sequence. *)
Definition ordered (e : list (positive * T)) : Prop :=
  StronglySorted (fun a b => value_comp a.2 b.2 = true) e.

Fixpoint find_tree (v : T) (t : @tree T) : ptr :=
  match t with
  | Leaf => None
  | Node l p _ w r =>
      if value_comp v w then find_tree v l
      else if value_comp w v then find_tree v r
      else Some p
  end.

(** Everything before the slot is less than [vn], everything after greater. *)
Definition fits (vn : T) (c : list (@frame T)) : Prop :=
  (forall x, x ∈ before c -> value_comp x.2 vn = true)
  /\ (forall x, x ∈ after c -> value_comp vn x.2 = true).

End OrderDefs.

(** * Trees of integers under [<]

    The benchmark's [IntElement]: nodes that hold an [int64_t], compared with
    [operator<]. *)

Module IntTree.

(** A node as its constructor leaves it, holding [v]. *)
Definition obj (v : Z) : avl_node Z := AvlNode None None None 0 v.

(** Storage with the given objects at addresses 1, 2, ... *)
Definition storage (vs : list Z) : gmap positive (avl_node Z) :=
  list_to_map (imap (fun i v => (Pos.of_succ_nat i, obj v)) vs).

(** [avl_tree()]: no root, size 0. *)
Definition new_tree (m : gmap positive (avl_node Z)) : avl_tree Z :=
  AvlTree 0 None m.

(** Run the calls one after the other. *)
Fixpoint run_all {A} (cs : list (M Z A)) : M Z unit :=
  match cs with
  | [] => ret tt
  | c :: cs' => bind c (fun _ => run_all cs')
  end.

Definition state_after {A} (c : M Z A) (s : avl_tree Z) : avl_tree Z :=
  match c s with
  | Some (_, s') => s'
  | None => s
  end.

(** The tree of the deletion example: 10, 5, 15, 3, 7, 12, 20 inserted in
    that order at addresses 1 to 7. *)
Definition s7 : avl_tree Z :=
  state_after (run_all (map (insert_unique Z.ltb) [1; 2; 3; 4; 5; 6; 7]%positive))
    (new_tree (storage [10; 5; 15; 3; 7; 12; 20; 7; 8])).

Definition t7 : @tree Z :=
  Node (Node (leaf 4 3) 2 2 5 (leaf 5 7)) 1 3 10
       (Node (leaf 6 12) 3 2 15 (leaf 7 20)).

(** A tree holding 10, then [insert_or_replace] of 5. *)
Definition s_replace : avl_tree Z :=
  state_after (bind (insert_unique Z.ltb 1) (fun _ => insert_or_replace Z.ltb 2))
    (new_tree (storage [10; 5])).

Definition s_unbalanced : avl_tree Z :=
  state_after
    (bind (run_all (map (insert_unique Z.ltb) [1; 2; 3; 4]%positive))
       (fun _ => erase 3))
    (new_tree (storage [2; 1; 3; 0])).

Definition t_unbalanced : @tree Z :=
  Node (Node (leaf 4 0) 2 2 1 Leaf) 1 3 2 Leaf.

Definition s_multi : avl_tree Z :=
  state_after (run_all (map (insert_multi Z.ltb) [1; 2; 3; 4; 5]%positive))
    (new_tree (storage [5; 3; 5; 8; 5])).

Definition t_multi : @tree Z :=
  Node (Node Leaf 2 2 3 (leaf 5 5)) 1 3 5 (Node Leaf 3 2 5 (leaf 4 8)).

(** The handler of the benchmark: [memset] the node to zero. *)
Definition wipe (p : positive) : M Z unit := store p (obj 0).

End IntTree.

(** * Balance of a context *)

Section BalanceDefs.
Context {T : Type}.

(** The context is balanced around a hole of stored height [h]. *)
Fixpoint balancedC (c : list (@frame T)) (h : Z) : Prop :=
  match c with
  | [] => True
  | FL _ hp _ r :: c' => balanced r /\ -1 <= h - ht r <= 1 /\ balancedC c' hp
  | FR l _ hp _ :: c' => balanced l /\ -1 <= ht l - h <= 1 /\ balancedC c' hp
  end.

End BalanceDefs.

(** * What the operations leave alone *)

Section KeepsDefs.
Context {T : Type}.

(** What the caller owns: which nodes exist and the element each holds. *)
Definition payload (s : avl_tree T) : gmap positive T := elem <$> nodes s.

(** A computation that only rewrites links, heights, root and size. *)
Definition keeps {A} (c : M T A) : Prop :=
  forall s a s', c s = Some (a, s') -> payload s' = payload s.

End KeepsDefs.

(** * erase of a node with at most one child *)

Section EraseOneDefs.
Context {T : Type}.



End EraseOneDefs.

(** * avl_tree: the lookup with a caller's three-way comparison *)

Section FindCmp.
Context {T V : Type}.

(** [cmp(value, node)]: the number the caller's comparison returns. *)
Variable fn : V -> T -> Z.

(** [find(Fn &&cmp, Value &&value)]: the result of the comparison is
    stored in an [int] and tested there. *)
Fixpoint find_cmp_loop (fuel : nat) (v : V) (node : ptr) : M T ptr :=
  match node with
  | None => ret None
  | Some n =>
      match fuel with
      | O => fail
      | S fuel' =>
          bind (value n) (fun vn =>
          let cmp := to_int32 (fn v vn) in
          if cmp <? 0 then bind (left n) (fun l => find_cmp_loop fuel' v l)
          else if 0 <? cmp then bind (right n) (fun r => find_cmp_loop fuel' v r)
          else ret (Some n))
      end
  end.

Definition find_cmp (v : V) : M T ptr :=
  bind root (fun first => with_fuel (fun f => find_cmp_loop f v first)).

End FindCmp.

(** * set.h: tinystl::set over the tree

    A [set_node<Key>] is an [avl_node] with the key as its element; the
    tree's comparator applies [Compare] to the keys of two nodes.  The
    allocator's storage is the node storage of the tree: [allocate] hands
    out an address that is not in use, and [deallocate] takes it out. *)

Section TinySet.
Context {Key : Type}.

(** [Compare] *)
Variable key_comp : Key -> Key -> bool.

(** The lambda [set] passes to the tree's [find]. *)
Definition key_cmp (lhs : Key) (rhs : Key) : Z :=
  if key_comp lhs rhs then -1
  else if key_comp rhs lhs then 1
  else 0.

(** [allocator_traits::construct(alloc, node, args...)] on the storage
    [node] that [allocate] returned: links null, height 0, the key. *)
Definition construct (node : positive) (k : Key) : M Key unit :=
  store node (AvlNode None None None 0 k).

(** [destroy] and [deallocate]. *)
Definition deallocate (node : positive) : M Key unit :=
  fun s => Some (tt, AvlTree (mSize s) (mRoot s) (delete node (nodes s))).

(** [emplace], with [node] the result of [allocate]; an iterator is its
    node pointer, [end()] the null one. *)
Definition set_emplace (node : positive) (k : Key) : M Key (ptr * bool) :=
  bind (construct node k) (fun _ =>
  bind (insert_unique key_comp node) (fun success =>
  if negb success then
    bind (deallocate node) (fun _ => ret (None, false))
  else ret (Some node, true))).

Definition set_insert (node : positive) (k : Key) : M Key (ptr * bool) :=
  set_emplace node k.



Definition set_count (k : Key) : M Key Z :=
  bind (find_cmp key_cmp k) (fun p =>
  ret (match p with Some _ => 1 | None => 0 end)).

Definition set_find (k : Key) : M Key ptr :=
  bind (find_cmp key_cmp k) (fun p =>
  match p with
  | None => tree_end
  | Some q => ret (Some q)
  end).

Definition set_contains (k : Key) : M Key bool :=
  bind (set_count k) (fun n => ret (negb (n =? 0))).

Definition set_clear : M Key unit :=
  bind (clear deallocate) (fun _ => ret tt).

(** A set: the tree is in order with right heights and the right size, and
    every node in storage is linked. *)
Record is_set (s : avl_tree Key) (t : @tree Key) : Prop := IsSet {
  set_linked : linked s t;
  set_bst : bst key_comp t;
  set_hok : hok t;
  set_owned : dom (nodes s) = list_to_set (ids t);
  set_size_ok : mSize s = Z.of_nat (count t)
}.

(** Some key of the set compares equal to [k]. *)
Definition member (k : Key) (t : @tree Key) : Prop :=
  exists p w, (p, w) ∈ elems t /\ equivalent key_comp k w.

End TinySet.

(** * Walking an iterator to the end *)

Section Walk.
Context {T : Type}.

(** [for (; it != end(); ++it)], with the nodes passed on the way. *)
Fixpoint incr_walk (fuel : nat) (it : avl_tree_iterator) : M T (list positive) :=
  if iter_eq it end_iterator then ret []
  else
    match fuel with
    | O => fail
    | S fuel' =>
        bind (iter_next it) (fun it' =>
        bind (incr_walk fuel' it') (fun rest =>
        ret (match mPtr it with
             | Some p => p :: rest
             | None => rest
             end)))
    end.

End Walk.

(** * benchmark.cpp: run_avl_tree *)

Module Benchmark.
Import IntTree.

(** The search loop: [abort] when an element is not found. *)
Fixpoint find_all (elements : list positive) : M Z unit :=
  match elements with
  | [] => ret tt
  | e :: rest =>
      bind (value e) (fun v =>
      bind (find Z.ltb v) (fun p =>
      match p with
      | None => fail
      | Some _ => find_all rest
      end))
  end.

(** Insert every element, look every element up, clear with [memset]. *)
Definition run_avl_tree (elements : list positive) : M Z (list positive) :=
  bind (run_all (map (insert_unique Z.ltb) elements)) (fun _ =>
  bind (find_all elements) (fun _ =>
  clear wipe)).

End Benchmark.

(** * More trees of integers *)

Module IntExamples.
Import IntTree.



(** The set holding 5, 3 and 8, emplaced in that order at addresses 1, 2
    and 3 of an empty storage. *)
Definition set3 : avl_tree Z :=
  state_after
    (bind (set_emplace Z.ltb 1 5) (fun _ =>
     bind (set_emplace Z.ltb 2 3) (fun _ => set_emplace Z.ltb 3 8)))
    (AvlTree 0 None ∅).

Definition t_set3 : @tree Z := Node (leaf 2 3) 1 2 5 (leaf 3 8).





End IntExamples.

(** * The descent of insert_or_replace *)

Section ReplaceDefs.
Context {T : Type}.
Variable value_comp : T -> T -> bool.


End ReplaceDefs.

(** * The lookup with a three-way comparison, on trees *)

Section FindCmpDefs.
Context {T V : Type}.
Variable fn : V -> T -> Z.

(** The node [find] with a three-way comparison ends at. *)
Fixpoint find_cmp_tree (v : V) (t : @tree T) : ptr :=
  match t with
  | Leaf => None
  | Node l p _ w r =>
      if to_int32 (fn v w) <? 0 then find_cmp_tree v l
      else if 0 <? to_int32 (fn v w) then find_cmp_tree v r
      else Some p
  end.

(** The comparison, as an [int], agrees with the order of the tree: in
    order, the nodes the value is greater than come first and those it is
    less than last. *)
Definition cmp_sorted (v : V) (e : list (positive * T)) : Prop :=
  StronglySorted
    (fun a b => Z.sgn (to_int32 (fn v b.2)) <= Z.sgn (to_int32 (fn v a.2))) e.

End FindCmpDefs.

#[local] Set Warnings "-clear-no-such-hyp".

(** * Facts about trees and contexts *)

Section ShapeFacts.
Context {T : Type}.
Implicit Types (m : gmap positive (avl_node T)) (t l r : @tree T).
Implicit Types (c : list (@frame T)).
Implicit Types (e : list (positive * T)).
Implicit Types (f : @frame T).

Lemma plug_cons f c t : plug (f :: c) t = plug c (fill f t).
Proof. reflexivity. Qed.

Lemma plug_app c1 c2 t : plug (c1 ++ c2) t = plug c2 (plug c1 t).
Proof. unfold plug. apply foldl_app. Qed.

Lemma elems_plug c t : elems (plug c t) = before c ++ elems t ++ after c.
Proof.
  revert t. induction c as [|f c IH]; intros t.
  - simpl. by rewrite app_nil_r.
  - rewrite plug_cons, IH. destruct f; simpl; by repeat rewrite <- app_assoc.
Qed.

Lemma ids_node l p h v r : ids (Node l p h v r) = ids l ++ p :: ids r.
Proof. unfold ids. simpl. by rewrite fmap_app. Qed.

Lemma ids_plug c t :
  ids (plug c t) = (before c).*1 ++ ids t ++ (after c).*1.
Proof. unfold ids. by rewrite elems_plug, !fmap_app. Qed.

Lemma root_of_plug c t : root_of (plug c t) = croot c (root_of t).
Proof.
  revert t. induction c as [|f c IH]; intros t; [done|].
  rewrite plug_cons, IH. by destruct f.
Qed.

Lemma Repr_plug m c t :
  Repr m None (plug c t) <-> ReprC m c (root_of t) /\ Repr m (cparent c) t.
Proof.
  revert t. induction c as [|f c IH]; intros t.
  - simpl. tauto.
  - rewrite plug_cons, IH. destruct f; simpl; tauto.
Qed.

(** Storage that agrees on a tree's addresses represents the same tree. *)
Lemma Repr_frame m m' par t :
  Repr m par t -> (forall q, q ∈ ids t -> m' !! q = m !! q) -> Repr m' par t.
Proof.
  revert par. induction t as [|l IHl p h v r IHr]; intros par; [done|].
  simpl. rewrite ids_node. intros (Hp & Hl & Hr) Hag. split_and!.
  - rewrite Hag; [done|]. set_solver.
  - apply IHl; [done|]. intros q ?. apply Hag. set_solver.
  - apply IHr; [done|]. intros q ?. apply Hag. set_solver.
Qed.

Lemma Repr_lookup m par t q :
  Repr m par t -> q ∈ ids t -> is_Some (m !! q).
Proof.
  revert par. induction t as [|l IHl p h v r IHr]; intros par.
  - unfold ids. simpl. set_solver.
  - simpl. rewrite ids_node. intros (Hp & Hl & Hr) Hq.
    apply elem_of_app in Hq as [Hq|Hq]; [by eapply IHl|].
    apply elem_of_cons in Hq as [->|Hq]; [eauto|by eapply IHr].
Qed.

End ShapeFacts.

Arguments size_wrap : simpl never.
Arguments to_int32 : simpl never.
Arguments fuel_of : simpl never.
Arguments plug : simpl never.

(** * Running a computation *)

Section Exec.
Context {T : Type}.
Implicit Types (m : gmap positive (avl_node T)) (t l r : @tree T).
Implicit Types (c : list (@frame T)).

Lemma cids_cons_FL p h v r c :
  cids (FL p h v r :: c) ≡ₚ p :: ids r ++ cids c.
Proof.
  unfold cids, ids. simpl. rewrite app_nil_r, !fmap_app.
  rewrite <- Permutation_middle. f_equiv.
  rewrite (Permutation_app_comm ((before c).*1)), <- !app_assoc. f_equiv.
  apply Permutation_app_comm.
Qed.

Lemma cids_cons_FR l p h v c :
  cids (FR l p h v :: c) ≡ₚ p :: ids l ++ cids c.
Proof.
  unfold cids, ids. simpl. rewrite !fmap_app. simpl.
  rewrite <- !app_assoc. simpl.
  rewrite (Permutation_app_comm ((before c).*1)), <- !app_assoc. simpl.
  rewrite <- Permutation_middle. do 2 f_equiv. apply Permutation_app_comm.
Qed.

Lemma ids_plug_perm c t : ids (plug c t) ≡ₚ ids t ++ cids c.
Proof.
  rewrite ids_plug. unfold cids.
  rewrite (Permutation_app_comm ((before c).*1)), <- app_assoc.
  f_equiv. apply Permutation_app_comm.
Qed.

Lemma ReprC_frame m m' c hole :
  ReprC m c hole -> (forall q, q ∈ cids c -> m' !! q = m !! q) -> ReprC m' c hole.
Proof.
  revert hole. induction c as [|f c IH]; intros hole; [done|].
  destruct f as [p h v r|l p h v]; simpl; intros (Hp & Hs & Hc) Hag.
  - assert (Hag' : forall q, q ∈ p :: ids r ++ cids c -> m' !! q = m !! q).
    { intros q Hq. apply Hag. by rewrite cids_cons_FL. }
    split_and!.
    + rewrite Hag'; [done|]. set_solver.
    + eapply Repr_frame; [done|]. intros q ?. apply Hag'. set_solver.
    + apply IH; [done|]. intros q ?. apply Hag'. set_solver.
  - assert (Hag' : forall q, q ∈ p :: ids l ++ cids c -> m' !! q = m !! q).
    { intros q Hq. apply Hag. by rewrite cids_cons_FR. }
    split_and!.
    + rewrite Hag'; [done|]. set_solver.
    + eapply Repr_frame; [done|]. intros q ?. apply Hag'. set_solver.
    + apply IH; [done|]. intros q ?. apply Hag'. set_solver.
Qed.

Lemma ids_leaf : ids (@Leaf T) = [].
Proof. done. Qed.

Lemma cparent_in c y : cparent c = Some y -> y ∈ cids c.
Proof.
  destruct c as [|[p h v r|l p h v] c]; simpl; [done|..]; intros [= ->].
  - rewrite cids_cons_FL. set_solver.
  - rewrite cids_cons_FR. set_solver.
Qed.

Lemma root_in_ids t p : root_of t = Some p -> p ∈ ids t.
Proof. destruct t; [done|]. intros [= ->]. rewrite ids_node. set_solver. Qed.

(** ** Weakest preconditions *)

Lemma wp_run {A} (c : M T A) s Q :
  wp c s Q <-> exists a s', c s = Some (a, s') /\ Q a s'.
Proof.
  unfold wp. destruct (c s) as [[a s']|]; [|naive_solver].
  split; [eauto|]. by intros (? & ? & [= <- <-] & ?).
Qed.

Lemma wp_mono {A} (c : M T A) s (Q Q' : A -> avl_tree T -> Prop) :
  wp c s Q -> (forall a s', Q a s' -> Q' a s') -> wp c s Q'.
Proof. unfold wp. destruct (c s) as [[a s']|]; eauto. Qed.

Lemma wp_bind {A B} (c : M T A) (k : A -> M T B) s Q :
  wp c s (fun a s' => wp (k a) s' Q) -> wp (bind c k) s Q.
Proof. unfold wp, bind. by destruct (c s) as [[a s']|]. Qed.

Lemma wp_ret {A} (a : A) s (Q : A -> avl_tree T -> Prop) : Q a s -> wp (ret a) s Q.
Proof. done. Qed.

Lemma wp_load p sz rt m n Q :
  m !! p = Some n -> Q n (AvlTree sz rt m) -> wp (load p) (AvlTree sz rt m) Q.
Proof. unfold wp, load. simpl. by intros ->. Qed.

Lemma wp_store p n sz rt m (Q : unit -> avl_tree T -> Prop) :
  Q tt (AvlTree sz rt (<[p := n]> m)) -> wp (store p n) (AvlTree sz rt m) Q.
Proof. done. Qed.

Lemma wp_left p sz rt m n Q :
  m !! p = Some n -> Q (mLeft n) (AvlTree sz rt m) -> wp (left p) (AvlTree sz rt m) Q.
Proof. intros. apply wp_bind. by eapply wp_load. Qed.
Lemma wp_right p sz rt m n Q :
  m !! p = Some n -> Q (mRight n) (AvlTree sz rt m) -> wp (right p) (AvlTree sz rt m) Q.
Proof. intros. apply wp_bind. by eapply wp_load. Qed.
Lemma wp_parent p sz rt m n Q :
  m !! p = Some n -> Q (mParent n) (AvlTree sz rt m) -> wp (parent p) (AvlTree sz rt m) Q.
Proof. intros. apply wp_bind. by eapply wp_load. Qed.
Lemma wp_height p sz rt m n Q :
  m !! p = Some n -> Q (mHeight n) (AvlTree sz rt m) -> wp (height p) (AvlTree sz rt m) Q.
Proof. intros. apply wp_bind. by eapply wp_load. Qed.
Lemma wp_value p sz rt m n Q :
  m !! p = Some n -> Q (elem n) (AvlTree sz rt m) -> wp (value p) (AvlTree sz rt m) Q.
Proof. intros. apply wp_bind. by eapply wp_load. Qed.

Lemma wp_set_mParent p v sz rt m n (Q : unit -> avl_tree T -> Prop) :
  m !! p = Some n ->
  Q tt (AvlTree sz rt (<[p := AvlNode v (mLeft n) (mRight n) (mHeight n) (elem n)]> m)) ->
  wp (set_mParent p v) (AvlTree sz rt m) Q.
Proof. intros. apply wp_bind. by eapply wp_load. Qed.
Lemma wp_set_mLeft p v sz rt m n (Q : unit -> avl_tree T -> Prop) :
  m !! p = Some n ->
  Q tt (AvlTree sz rt (<[p := AvlNode (mParent n) v (mRight n) (mHeight n) (elem n)]> m)) ->
  wp (set_mLeft p v) (AvlTree sz rt m) Q.
Proof. intros. apply wp_bind. by eapply wp_load. Qed.
Lemma wp_set_mRight p v sz rt m n (Q : unit -> avl_tree T -> Prop) :
  m !! p = Some n ->
  Q tt (AvlTree sz rt (<[p := AvlNode (mParent n) (mLeft n) v (mHeight n) (elem n)]> m)) ->
  wp (set_mRight p v) (AvlTree sz rt m) Q.
Proof. intros. apply wp_bind. by eapply wp_load. Qed.
Lemma wp_set_mHeight p v sz rt m n (Q : unit -> avl_tree T -> Prop) :
  m !! p = Some n ->
  Q tt (AvlTree sz rt (<[p := AvlNode (mParent n) (mLeft n) (mRight n) v (elem n)]> m)) ->
  wp (set_mHeight p v) (AvlTree sz rt m) Q.
Proof. intros. apply wp_bind. by eapply wp_load. Qed.

Lemma wp_root sz rt m Q :
  Q rt (AvlTree sz rt m) -> wp root (AvlTree sz rt m) Q.
Proof. done. Qed.
Lemma wp_set_root v sz rt m (Q : unit -> avl_tree T -> Prop) :
  Q tt (AvlTree sz v m) -> wp (set_root v) (AvlTree sz rt m) Q.
Proof. done. Qed.
Lemma wp_size sz rt m Q :
  Q sz (AvlTree sz rt m) -> wp size (AvlTree sz rt m) Q.
Proof. done. Qed.
Lemma wp_set_mSize v sz rt m (Q : unit -> avl_tree T -> Prop) :
  Q tt (AvlTree v rt m) -> wp (set_mSize v) (AvlTree sz rt m) Q.
Proof. done. Qed.
Lemma wp_with_fuel {A} (k : nat -> M T A) s Q :
  wp (k (fuel_of s)) s Q -> wp (with_fuel k) s Q.
Proof. done. Qed.
Lemma wp_deref p sz rt m (Q : positive -> avl_tree T -> Prop) :
  Q p (AvlTree sz rt m) -> wp (deref (Some p)) (AvlTree sz rt m) Q.
Proof. done. Qed.

Lemma wp_height_or_0 t par sz rt m Q :
  Repr m par t -> Q (ht t) (AvlTree sz rt m) ->
  wp (height_or_0 (root_of t)) (AvlTree sz rt m) Q.
Proof.
  destruct t as [|l p h v r]; simpl; [done|].
  intros (Hp & _) HQ. by eapply wp_height.
Qed.

End Exec.

Ltac nd :=
  repeat match goal with
    | H : NoDup (ids (Node _ _ _ _ _)) |- _ => rewrite ids_node in H
    | H : NoDup (ids Leaf) |- _ => clear H
    | H : NoDup (_ ++ _) |- _ => apply NoDup_app in H as (? & ? & ?)
    | H : NoDup (_ :: _) |- _ => apply NoDup_cons in H as [? ?]
    end.

Ltac split_elem :=
  repeat match goal with
    | H : _ ∈ _ ++ _ |- _ => apply elem_of_app in H as [H|H]
    | H : _ ∈ _ :: _ |- _ => apply elem_of_cons in H as [H|H]
    | H : _ ∈ [] |- _ => by apply elem_of_nil in H
    end.

Ltac solve_elem :=
  repeat first
    [ rewrite ids_node | rewrite elem_of_app | rewrite elem_of_cons ];
  eauto 12.

Ltac find_contra :=
  match goal with
  | H : ?a ∉ ?L |- False => apply H; solve [solve_elem]
  | H : (forall z, z ∈ ?L1 -> z ∉ ?L2), Ha : ?a ∈ _ |- False =>
      apply (H a); solve [solve_elem]
  | H : (forall z, z ∈ ?L1 -> z ∉ ?L2), a : positive |- False =>
      apply (H a); solve [solve_elem]
  end.

Ltac dis :=
  solve
    [ assumption
    | congruence
    | let E := fresh "E" in
      try intros E;
      repeat match goal with
        | H : cparent _ = Some _ |- _ => apply cparent_in in H
        | H : root_of _ = Some _ |- _ => apply root_in_ids in H
        | H : ids _ = _ |- _ => clear H
        end;
      repeat (rewrite ?ids_node, ?ids_leaf in * );
      split_elem; simplify_eq; find_contra ].

Ltac lkp :=
  lazymatch goal with
  | |- <[?p := _]> _ !! ?p = _ => rewrite lookup_insert_eq; reflexivity
  | |- <[_ := _]> _ !! _ = _ => rewrite lookup_insert_ne by dis; lkp
  | |- ?m !! ?p = _ =>
      first
        [ match goal with H : m !! p = Some _ |- _ => exact H end
        | match goal with
          | H : forall y, _ -> m !! y = _ |- _ => rewrite (H p) by dis; lkp
          end ]
  end.

Ltac nodup :=
  repeat (rewrite ?ids_node, ?ids_leaf; cbn [app]);
  lazymatch goal with
  | |- NoDup [] => constructor
  | |- NoDup (_ ++ _) =>
      apply NoDup_app; split_and!; [nodup | intros ? ?; dis | nodup]
  | |- NoDup (_ :: _) => apply NoDup_cons; split; [dis | nodup]
  | |- NoDup _ => assumption
  end.

(** Solves [m' !! q = m !! q] when [q] is away from every write. *)
Ltac frm :=
  intros;
  lazymatch goal with
  | |- ?a = ?a => reflexivity
  | |- <[_ := _]> _ !! _ = _ => rewrite lookup_insert_ne by dis; frm
  | |- ?m !! ?p = _ =>
      match goal with
      | H : forall y, _ -> m !! y = _ |- _ => rewrite (H p) by dis; frm
      end
  end.

Ltac wp_atom :=
  lazymatch goal with
  | |- wp (ret _) _ _ => apply wp_ret
  | |- wp (left _) _ _ => eapply wp_left; [lkp|]
  | |- wp (right _) _ _ => eapply wp_right; [lkp|]
  | |- wp (parent _) _ _ => eapply wp_parent; [lkp|]
  | |- wp (height _) _ _ => eapply wp_height; [lkp|]
  | |- wp (value _) _ _ => eapply wp_value; [lkp|]
  | |- wp (set_mParent _ _) _ _ => eapply wp_set_mParent; [lkp|]
  | |- wp (set_mLeft _ _) _ _ => eapply wp_set_mLeft; [lkp|]
  | |- wp (set_mRight _ _) _ _ => eapply wp_set_mRight; [lkp|]
  | |- wp (set_mHeight _ _) _ _ => eapply wp_set_mHeight; [lkp|]
  | |- wp root _ _ => apply wp_root
  | |- wp (set_root _) _ _ => apply wp_set_root
  | |- wp size _ _ => apply wp_size
  | |- wp (set_mSize _) _ _ => apply wp_set_mSize
  | |- wp (with_fuel _) _ _ => apply wp_with_fuel
  | |- wp (deref (Some _)) _ _ => apply wp_deref
  | |- wp (height_or_0 (root_of _)) _ _ =>
      eapply wp_height_or_0; [eapply Repr_frame; [eassumption|frm]|]
  | |- wp (height_or_0 (Some _)) _ _ => unfold height_or_0
  | |- wp (height_or_0 None) _ _ => unfold height_or_0
  | |- wp (when_some (Some _) _) _ _ => unfold when_some
  | |- wp (when_some None _) _ _ => unfold when_some
  end; cbn [mParent mLeft mRight mHeight elem root_of ht].

(** One step; a [bind] is only opened when its head can be run. *)
Ltac wp_prim :=
  lazymatch goal with
  | |- wp (bind _ _) _ _ => apply wp_bind; wp_prim
  | _ => wp_atom
  end.

Ltac wp_go := repeat wp_prim.

Ltac wp_bind_syn :=
  repeat lazymatch goal with
    | |- wp (bind _ _) _ _ => apply wp_bind
    end.

(** * Linked states and contexts *)

Section Exec2.
Context {T : Type}.
Implicit Types (m : gmap positive (avl_node T)) (t l r : @tree T).
Implicit Types (c : list (@frame T)).

Lemma replace_as_child_ctx m c x q sz (Q : unit -> avl_tree T -> Prop) :
  ReprC m c (Some x) -> NoDup (x :: cids c) ->
  (forall m', ReprC m' c q ->
     (forall y, cparent c ≠ Some y -> m' !! y = m !! y) ->
     Q tt (AvlTree sz (croot c q) m')) ->
  wp (replace_as_child x q (cparent c)) (AvlTree sz (croot c (Some x)) m) Q.
Proof.
  destruct c as [|[p h v r|l p h v] c]; simpl.
  - intros _ _ HQ. unfold replace_as_child. wp_go. by apply HQ.
  - intros (Hp & Hr & Hc). rewrite cids_cons_FL.
    intros Hnd HQ.
    apply NoDup_cons in Hnd as [Hx Hnd]. apply NoDup_cons in Hnd as [Hpn Hnd].
    unfold replace_as_child. wp_go. rewrite bool_decide_eq_true_2 by done.
    wp_go. apply HQ.
    + split_and!.
      * apply lookup_insert_eq.
      * eapply Repr_frame; [done|]. intros y ?. apply lookup_insert_ne. set_solver.
      * eapply ReprC_frame; [done|]. intros y ?. apply lookup_insert_ne. set_solver.
    + intros y Hy. apply lookup_insert_ne. congruence.
  - intros (Hp & Hl & Hc). rewrite cids_cons_FR.
    intros Hnd HQ.
    apply NoDup_cons in Hnd as [Hx Hnd]. apply NoDup_cons in Hnd as [Hpn Hnd].
    unfold replace_as_child. wp_go. rewrite bool_decide_eq_false_2.
    2:{ intros Hr. apply root_in_ids in Hr. set_solver. }
    wp_go. apply HQ.
    + split_and!.
      * apply lookup_insert_eq.
      * eapply Repr_frame; [done|]. intros y ?. apply lookup_insert_ne. set_solver.
      * eapply ReprC_frame; [done|]. intros y ?. apply lookup_insert_ne. set_solver.
    + intros y Hy. apply lookup_insert_ne. congruence.
Qed.

Lemma linked_plug sz rt m c t :
  linked (AvlTree sz rt m) (plug c t) <->
  rt = croot c (root_of t) /\ ReprC m c (root_of t) /\ Repr m (cparent c) t
  /\ NoDup (ids t ++ cids c).
Proof.
  split.
  - intros [Hr HR Hnd]. simpl in *. rewrite root_of_plug in Hr.
    apply Repr_plug in HR as [??]. rewrite ids_plug_perm in Hnd. done.
  - intros (-> & ? & ? & Hnd). split; simpl.
    + by rewrite root_of_plug.
    + by apply Repr_plug.
    + by rewrite ids_plug_perm.
Qed.

Lemma count_fuel s t : linked s t -> (count t < fuel_of s)%nat.
Proof.
  intros [_ HR Hnd]. unfold fuel_of, count.
  assert (Hsub : list_to_set (C := gset positive) (ids t) ⊆ dom (nodes s)).
  { intros q Hq. apply elem_of_list_to_set in Hq.
    apply elem_of_dom. by eapply Repr_lookup. }
  apply subseteq_size in Hsub.
  rewrite size_list_to_set, size_dom in Hsub by done.
  unfold ids in Hsub. rewrite length_fmap in Hsub. lia.
Qed.

Lemma depth_count t : (depth t <= count t)%nat.
Proof.
  unfold count. induction t as [|l IHl p h v r IHr]; simpl; [lia|].
  rewrite length_app. simpl. lia.
Qed.

Lemma count_plug c t : (count (plug c t) = count t + length (before c) + length (after c))%nat.
Proof. unfold count. rewrite elems_plug, !length_app. lia. Qed.

Lemma length_ctx c : (length c <= length (before c) + length (after c))%nat.
Proof.
  induction c as [|[p h v r|l p h v] c IH]; simpl; [lia|..];
    rewrite ?length_app; simpl; lia.
Qed.

End Exec2.

Ltac reprc := eapply ReprC_frame; [eassumption|frm].
Ltac reprs := eapply Repr_frame; [eassumption|frm].
Ltac same_ids H :=
  let E := fresh in
  lazymatch type of H with
  | NoDup_keep (ids ?t ++ ?r) =>
      lazymatch goal with
      | |- NoDup (ids ?t' ++ r) =>
          assert (E : ids t' = ids t)
            by (unfold ids; simpl; rewrite <- ?app_assoc; simpl; rewrite <- ?app_assoc; reflexivity);
          rewrite E; exact H
      end
  end.

(** * Rotations *)

Section Rot.
Context {T : Type}.
Implicit Types (m : gmap positive (avl_node T)) (t l r : @tree T).
Implicit Types (c : list (@frame T)).

Lemma rotate_left_spec sz rt m c l x hx vx rl y hy vy rr Q :
  linked (AvlTree sz rt m) (plug c (Node l x hx vx (Node rl y hy vy rr))) ->
  (forall s', linked s' (plug c (Node (Node l x hx vx rl) y hy vy rr)) ->
     mSize s' = sz -> Q y s') ->
  wp (rotate_left x) (AvlTree sz rt m) Q.
Proof.
  intros (-> & HC & (Hx & Hl & Hy & Hrl & Hrr) & Hnd)%linked_plug HQ.
  simpl in *.
  assert (Hnd' : NoDup_keep _) by exact Hnd. rewrite ids_node in Hnd. nd.
  unfold rotate_left. wp_go.
  destruct rl as [|a q hq vq b]; simpl in *.
  - wp_go. 
    wp_bind_syn; eapply replace_as_child_ctx; [reprc| apply NoDup_cons; split; [dis|done] |].
    intros m' HC' Hfr. wp_go.
    apply HQ; [|done]. apply linked_plug. split_and!; [done|reprc| |by same_ids Hnd'].
    simpl. split_and!; first [done | lkp | reprs ].
  - destruct Hrl as (Hq & Ha & Hb). nd.
    wp_go. 
    wp_bind_syn; eapply replace_as_child_ctx; [reprc| apply NoDup_cons; split; [dis|done] |].
    intros m' HC' Hfr. wp_go.
    apply HQ; [|done]. apply linked_plug. split_and!; [done|reprc| |by same_ids Hnd'].
    simpl. split_and!; first [done | lkp | reprs ].
Qed.

Lemma rotate_right_spec sz rt m c ll y hy vy lr x hx vx r Q :
  linked (AvlTree sz rt m) (plug c (Node (Node ll y hy vy lr) x hx vx r)) ->
  (forall s', linked s' (plug c (Node ll y hy vy (Node lr x hx vx r))) ->
     mSize s' = sz -> Q y s') ->
  wp (rotate_right x) (AvlTree sz rt m) Q.
Proof.
  intros (-> & HC & (Hx & (Hy & Hll & Hlr) & Hr) & Hnd)%linked_plug HQ.
  simpl in *.
  assert (Hnd' : NoDup_keep _) by exact Hnd. rewrite ids_node in Hnd. nd.
  unfold rotate_right. wp_go.
  destruct lr as [|a q hq vq b]; simpl in *.
  - wp_go. 
    wp_bind_syn; eapply replace_as_child_ctx; [reprc| apply NoDup_cons; split; [dis|done] |].
    intros m' HC' Hfr. wp_go.
    apply HQ; [|done]. apply linked_plug. split_and!; [done|reprc| |by same_ids Hnd'].
    simpl. split_and!; first [done | lkp | reprs ].
  - destruct Hlr as (Hq & Ha & Hb). nd.
    wp_go. 
    wp_bind_syn; eapply replace_as_child_ctx; [reprc| apply NoDup_cons; split; [dis|done] |].
    intros m' HC' Hfr. wp_go.
    apply HQ; [|done]. apply linked_plug. split_and!; [done|reprc| |by same_ids Hnd'].
    simpl. split_and!; first [done | lkp | reprs ].
Qed.

End Rot.

(** Refocus a [linked] hypothesis on the parent or on a child. *)
Ltac focus_up H :=
  match type of H with
  | linked _ (plug (?f :: ?c) ?t) =>
      change (plug (f :: c) t) with (plug c (fill f t)) in H; simpl fill in H
  end.
Ltac focus_left H :=
  match type of H with
  | linked _ (plug ?c (Node ?l ?p ?h ?v ?r)) =>
      change (plug c (Node l p h v r)) with (plug (FL p h v r :: c) l) in H
  end.
Ltac focus_right H :=
  match type of H with
  | linked _ (plug ?c (Node ?l ?p ?h ?v ?r)) =>
      change (plug c (Node l p h v r)) with (plug (FR l p h v :: c) r) in H
  end.

Ltac next_state H :=
  let sz' := fresh "sz" in
  let rt' := fresh "rt" in
  let m' := fresh "m" in
  let Hsz := fresh "Hsz" in
  clear H; intros [sz' rt' m'] H Hsz; simpl in Hsz; subst sz'.

Tactic Notation "wp_call" uconstr(lem) "in" ident(H) :=
  wp_bind_syn; eapply lem; [exact H|]; next_state H.

(** * fix_left and fix_right *)

Section Fix.
Context {T : Type}.
Implicit Types (m : gmap positive (avl_node T)) (t l r : @tree T).
Implicit Types (c : list (@frame T)).

Lemma update_height_spec sz rt m c l x h v r Q :
  linked (AvlTree sz rt m) (plug c (Node l x h v r)) ->
  (forall s', linked s' (plug c (node l x v r)) -> mSize s' = sz -> Q tt s') ->
  wp (update_height x) (AvlTree sz rt m) Q.
Proof.
  intros (-> & HC & (Hx & Hl & Hr) & Hnd)%linked_plug HQ.
  assert (Hnd' : NoDup_keep _) by exact Hnd. rewrite ids_node in Hnd. nd.
  unfold update_height. wp_go.
  apply HQ; [|done]. apply linked_plug. split_and!; [done|reprc| |by same_ids Hnd'].
  simpl. split_and!; first [done | lkp | reprs ].
Qed.

Lemma linked_root_lookup sz rt m c l x h v r :
  linked (AvlTree sz rt m) (plug c (Node l x h v r)) ->
  m !! x = Some (AvlNode (cparent c) (root_of l) (root_of r) h v).
Proof. by intros (_ & _ & (Hx & _) & _)%linked_plug. Qed.

Lemma fix_left_spec sz rt m c l x hx vx rl y hy vy rr Q :
  let t := Node l x hx vx (Node rl y hy vy rr) in
  linked (AvlTree sz rt m) (plug c t) ->
  0 <= ht rr ->
  (forall p s', linked s' (plug c (fix_left_tree t)) ->
     root_of (fix_left_tree t) = Some p -> mSize s' = sz -> Q p s') ->
  wp (fix_left x) (AvlTree sz rt m) Q.
Proof.
  intros t Hlk Hrr HQ. subst t. simpl in HQ.
  unfold fix_left.
  pose proof (linked_root_lookup _ _ _ _ _ _ _ _ _ Hlk) as Hx.
  focus_right Hlk.
  pose proof (linked_root_lookup _ _ _ _ _ _ _ _ _ Hlk) as Hy.
  assert (Hlk' := Hlk).
  apply linked_plug in Hlk' as (_ & _ & (_ & Hrl & Hrr') & _).
  wp_go.
  destruct (Z.ltb_spec (ht rr) (ht rl)) as [Hlt|Hge].
  - destruct rl as [|a q hq vq b]; simpl in *; [lia|].
    clear Hx Hy Hrl Hrr'.
    wp_go.
    wp_call rotate_right_spec in Hlk.
    pose proof (linked_root_lookup _ _ _ _ _ _ _ _ _ Hlk) as Hq.
    wp_go. focus_right Hlk.
    wp_call update_height_spec in Hlk. focus_up Hlk.
    wp_call update_height_spec in Hlk. focus_up Hlk. clear Hq.
    wp_go.
    wp_call rotate_left_spec in Hlk.
    pose proof (linked_root_lookup _ _ _ _ _ _ _ _ _ Hlk) as Hq.
    wp_go. focus_left Hlk.
    wp_call update_height_spec in Hlk. focus_up Hlk.
    wp_call update_height_spec in Hlk.
    wp_go. by apply HQ.
  - clear Hx Hy Hrl Hrr'. focus_up Hlk.
    wp_go.
    wp_call rotate_left_spec in Hlk.
    pose proof (linked_root_lookup _ _ _ _ _ _ _ _ _ Hlk) as Hq.
    wp_go. focus_left Hlk.
    wp_call update_height_spec in Hlk. focus_up Hlk.
    wp_call update_height_spec in Hlk.
    wp_go. by apply HQ.
Qed.

Lemma fix_right_spec sz rt m c ll y hy vy lr x hx vx r Q :
  let t := Node (Node ll y hy vy lr) x hx vx r in
  linked (AvlTree sz rt m) (plug c t) ->
  0 <= ht ll ->
  (forall p s', linked s' (plug c (fix_right_tree t)) ->
     root_of (fix_right_tree t) = Some p -> mSize s' = sz -> Q p s') ->
  wp (fix_right x) (AvlTree sz rt m) Q.
Proof.
  intros t Hlk Hll HQ. subst t. simpl in HQ.
  unfold fix_right.
  pose proof (linked_root_lookup _ _ _ _ _ _ _ _ _ Hlk) as Hx.
  focus_left Hlk.
  pose proof (linked_root_lookup _ _ _ _ _ _ _ _ _ Hlk) as Hy.
  assert (Hlk' := Hlk).
  apply linked_plug in Hlk' as (_ & _ & (_ & Hll' & Hlr) & _).
  wp_go.
  destruct (Z.ltb_spec (ht ll) (ht lr)) as [Hlt|Hge].
  - destruct lr as [|a q hq vq b]; simpl in *; [lia|].
    clear Hx Hy Hll' Hlr.
    wp_go.
    wp_call rotate_left_spec in Hlk.
    pose proof (linked_root_lookup _ _ _ _ _ _ _ _ _ Hlk) as Hq.
    wp_go. focus_left Hlk.
    wp_call update_height_spec in Hlk. focus_up Hlk.
    wp_call update_height_spec in Hlk. focus_up Hlk. clear Hq.
    wp_go.
    wp_call rotate_right_spec in Hlk.
    pose proof (linked_root_lookup _ _ _ _ _ _ _ _ _ Hlk) as Hq.
    wp_go. focus_right Hlk.
    wp_call update_height_spec in Hlk. focus_up Hlk.
    wp_call update_height_spec in Hlk.
    wp_go. by apply HQ.
  - clear Hx Hy Hll' Hlr. focus_up Hlk.
    wp_go.
    wp_call rotate_right_spec in Hlk.
    pose proof (linked_root_lookup _ _ _ _ _ _ _ _ _ Hlk) as Hq.
    wp_go. focus_right Hlk.
    wp_call update_height_spec in Hlk. focus_up Hlk.
    wp_call update_height_spec in Hlk.
    wp_go. by apply HQ.
Qed.

End Fix.

(** * The rebalance walk on trees *)

Section Rebalance.
Context {T : Type}.
Implicit Types (m : gmap positive (avl_node T)) (t l r : @tree T).
Implicit Types (c : list (@frame T)).

(** *** Stored heights against real ones *)

Lemma hok_depth t : hok t -> ht t = Z.of_nat (depth t).
Proof.
  induction t as [|l IHl p h v r IHr]; simpl; [done|].
  intros (Hl & Hr & ->). rewrite IHl, IHr by done. lia.
Qed.

Lemma hok_bounds t : hok t -> 0 <= ht t <= Z.of_nat (count t).
Proof.
  intros H. rewrite (hok_depth t H). pose proof (depth_count t). lia.
Qed.

Lemma hok_leaf t : hok t -> ht t <= 0 -> t = Leaf.
Proof.
  destruct t as [|l p h v r]; [done|]. simpl. intros (Hl & Hr & ->) Hle.
  apply hok_bounds in Hl, Hr. lia.
Qed.

Lemma count_node l p h v r : count (Node l p h v r) = S (count l + count r).
Proof. unfold count. simpl. rewrite length_app. simpl. lia. Qed.

Lemma to_int32_small z : 0 <= z < 2 ^ 31 -> to_int32 z = z.
Proof. intros Hz. unfold to_int32. rewrite Z.mod_small; lia. Qed.

Lemma size_wrap_small z : 0 <= z < 2 ^ 64 -> size_wrap z = z.
Proof. intros Hz. unfold size_wrap. by rewrite Z.mod_small. Qed.

Lemma hok_node l p v r :
  hok l -> hok r -> Z.of_nat (count l + count r) < 2 ^ 31 -> hok (node l p v r).
Proof.
  intros Hl Hr Hc. unfold node. simpl. split_and!; [done..|].
  apply hok_bounds in Hl, Hr. apply size_wrap_small. lia.
Qed.

Lemma elems_node l p v r : elems (node l p v r) = elems l ++ (p, v) :: elems r.
Proof. done. Qed.

Lemma count_node' l p v r : count (node l p v r) = S (count l + count r).
Proof. apply count_node. Qed.

Lemma fix_left_tree_ok l x h v r :
  hok l -> hok r -> Z.of_nat (count (Node l x h v r)) < 2 ^ 31 ->
  ht l - ht r <= -2 ->
  let t' := fix_left_tree (Node l x h v r) in
  hok t' /\ elems t' = elems (Node l x h v r) /\ is_Some (root_of t').
Proof.
  intros Hl Hr Hc Hd.
  destruct r as [|rl y hy vy rr].
  { simpl in Hd. apply hok_bounds in Hl. lia. }
  destruct Hr as (Hrl & Hrr & Hy). rewrite !count_node in Hc.
  simpl. destruct (Z.ltb_spec (ht rr) (ht rl)) as [Hlt|Hge].
  - destruct rl as [|a q hq vq b].
    { simpl in Hlt. apply hok_bounds in Hrr. lia. }
    destruct Hrl as (Ha & Hb & Hq). rewrite !count_node in Hc.
    split_and!; [|simpl; repeat (rewrite <- app_assoc; simpl); reflexivity|by eexists].
    apply hok_node; [apply hok_node; [done..|lia]|apply hok_node; [done..|lia]|].
    rewrite !count_node'. lia.
  - split_and!; [|simpl; repeat (rewrite <- app_assoc; simpl); reflexivity|by eexists].
    apply hok_node; [apply hok_node; [done..|lia]|done|].
    rewrite !count_node'. lia.
Qed.

Lemma fix_right_tree_ok l x h v r :
  hok l -> hok r -> Z.of_nat (count (Node l x h v r)) < 2 ^ 31 ->
  2 <= ht l - ht r ->
  let t' := fix_right_tree (Node l x h v r) in
  hok t' /\ elems t' = elems (Node l x h v r) /\ is_Some (root_of t').
Proof.
  intros Hl Hr Hc Hd.
  destruct l as [|ll y hy vy lr].
  { simpl in Hd. apply hok_bounds in Hr. lia. }
  destruct Hl as (Hll & Hlr & Hy). rewrite !count_node in Hc.
  simpl. destruct (Z.ltb_spec (ht ll) (ht lr)) as [Hlt|Hge].
  - destruct lr as [|a q hq vq b].
    { simpl in Hlt. apply hok_bounds in Hll. lia. }
    destruct Hlr as (Ha & Hb & Hq). rewrite !count_node in Hc.
    split_and!; [|simpl; repeat (rewrite <- app_assoc; simpl); reflexivity|by eexists].
    apply hok_node; [apply hok_node; [done..|lia]|apply hok_node; [done..|lia]|].
    rewrite !count_node'. lia.
  - split_and!; [|simpl; repeat (rewrite <- app_assoc; simpl); reflexivity|by eexists].
    apply hok_node; [done|apply hok_node; [done..|lia]|].
    rewrite !count_node'. lia.
Qed.

Lemma step_tree_ok l x h v r t' :
  hok l -> hok r -> Z.of_nat (count (Node l x h v r)) < 2 ^ 31 ->
  step_tree (Node l x h v r) = Some t' ->
  hok t' /\ elems t' = elems (Node l x h v r) /\ is_Some (root_of t').
Proof.
  intros Hl Hr Hc. unfold step_tree.
  destruct (Z.eqb_spec h (size_wrap (Z.max (ht l) (ht r) + 1))) as [|Hne]; [done|].
  intros [= <-].
  pose proof (hok_bounds l Hl). pose proof (hok_bounds r Hr).
  rewrite count_node in Hc.
  rewrite !to_int32_small by lia.
  destruct (Z.leb_spec (ht l - ht r) (-2)).
  { apply fix_left_tree_ok; [done..|by rewrite count_node|done]. }
  destruct (Z.leb_spec 2 (ht l - ht r)).
  { apply fix_right_tree_ok; [done..|by rewrite count_node|done]. }
  split_and!; [|done|by eexists].
  apply (hok_node l x v r); [done..|lia].
Qed.

Lemma step_tree_none l x h v r :
  hok l -> hok r -> Z.of_nat (count (Node l x h v r)) < 2 ^ 31 ->
  step_tree (Node l x h v r) = None -> hok (Node l x h v r).
Proof.
  intros Hl Hr Hc. unfold step_tree.
  destruct (Z.eqb_spec h (size_wrap (Z.max (ht l) (ht r) + 1))) as [->|Hne]; [|done].
  intros _. by apply hok_node; [..|rewrite count_node in Hc; lia].
Qed.

Lemma hok_plug c t : hok (plug c t) <-> hok t /\ hokC c (ht t).
Proof.
  revert t. induction c as [|[p h v r|l p h v] c IH]; intros t.
  - simpl. unfold plug. simpl. tauto.
  - rewrite plug_cons, IH. simpl. tauto.
  - rewrite plug_cons, IH. simpl. tauto.
Qed.

Lemma elems_plug_congr c t t' :
  elems t' = elems t -> elems (plug c t') = elems (plug c t).
Proof. intros E. by rewrite !elems_plug, E. Qed.

Lemma count_plug_congr c t t' :
  elems t' = elems t -> count (plug c t') = count (plug c t).
Proof. intros E. unfold count. by rewrite (elems_plug_congr _ _ _ E). Qed.

Lemma count_plug_le c t : (count t <= count (plug c t))%nat.
Proof. rewrite count_plug. lia. Qed.

(** The walk restores the stored heights and keeps the in-order sequence. *)
Lemma rebalance_tree_ok c l x h v r :
  hok l -> hok r -> hokC c h ->
  Z.of_nat (count (plug c (Node l x h v r))) < 2 ^ 31 ->
  let t' := rebalance_tree c (Node l x h v r) in
  hok t' /\ elems t' = elems (plug c (Node l x h v r)).
Proof.
  revert l x h v r. induction c as [|f c IH]; intros l x h v r Hl Hr HC Hc.
  - change (plug [] (Node l x h v r)) with (Node l x h v r) in *.
    cbn [rebalance_tree].
    destruct (step_tree (Node l x h v r)) as [t'|] eqn:Hs.
    + by apply step_tree_ok in Hs as (? & ? & _).
    + split; [|done]. by apply step_tree_none in Hs.
  - cbn [rebalance_tree].
    pose proof (count_plug_le (f :: c) (Node l x h v r)) as Hle.
    destruct (step_tree (Node l x h v r)) as [t'|] eqn:Hs.
    + apply step_tree_ok in Hs as (Ht' & He & _); [|done..|lia].
      assert (He' : elems (fill f t') = elems (fill f (Node l x h v r)))
        by (destruct f; simpl; by rewrite He).
      rewrite plug_cons in Hc |- *.
      rewrite <- (count_plug_congr _ _ _ He') in Hc.
      rewrite <- (elems_plug_congr _ _ _ He').
      destruct f as [p hp vp sib|sib p hp vp]; simpl in *;
        destruct HC as (Hsib & -> & HC); by apply IH.
    + split; [|done]. apply step_tree_none in Hs; [|done..|lia].
      apply hok_plug. done.
Qed.

End Rebalance.

(** * rebalance on the storage *)

Section RebalanceSim.
Context {T : Type}.
Implicit Types (m : gmap positive (avl_node T)) (t l r : @tree T).
Implicit Types (c : list (@frame T)).

Lemma set_mHeight_spec sz rt m c l x h v r h' Q :
  linked (AvlTree sz rt m) (plug c (Node l x h v r)) ->
  (forall s', linked s' (plug c (Node l x h' v r)) -> mSize s' = sz -> Q tt s') ->
  wp (set_mHeight x h') (AvlTree sz rt m) Q.
Proof.
  intros (-> & HC & (Hx & Hl & Hr) & Hnd)%linked_plug HQ.
  assert (Hnd' : NoDup_keep _) by exact Hnd. rewrite ids_node in Hnd. nd.
  wp_go.
  apply HQ; [|done]. apply linked_plug. split_and!; [done|reprc| |by same_ids Hnd'].
  simpl. split_and!; first [done | lkp | reprs ].
Qed.

Lemma rebalance_step_spec sz rt m c l x h v r Q :
  let t := Node l x h v r in
  let s := AvlTree sz rt m in
  linked s (plug c t) ->
  hok l -> hok r -> Z.of_nat (count t) < 2 ^ 31 ->
  (forall res s', mSize s' = sz ->
     match step_tree t with
     | None => res = None /\ s' = s
     | Some t' => res = root_of t' /\ linked s' (plug c t')
     end -> Q res s') ->
  wp (rebalance_step x) (AvlTree sz rt m) Q.
Proof.
  intros t s Hlk Hl Hr Hc HQ. subst t s.
  pose proof (linked_root_lookup _ _ _ _ _ _ _ _ _ Hlk) as Hx.
  assert (Hlk' := Hlk).
  apply linked_plug in Hlk' as (_ & _ & (_ & Hrl & Hrr) & _).
  pose proof (hok_bounds l Hl). pose proof (hok_bounds r Hr).
  rewrite count_node in Hc.
  unfold rebalance_step. wp_go.
  unfold step_tree in HQ.
  destruct (Z.eqb_spec h (size_wrap (Z.max (ht l) (ht r) + 1))) as [He|Hne].
  { wp_go. by apply HQ. }
  rewrite !to_int32_small in HQ |- * by lia.
  wp_call set_mHeight_spec in Hlk. clear Hx Hrl Hrr.
  destruct (Z.leb_spec (ht l - ht r) (-2)).
  { destruct r as [|rl y hy vy rr].
    { simpl in *. lia. }
    destruct Hr as (_ & Hrr & _). apply hok_bounds in Hrr.
    wp_bind_syn. eapply fix_left_spec; [exact Hlk|lia|].
    intros p s' Hlk' Hp Hsz. wp_go. apply HQ; [done|]. by split. }
  destruct (Z.leb_spec 2 (ht l - ht r)).
  { destruct l as [|ll y hy vy lr].
    { simpl in *. lia. }
    destruct Hl as (Hll & _ & _). apply hok_bounds in Hll.
    wp_bind_syn. eapply fix_right_spec; [exact Hlk|lia|].
    intros p s' Hlk' Hp Hsz. wp_go. apply HQ; [done|]. by split. }
  wp_go. by apply HQ.
Qed.

Lemma rebalance_loop_none fuel :
  rebalance_loop (T := T) fuel None = ret tt.
Proof. by destruct fuel. Qed.

Lemma rebalance_loop_spec fuel sz rt m c l x h v r Q :
  let t := Node l x h v r in
  linked (AvlTree sz rt m) (plug c t) ->
  hok l -> hok r -> hokC c h ->
  Z.of_nat (count (plug c t)) < 2 ^ 31 ->
  (length c < fuel)%nat ->
  (forall s', linked s' (rebalance_tree c t) -> mSize s' = sz -> Q tt s') ->
  wp (rebalance_loop fuel (Some x)) (AvlTree sz rt m) Q.
Proof.
  intros t. subst t.
  revert fuel sz rt m l x h v r Q.
  induction c as [|f c IH]; intros fuel sz rt m l x h v r Q Hlk Hl Hr HC Hc Hf HQ.
  - destruct fuel as [|fuel]; [simpl in Hf; lia|].
    cbn [rebalance_loop]. wp_bind_syn.
    eapply rebalance_step_spec; [exact Hlk|done..|].
    intros res [sz' rt' m'] Hsz Hres. simpl in Hsz. subst sz'.
    cbn [rebalance_tree] in HQ.
    destruct (step_tree (Node l x h v r)) as [t'|] eqn:Hs.
    + destruct Hres as [-> Hlk'].
      apply step_tree_ok in Hs as (_ & _ & [p Hp]); [|done..].
      destruct t' as [|l' p' h' v' r']; [done|]. simplify_eq/=.
      pose proof (linked_root_lookup _ _ _ _ _ _ _ _ _ Hlk') as Hp'.
      wp_go. simpl. rewrite rebalance_loop_none. wp_go. by apply HQ.
    + destruct Hres as [-> ->]. wp_go. by apply HQ.
  - destruct fuel as [|fuel]; [simpl in Hf; lia|].
    pose proof (count_plug_le (f :: c) (Node l x h v r)) as Hle.
    cbn [rebalance_loop]. wp_bind_syn.
    eapply rebalance_step_spec; [exact Hlk|done..|lia|].
    intros res [sz' rt' m'] Hsz Hres. simpl in Hsz. subst sz'.
    cbn [rebalance_tree] in HQ.
    destruct (step_tree (Node l x h v r)) as [t'|] eqn:Hs.
    + destruct Hres as [-> Hlk'].
      apply step_tree_ok in Hs as (Ht' & He & [p Hp]); [|done..|lia].
      destruct t' as [|l' p' h' v' r']; [done|]. simplify_eq/=.
      pose proof (linked_root_lookup _ _ _ _ _ _ _ _ _ Hlk') as Hp'.
      wp_go.
      assert (He' : elems (fill f (Node l' p h' v' r')) = elems (fill f (Node l x h v r)))
        by (destruct f; simpl; by rewrite He).
      rewrite plug_cons in Hc, Hlk'.
      rewrite <- (count_plug_congr _ _ _ He') in Hc.
      destruct f as [q hq vq sib|sib q hq vq]; simpl in *;
        destruct HC as (Hsib & -> & HC);
        (eapply IH; [exact Hlk'|done..|lia|done]).
    + destruct Hres as [-> ->]. wp_go. by apply HQ.
Qed.

End RebalanceSim.

(** * Linking a fresh node *)

Section Link.
Context {T : Type}.
Implicit Types (m : gmap positive (avl_node T)) (t l r : @tree T).
Implicit Types (c : list (@frame T)).

Lemma rebalance_spec sz rt m c l x h v r Q :
  let t := Node l x h v r in
  linked (AvlTree sz rt m) (plug c t) ->
  hok l -> hok r -> hokC c h ->
  Z.of_nat (count (plug c t)) < 2 ^ 31 ->
  (forall s', linked s' (rebalance_tree c t) -> mSize s' = sz -> Q tt s') ->
  wp (rebalance x) (AvlTree sz rt m) Q.
Proof.
  intros t Hlk Hl Hr HC Hc HQ. unfold rebalance. apply wp_with_fuel.
  eapply rebalance_loop_spec; [exact Hlk|done..| |done].
  apply count_fuel in Hlk. rewrite count_plug in Hlk.
  pose proof (length_ctx c). lia.
Qed.

Lemma linked_size sz sz' rt m t :
  linked (AvlTree sz rt m) t -> linked (AvlTree sz' rt m) t.
Proof. by intros [? ? ?]. Qed.

Lemma link_left_spec sz rt m c x h v r n cell Q :
  linked (AvlTree sz rt m) (plug (FL x h v r :: c) Leaf) ->
  m !! n = Some cell -> n ∉ ids (plug (FL x h v r :: c) Leaf) ->
  hok r -> hokC c h ->
  Z.of_nat (count (plug (FL x h v r :: c) Leaf)) + 1 < 2 ^ 31 ->
  (forall s', linked s' (insert_at (FL x h v r :: c) n (elem cell)) ->
     mSize s' = size_wrap (sz + 1) -> Q tt s') ->
  wp (link_left x n) (AvlTree sz rt m) Q.
Proof.
  intros Hlk Hn Hfresh Hr HC Hc HQ.
  rewrite plug_cons in Hlk, Hfresh, Hc. simpl fill in *.
  assert (Hlk' := Hlk).
  apply linked_plug in Hlk' as (-> & HCx & (Hx & _ & Hr') & Hnd).
  rewrite ids_plug_perm, ids_node, ids_leaf in Hfresh. simpl in Hfresh.
  rewrite ids_node, ids_leaf in Hnd. simpl in Hnd.
  nd.
  assert (n ≠ x) by dis. assert (n ∉ ids r) by dis. assert (n ∉ cids c) by dis.
  unfold link_left, fix_insert. wp_go.
  eapply rebalance_spec with (c := c) (l := leaf n (elem cell)) (h := h) (v := v) (r := r);
    [|done..| |].
  - apply linked_plug. split_and!; [done|reprc| |].
    + simpl. split_and!; first [done | lkp | reprs].
    + unfold leaf. nodup.
  - rewrite count_plug, count_node in Hc. rewrite count_plug, count_node.
    unfold leaf. rewrite count_node. unfold count in *. simpl in *. lia.
  - intros [sz' rt' m'] Hlk' Hsz. simpl in Hsz. subst sz'.
    unfold incr_size. wp_go. apply HQ; [|done]. by eapply linked_size.
Qed.

Lemma link_right_spec sz rt m c x h v l n cell Q :
  linked (AvlTree sz rt m) (plug (FR l x h v :: c) Leaf) ->
  m !! n = Some cell -> n ∉ ids (plug (FR l x h v :: c) Leaf) ->
  hok l -> hokC c h ->
  Z.of_nat (count (plug (FR l x h v :: c) Leaf)) + 1 < 2 ^ 31 ->
  (forall s', linked s' (insert_at (FR l x h v :: c) n (elem cell)) ->
     mSize s' = size_wrap (sz + 1) -> Q tt s') ->
  wp (link_right x n) (AvlTree sz rt m) Q.
Proof.
  intros Hlk Hn Hfresh Hl HC Hc HQ.
  rewrite plug_cons in Hlk, Hfresh, Hc. simpl fill in *.
  assert (Hlk' := Hlk).
  apply linked_plug in Hlk' as (-> & HCx & (Hx & Hl' & _) & Hnd).
  rewrite ids_plug_perm, ids_node, ids_leaf in Hfresh.
  rewrite ids_node, ids_leaf in Hnd.
  nd.
  assert (n ≠ x) by dis. assert (n ∉ ids l) by dis. assert (n ∉ cids c) by dis.
  unfold link_right, fix_insert. wp_go.
  eapply rebalance_spec with (c := c) (r := leaf n (elem cell)) (h := h) (v := v) (l := l);
    [|done..| |].
  - apply linked_plug. split_and!; [done|reprc| |].
    + simpl. split_and!; first [done | lkp | reprs].
    + unfold leaf. nodup.
  - rewrite count_plug, count_node in Hc. rewrite count_plug, count_node.
    unfold leaf. rewrite count_node. unfold count in *. simpl in *. lia.
  - intros [sz' rt' m'] Hlk' Hsz. simpl in Hsz. subst sz'.
    unfold incr_size. wp_go. apply HQ; [|done]. by eapply linked_size.
Qed.

End Link.

(** * The descents of insert_unique and insert_multi *)

Section Insert.
Context {T : Type}.
Variable value_comp : T -> T -> bool.
Implicit Types (m : gmap positive (avl_node T)) (t l r : @tree T).
Implicit Types (c : list (@frame T)).

Lemma count_fill_leaf c f n (v : T) :
  count (plug c (fill f (leaf n v))) = S (count (plug c (fill f Leaf))).
Proof.
  rewrite !count_plug. destruct f; cbn [fill]; unfold leaf;
    rewrite !count_node; unfold count; simpl; lia.
Qed.

Lemma insert_at_ok c n v :
  hok (plug c Leaf) -> Z.of_nat (count (plug c Leaf)) + 1 < 2 ^ 31 ->
  hok (insert_at c n v)
  /\ elems (insert_at c n v) = before c ++ (n, v) :: after c.
Proof.
  destruct c as [|f c]; intros Hok Hc.
  - by cbn.
  - rewrite plug_cons in Hok, Hc. apply hok_plug in Hok as [Hf HC].
    assert (Hc' : Z.of_nat (count (plug c (fill f (leaf n v)))) < 2 ^ 31)
      by (rewrite count_fill_leaf; lia).
    destruct f as [p h w r|l p h w]; cbn [insert_at fill] in *.
    + destruct Hf as (_ & Hr & Hh).
      destruct (rebalance_tree_ok c (leaf n v) p h w r) as [? He]; [done..|].
      split; [done|]. rewrite He, elems_plug. cbn. by rewrite app_nil_r.
    + destruct Hf as (Hl & _ & Hh).
      destruct (rebalance_tree_ok c l p h w (leaf n v)) as [? He]; [done..|].
      split; [done|]. rewrite He, elems_plug. cbn.
      by rewrite <- !app_assoc.
Qed.

Lemma linked_child_lookup sz rt m c t p :
  linked (AvlTree sz rt m) (plug c t) -> root_of t = Some p ->
  exists l h v r, t = Node l p h v r
    /\ m !! p = Some (AvlNode (cparent c) (root_of l) (root_of r) h v).
Proof.
  destruct t as [|l q h v r]; [done|]. intros Hlk [= ->].
  exists l, h, v, r. split; [done|]. by eapply linked_root_lookup.
Qed.

Lemma insert_unique_loop_spec t : forall fuel sz rt m c p n cell Q,
  root_of t = Some p ->
  linked (AvlTree sz rt m) (plug c t) ->
  m !! n = Some cell -> n ∉ ids (plug c t) ->
  hok (plug c t) ->
  Z.of_nat (count (plug c t)) + 1 < 2 ^ 31 ->
  (depth t <= fuel)%nat ->
  (forall b s',
     match slot_unique value_comp (elem cell) t c with
     | None => b = false /\ s' = AvlTree sz rt m
     | Some c' =>
         b = true /\ linked s' (insert_at c' n (elem cell))
         /\ mSize s' = size_wrap (sz + 1)
     end -> Q b s') ->
  wp (insert_unique_loop value_comp fuel n p) (AvlTree sz rt m) Q.
Proof.
  induction t as [|l IHl q h v r IHr]; [done|].
  intros fuel sz rt m c p n cell Q [= <-] Hlk Hn Hfresh Hok Hc Hf HQ.
  destruct fuel as [|fuel]; [simpl in Hf; lia|]. simpl in Hf.
  pose proof (linked_root_lookup _ _ _ _ _ _ _ _ _ Hlk) as Hq.
  cbn [insert_unique_loop slot_unique] in *. wp_go.
  destruct (value_comp (elem cell) v).
  { wp_go. destruct l as [|ll y hy vy lr].
    - cbn [root_of]. wp_bind_syn.
      eapply (link_left_spec _ _ _ c q h v r n cell); [exact Hlk|done..| | |done|].
      + apply hok_plug in Hok as [(_ & ? & _) _]. done.
      + apply hok_plug in Hok as [_ ?]. done.
      + intros s' Hlk' Hsz. wp_go. apply HQ. done.
    - cbn [root_of]. focus_left Hlk.
      eapply (IHl fuel _ _ _ (FL q h v r :: c)); [done|exact Hlk|done..|lia|done]. }
  destruct (value_comp v (elem cell)).
  { wp_go. destruct r as [|rl y hy vy rr].
    - cbn [root_of]. wp_bind_syn.
      eapply (link_right_spec _ _ _ c q h v l n cell); [exact Hlk|done..| | |done|].
      + apply hok_plug in Hok as [(? & _ & _) _]. done.
      + apply hok_plug in Hok as [_ ?]. done.
      + intros s' Hlk' Hsz. wp_go. apply HQ. done.
    - cbn [root_of]. focus_right Hlk.
      eapply (IHr fuel _ _ _ (FR l q h v :: c)); [done|exact Hlk|done..|lia|done]. }
  wp_go. by apply HQ.
Qed.

Lemma insert_multi_loop_spec t : forall fuel sz rt m c p n cell Q,
  root_of t = Some p ->
  linked (AvlTree sz rt m) (plug c t) ->
  m !! n = Some cell -> n ∉ ids (plug c t) ->
  hok (plug c t) ->
  Z.of_nat (count (plug c t)) + 1 < 2 ^ 31 ->
  (depth t <= fuel)%nat ->
  (forall s',
     linked s' (insert_at (slot_multi value_comp (elem cell) t c) n (elem cell)) ->
     mSize s' = size_wrap (sz + 1) -> Q tt s') ->
  wp (insert_multi_loop value_comp fuel n p) (AvlTree sz rt m) Q.
Proof.
  induction t as [|l IHl q h v r IHr]; [done|].
  intros fuel sz rt m c p n cell Q [= <-] Hlk Hn Hfresh Hok Hc Hf HQ.
  destruct fuel as [|fuel]; [simpl in Hf; lia|]. simpl in Hf.
  pose proof (linked_root_lookup _ _ _ _ _ _ _ _ _ Hlk) as Hq.
  assert (Hgo_l : forall Q', l ≠ Leaf ->
    (forall s', linked s' (insert_at (slot_multi value_comp (elem cell) l (FL q h v r :: c)) n (elem cell)) ->
       mSize s' = size_wrap (sz + 1) -> Q' tt s') ->
    forall y, root_of l = Some y ->
    wp (insert_multi_loop value_comp fuel n y) (AvlTree sz rt m) Q').
  { intros Q' Hl HQ' y Hy. focus_left Hlk.
    eapply (IHl fuel _ _ _ (FL q h v r :: c)); [done|exact Hlk|done..|lia|done]. }
  assert (Hgo_r : forall Q', r ≠ Leaf ->
    (forall s', linked s' (insert_at (slot_multi value_comp (elem cell) r (FR l q h v :: c)) n (elem cell)) ->
       mSize s' = size_wrap (sz + 1) -> Q' tt s') ->
    forall y, root_of r = Some y ->
    wp (insert_multi_loop value_comp fuel n y) (AvlTree sz rt m) Q').
  { intros Q' Hl HQ' y Hy. focus_right Hlk.
    eapply (IHr fuel _ _ _ (FR l q h v :: c)); [done|exact Hlk|done..|lia|done]. }
  assert (Hlink_l : forall Q', l = Leaf ->
    (forall s', linked s' (insert_at (FL q h v r :: c) n (elem cell)) ->
       mSize s' = size_wrap (sz + 1) -> Q' tt s') ->
    wp (link_left q n) (AvlTree sz rt m) Q').
  { intros Q' -> HQ'.
    eapply (link_left_spec _ _ _ c q h v r n cell); [exact Hlk|done..| | |done|done].
    + apply hok_plug in Hok as [(_ & ? & _) _]. done.
    + apply hok_plug in Hok as [_ ?]. done. }
  assert (Hlink_r : forall Q', r = Leaf ->
    (forall s', linked s' (insert_at (FR l q h v :: c) n (elem cell)) ->
       mSize s' = size_wrap (sz + 1) -> Q' tt s') ->
    wp (link_right q n) (AvlTree sz rt m) Q').
  { intros Q' -> HQ'.
    eapply (link_right_spec _ _ _ c q h v l n cell); [exact Hlk|done..| | |done|done].
    + apply hok_plug in Hok as [(? & _ & _) _]. done.
    + apply hok_plug in Hok as [_ ?]. done. }
  assert (Hlk' := Hlk).
  apply linked_plug in Hlk' as (_ & _ & (_ & Hl & Hr) & _).
  cbn [insert_multi_loop slot_multi] in *. wp_go.
  destruct (value_comp (elem cell) v).
  { wp_go. destruct l as [|ll y hy vy lr].
    - by apply Hlink_l.
    - by eapply Hgo_l. }
  destruct (value_comp v (elem cell)).
  { wp_go. destruct r as [|rl y hy vy rr].
    - by apply Hlink_r.
    - by eapply Hgo_r. }
  wp_go. destruct l as [|ll y hy vy lr].
  { by apply Hlink_l. }
  cbn [root_of]. wp_go.
  destruct r as [|rl z hz vz rr].
  { by apply Hlink_r. }
  cbn [root_of]. destruct Hl as (Hy & _). destruct Hr as (Hz & _).
  wp_go. cbn [ht] in HQ.
  destruct (hy <? hz).
  - by eapply Hgo_l.
  - by eapply Hgo_r.
Qed.

End Insert.

(** * Order and find *)

Section Order.
Context {T : Type}.
Variable value_comp : T -> T -> bool.
Implicit Types (m : gmap positive (avl_node T)) (t l r : @tree T).
Implicit Types (c : list (@frame T)).
Implicit Types (e : list (positive * T)).

Lemma elem_of_vals t x : x ∈ vals t <-> exists p, (p, x) ∈ elems t.
Proof.
  unfold vals. rewrite list_elem_of_fmap. split.
  - intros ([p y] & -> & ?). by exists p.
  - intros [p ?]. by exists (p, x).
Qed.

Lemma bst_ordered t :
  (forall a b d, value_comp a b = true -> value_comp b d = true -> value_comp a d = true) ->
  bst value_comp t <-> ordered value_comp (elems t).
Proof.
  intros Htr. unfold ordered.
  induction t as [|l IHl p h v r IHr]; simpl.
  - split; [intros _; constructor|done].
  - rewrite StronglySorted_app, StronglySorted_cons, Forall_forall, IHl, IHr.
    setoid_rewrite elem_of_vals. setoid_rewrite elem_of_cons.
    split.
    + intros (Hl & Hr & Hlv & Hvr). split_and!; [|done| |done].
      * intros [p1 x1] [p2 x2] H1 [[= -> ->]|H2]; simpl; [eauto|].
        eapply Htr; [eapply Hlv|eapply Hvr]; eauto.
      * intros [p2 x2] H2. simpl. eauto.
    + intros (Hlr & Hl & Hvr & Hr). split_and!; [done..| |].
      * intros x [q Hx]. apply (Hlr (q, x) (p, v)); auto.
      * intros x [q Hx]. by apply (Hvr (q, x)).
Qed.

(** *** find *)

Lemma find_loop_spec v t : forall fuel par sz rt m Q,
  Repr m par t -> (depth t <= fuel)%nat ->
  Q (find_tree value_comp v t) (AvlTree sz rt m) ->
  wp (find_loop value_comp fuel v (root_of t)) (AvlTree sz rt m) Q.
Proof.
  induction t as [|l IHl p h w r IHr]; intros fuel par sz rt m Q HR Hf HQ.
  - by destruct fuel.
  - destruct fuel as [|fuel]; [simpl in Hf; lia|]. simpl in Hf.
    destruct HR as (Hp & Hl & Hr). cbn [find_loop find_tree root_of] in *.
    wp_go. destruct (value_comp v w).
    { wp_go. eapply IHl; [done|lia|done]. }
    destruct (value_comp w v).
    { wp_go. eapply IHr; [done|lia|done]. }
    by wp_go.
Qed.

Lemma find_spec v sz rt m t Q :
  linked (AvlTree sz rt m) t ->
  Q (find_tree value_comp v t) (AvlTree sz rt m) ->
  wp (find value_comp v) (AvlTree sz rt m) Q.
Proof.
  intros Hlk HQ. unfold find. wp_go.
  pose proof (count_fuel _ _ Hlk). pose proof (depth_count t).
  destruct Hlk as [Hrt HR _]. cbn [mRoot nodes] in *. subst rt.
  eapply find_loop_spec; [done|lia|done].
Qed.

Lemma find_tree_some v t p :
  find_tree value_comp v t = Some p -> exists w, (p, w) ∈ elems t /\ equivalent value_comp v w.
Proof.
  induction t as [|l IHl q h w r IHr]; simpl; [done|].
  destruct (value_comp v w) eqn:E1.
  { intros (u & ? & ?)%IHl. exists u. split; [set_solver|done]. }
  destruct (value_comp w v) eqn:E2.
  { intros (u & ? & ?)%IHr. exists u. split; [set_solver|done]. }
  intros [= ->]. exists w. split; [set_solver|done].
Qed.

Lemma find_tree_none v t :
  find_tree value_comp v t = None -> ordered value_comp (elems t) ->
  strict_weak_order value_comp ->
  forall p w, (p, w) ∈ elems t -> ~ equivalent value_comp v w.
Proof.
  intros Hf Ho [Hirr Htr Heq]. unfold ordered in Ho.
  induction t as [|l IHl q h u r IHr]; simpl in *; [set_solver|].
  apply StronglySorted_app in Ho as (Hlr & Hl & Hr).
  apply StronglySorted_cons in Hr as (Hur & Hr). rewrite Forall_forall in Hur.
  intros p w Hin [E1 E2].
  destruct (value_comp v u) eqn:Evu.
  { apply elem_of_app in Hin as [Hin|Hin]; [by eapply IHl|].
    assert (Huw : value_comp u w = true \/ w = u).
    { apply elem_of_cons in Hin as [[= -> ->]|Hin]; [by right|].
      left. apply (Hur _ Hin). }
    destruct Huw as [Huw| ->]; [|congruence].
    pose proof (Htr _ _ _ Evu Huw). congruence. }
  destruct (value_comp u v) eqn:Euv; [|done].
  apply elem_of_app in Hin as [Hin|Hin].
  { pose proof (Hlr (p, w) (q, u) Hin ltac:(set_solver)) as Hwu. simpl in Hwu.
    pose proof (Htr _ _ _ Hwu Euv). congruence. }
  apply elem_of_cons in Hin as [[= -> ->]|Hin]; [congruence|].
  by eapply IHr.
Qed.

Lemma find_tree_member t p w :
  strict_weak_order value_comp -> ordered value_comp (elems t) ->
  (p, w) ∈ elems t -> find_tree value_comp w t = Some p.
Proof.
  intros [Hirr Htr Heq] Ho. unfold ordered in Ho.
  induction t as [|l IHl q h u r IHr]; simpl in *; [set_solver|].
  apply StronglySorted_app in Ho as (Hlr & Hl & Hr).
  apply StronglySorted_cons in Hr as (Hur & Hr). rewrite Forall_forall in Hur.
  intros Hin.
  apply elem_of_app in Hin as [Hin|Hin].
  { pose proof (Hlr (p, w) (q, u) Hin ltac:(set_solver)) as Hwu. simpl in Hwu.
    rewrite Hwu. by apply IHl. }
  apply elem_of_cons in Hin as [[= -> ->]|Hin].
  { by rewrite Hirr. }
  pose proof (Hur _ Hin) as Huw. simpl in Huw.
  destruct (value_comp w u) eqn:Ewu.
  { pose proof (Htr _ _ _ Ewu Huw). rewrite Hirr in *. congruence. }
  rewrite Huw. by apply IHr.
Qed.

End Order.

(** * insert_unique and insert_multi *)

Section InsertTop.
Context {T : Type}.
Variable value_comp : T -> T -> bool.
Implicit Types (m : gmap positive (avl_node T)) (t l r : @tree T).
Implicit Types (c : list (@frame T)).
Implicit Types (e : list (positive * T)).

Lemma plug_nil t : plug [] t = t.
Proof. done. Qed.

Lemma link_as_root_spec sz m n cell Q :
  m !! n = Some cell ->
  (forall s', linked s' (leaf n (elem cell)) -> mSize s' = sz -> Q tt s') ->
  wp (link_as_root n) (AvlTree sz None m) Q.
Proof.
  intros Hn HQ. unfold link_as_root. wp_go.
  apply HQ; [|done]. split; cbn.
  - done.
  - split_and!; [lkp|done..].
  - unfold ids. cbn. apply NoDup_singleton.
Qed.

Lemma insert_unique_spec sz rt m t n cell Q :
  linked (AvlTree sz rt m) t ->
  m !! n = Some cell -> n ∉ ids t ->
  hok t -> Z.of_nat (count t) + 1 < 2 ^ 31 ->
  (forall b s',
     match slot_unique value_comp (elem cell) t [] with
     | None => b = false /\ s' = AvlTree sz rt m
     | Some c' =>
         b = true /\ linked s' (insert_at c' n (elem cell))
         /\ mSize s' = size_wrap (sz + 1)
     end -> Q b s') ->
  wp (insert_unique value_comp n) (AvlTree sz rt m) Q.
Proof.
  intros Hlk Hn Hfresh Hok Hc HQ. unfold insert_unique. wp_go.
  pose proof (lk_root _ _ Hlk) as Hrt. cbn [mRoot] in Hrt. subst rt.
  destruct t as [|l p h v r]; cbn [root_of] in *.
  - wp_bind_syn. eapply link_as_root_spec; [done|].
    intros [sz' rt' m'] Hlk' Hsz. cbn in Hsz. subst sz'.
    unfold incr_size. wp_go. apply HQ. cbn. split_and!; [done| |done].
    by eapply linked_size.
  - wp_go. pose proof (count_fuel _ _ Hlk). pose proof (depth_count (Node l p h v r)).
    eapply (insert_unique_loop_spec _ (Node l p h v r) _ _ _ _ []);
      [done|by rewrite plug_nil|done|by rewrite plug_nil..|lia|done].
Qed.

Lemma insert_multi_spec sz rt m t n cell Q :
  linked (AvlTree sz rt m) t ->
  m !! n = Some cell -> n ∉ ids t ->
  hok t -> Z.of_nat (count t) + 1 < 2 ^ 31 ->
  (forall s',
     linked s' (insert_at (slot_multi value_comp (elem cell) t []) n (elem cell)) ->
     mSize s' = size_wrap (sz + 1) -> Q tt s') ->
  wp (insert_multi value_comp n) (AvlTree sz rt m) Q.
Proof.
  intros Hlk Hn Hfresh Hok Hc HQ. unfold insert_multi. wp_go.
  pose proof (lk_root _ _ Hlk) as Hrt. cbn [mRoot] in Hrt. subst rt.
  destruct t as [|l p h v r]; cbn [root_of] in *.
  - wp_bind_syn. eapply link_as_root_spec; [done|].
    intros [sz' rt' m'] Hlk' Hsz. cbn in Hsz. subst sz'.
    unfold incr_size. wp_go. apply HQ; [|done]. cbn.
    by eapply linked_size.
  - wp_go. pose proof (count_fuel _ _ Hlk). pose proof (depth_count (Node l p h v r)).
    eapply (insert_multi_loop_spec _ (Node l p h v r) _ _ _ _ []);
      [done|by rewrite plug_nil|done|by rewrite plug_nil..|lia|done].
Qed.

(** *** Where the slot is *)

Lemma slot_unique_plug vn t : forall c c',
  slot_unique value_comp vn t c = Some c' -> plug c' Leaf = plug c t.
Proof.
  induction t as [|l IHl p h v r IHr]; intros c c'; simpl.
  - by intros [= ->].
  - destruct (value_comp vn v); [by intros ->%IHl|].
    destruct (value_comp v vn); [by intros ->%IHr|done].
Qed.

Lemma slot_multi_plug vn t : forall c,
  plug (slot_multi value_comp vn t c) Leaf = plug c t.
Proof.
  induction t as [|l IHl p h v r IHr]; intros c; simpl; [done|].
  destruct (value_comp vn v); [by rewrite IHl|].
  destruct (value_comp v vn); [by rewrite IHr|].
  destruct l as [|ll y hy vy lr]; [done|].
  destruct r as [|rl z hz vz rr]; [done|].
  destruct (ht _ <? ht _); [by rewrite IHl|by rewrite IHr].
Qed.

Lemma slot_unique_fits vn t : forall c c',
  strict_weak_order value_comp ->
  ordered value_comp (elems (plug c t)) -> fits value_comp vn c ->
  slot_unique value_comp vn t c = Some c' -> fits value_comp vn c'.
Proof.
  intros c c' [Hirr Htr Heq]. revert c c'. unfold ordered.
  induction t as [|l IHl p h v r IHr]; intros c c' Ho Hfit; simpl.
  - by intros [= ->].
  - assert (Ho' := Ho). rewrite elems_plug in Ho'. simpl in Ho'.
    apply StronglySorted_app in Ho' as (_ & _ & Ho').
    apply StronglySorted_app in Ho' as (_ & Ho' & _).
    apply StronglySorted_app in Ho' as (Hlr & _ & Hr).
    apply StronglySorted_cons in Hr as (Hvr & _). rewrite Forall_forall in Hvr.
    destruct Hfit as [Hb Ha].
    destruct (value_comp vn v) eqn:E1.
    { apply IHl; [by rewrite plug_cons|].
      split; simpl; [by rewrite app_nil_r|].
      intros x [->|[Hx|Hx]%elem_of_app]%elem_of_cons;
        [done| |by apply Ha].
      eapply Htr; [exact E1|]. by apply (Hvr x). }
    destruct (value_comp v vn) eqn:E2; [|done].
    apply IHr; [by rewrite plug_cons|].
    split; simpl; [|done].
    intros x [Hx|[Hx|Hx]%elem_of_app]%elem_of_app; [by apply Hb| |].
    + eapply Htr; [|exact E2]. apply (Hlr x (p, v)); [done|set_solver].
    + apply list_elem_of_singleton in Hx as ->. done.
Qed.

Lemma fits_nil vn : fits value_comp vn [].
Proof. split; simpl; set_solver. Qed.

Lemma ordered_insert vn n c :
  strict_weak_order value_comp ->
  ordered value_comp (before c ++ after c) -> fits value_comp vn c ->
  ordered value_comp (before c ++ (n, vn) :: after c).
Proof.
  intros [Hirr Htr Heq]. unfold ordered. intros Ho [Hb Ha].
  apply StronglySorted_app in Ho as (Hba & Hbs & Has).
  apply StronglySorted_app. split_and!; [|done|].
  - intros x1 x2 H1 [->|H2]%elem_of_cons; [by apply Hb|by apply Hba].
  - apply StronglySorted_cons. split; [|done]. rewrite Forall_forall. exact Ha.
Qed.

Lemma slot_unique_none vn t c :
  slot_unique value_comp vn t c = None ->
  exists p w, (p, w) ∈ elems t /\ equivalent value_comp vn w.
Proof.
  revert c. induction t as [|l IHl p h v r IHr]; intros c; simpl; [done|].
  destruct (value_comp vn v) eqn:E1.
  { intros (q & w & ? & ?)%IHl. exists q, w. split; [set_solver|done]. }
  destruct (value_comp v vn) eqn:E2.
  { intros (q & w & ? & ?)%IHr. exists q, w. split; [set_solver|done]. }
  intros _. exists p, v. split; [set_solver|done].
Qed.

Lemma slot_unique_some vn t c' :
  strict_weak_order value_comp -> ordered value_comp (elems t) ->
  slot_unique value_comp vn t [] = Some c' ->
  forall p w, (p, w) ∈ elems t -> ~ equivalent value_comp vn w.
Proof.
  intros Hsw Ho Hs p w Hin [E1 E2].
  pose proof (slot_unique_fits vn t [] c' Hsw) as Hfit.
  rewrite plug_nil in Hfit. specialize (Hfit Ho (fits_nil vn) Hs) as [Hb Ha].
  apply slot_unique_plug in Hs. rewrite plug_nil in Hs.
  rewrite <- Hs, elems_plug in Hin. simpl in Hin.
  apply elem_of_app in Hin as [Hin|Hin].
  - apply Hb in Hin. simpl in Hin. congruence.
  - apply Ha in Hin. simpl in Hin. congruence.
Qed.

(** In an ordered tree at most one node compares equal to a given value. *)
Lemma ordered_equiv_unique vn e p1 w1 p2 w2 :
  strict_weak_order value_comp -> ordered value_comp e -> NoDup e.*1 ->
  (p1, w1) ∈ e -> (p2, w2) ∈ e ->
  equivalent value_comp vn w1 -> equivalent value_comp vn w2 -> p1 = p2.
Proof.
  intros [Hirr Htr Heq]. unfold ordered. intros Ho Hnd H1 H2 E1 E2.
  assert (E12 : equivalent value_comp w1 w2).
  { eapply Heq; [|exact E2]. destruct E1. by split. }
  destruct E12 as [E12 E21].
  induction e as [|[q u] e IH]; [set_solver|].
  apply StronglySorted_cons in Ho as (Hall & Ho). rewrite Forall_forall in Hall.
  rewrite fmap_cons in Hnd. apply NoDup_cons in Hnd as [Hq Hnd].
  apply elem_of_cons in H1 as [[= -> ->]|H1], H2 as [[= -> ->]|H2]; [done| | |by apply IH].
  - apply Hall in H2. simpl in H2. congruence.
  - apply Hall in H1. simpl in H1. congruence.
Qed.

End InsertTop.

(** * erase: the two splices *)

Section Erase.
Context {T : Type}.
Implicit Types (m : gmap positive (avl_node T)) (t l r : @tree T).
Implicit Types (c : list (@frame T)).
Implicit Types (e : list (positive * T)).

(** Splicing out a node [z] without a left child: its right child takes its
    place under its parent. *)
Lemma splice_out_spec {A} sz rt m c z hz vz zr (k : M T A) Q :
  linked (AvlTree sz rt m) (plug c (Node Leaf z hz vz zr)) ->
  (forall rt' m',
     linked (AvlTree sz rt' m') (plug c zr) ->
     m' !! z = m !! z ->
     (forall q, q ∉ ids (plug c (Node Leaf z hz vz zr)) -> m' !! q = m !! q) ->
     wp k (AvlTree sz rt' m') Q) ->
  wp (bind (when_some (root_of zr) (fun ch => set_mParent ch (cparent c)))
        (fun _ => bind (replace_as_child z (root_of zr) (cparent c)) (fun _ => k)))
     (AvlTree sz rt m) Q.
Proof.
  intros (-> & HC & (Hz & _ & Hzr) & Hnd)%linked_plug HQ.
  rewrite ids_node, ids_leaf in Hnd. cbn [app root_of] in *. nd.
  assert (Hout : forall q, q ∉ ids (plug c (Node Leaf z hz vz zr)) ->
    (q ≠ z) /\ (q ∉ ids zr) /\ (q ∉ cids c)).
  { intros q Hq. rewrite ids_plug_perm, ids_node, ids_leaf in Hq.
    split_and!; intros E; apply Hq; subst; solve_elem. }
  destruct zr as [|a q hq vq b]; cbn [root_of when_some] in *.
  - wp_go. wp_bind_syn; eapply replace_as_child_ctx; [done|nodup|].
    intros m' HC' Hfr. apply HQ.
    + apply linked_plug. split_and!; [done..|]. rewrite ids_leaf. by cbn.
    + frm.
    + intros q' (? & ? & ?)%Hout. frm.
  - destruct Hzr as (Hq & Ha & Hb). nd. wp_go.
    wp_bind_syn; eapply replace_as_child_ctx; [reprc|nodup|].
    intros m' HC' Hfr. apply HQ.
    + apply linked_plug. split_and!; [done..| |nodup].
      cbn. split_and!; first [done | lkp | reprs].
    + frm.
    + intros q' (? & ? & ?)%Hout. rewrite ids_node in *. frm.
Qed.

(** A fresh node [s] takes over the position, links and height of [x]. *)
Lemma take_over_spec {A} sz rt m c ll y hy vy lr x h v r s cs (k : M T A) Q :
  let l := Node ll y hy vy lr in
  linked (AvlTree sz rt m) (plug c (Node l x h v r)) ->
  m !! s = Some cs -> s ∉ ids (plug c (Node l x h v r)) ->
  (forall rt' m',
     linked (AvlTree sz rt' m') (plug c (Node l s h (elem cs) r)) ->
     (forall q, q ≠ s -> q ∉ ids (plug c (Node l x h v r)) -> m' !! q = m !! q) ->
     wp k (AvlTree sz rt' m') Q) ->
  wp (bind (left x) (fun ol =>
      bind (set_mLeft s ol) (fun _ =>
      bind (right x) (fun or =>
      bind (set_mRight s or) (fun _ =>
      bind (parent x) (fun op =>
      bind (set_mParent s op) (fun _ =>
      bind (height x) (fun oh =>
      bind (set_mHeight s oh) (fun _ =>
      bind (parent x) (fun op' =>
      bind (replace_as_child x (Some s) op') (fun _ =>
      bind (left x) (fun ol0 =>
      bind (deref ol0) (fun ol' =>
      bind (set_mParent ol' (Some s)) (fun _ =>
      bind (right x) (fun or' =>
      bind (when_some or' (fun z => set_mParent z (Some s))) (fun _ => k)))))))))))))))) 
     (AvlTree sz rt m) Q.
Proof.
  intros l. subst l.
  intros (-> & HC & (Hx & (Hy & Hll & Hlr) & Hr) & Hnd)%linked_plug Hs Hfresh HQ.
  assert (Hout : forall q, q ∉ ids (plug c (Node (Node ll y hy vy lr) x h v r)) ->
    (q ≠ x) /\ (q ≠ y) /\ (q ∉ ids ll) /\ (q ∉ ids lr) /\ (q ∉ ids r)
    /\ (q ∉ cids c)).
  { intros q Hq. rewrite ids_plug_perm, !ids_node in Hq.
    split_and!; intros E; apply Hq; subst; solve_elem. }
  destruct (Hout _ Hfresh) as (? & ? & ? & ? & ? & ?).
  rewrite !ids_node in Hnd. cbn [root_of] in *. nd.
  wp_go.
  wp_bind_syn; eapply replace_as_child_ctx; [reprc|nodup|].
  intros m' HC' Hfr. wp_go.
  destruct r as [|rl z hz vz rr]; cbn [root_of when_some] in *.
  - wp_go. apply HQ.
    + apply linked_plug. split_and!; [done|reprc| |nodup].
      cbn. split_and!; first [done | lkp | reprs].
    + intros q' ? (? & ? & ? & ? & ? & ?)%Hout. frm.
  - destruct Hr as (Hz & Hrl & Hrr). nd. wp_go. apply HQ.
    + apply linked_plug. split_and!; [done|reprc| |nodup].
      cbn. split_and!; first [done | lkp | reprs].
    + intros q' ? (? & ? & ? & ? & ? & ?)%Hout. rewrite ids_node in *.
      frm.
Qed.

End Erase.

(** * erase: the unlinking of a node with two children *)

Section Erase2.
Context {T : Type}.
Implicit Types (m : gmap positive (avl_node T)) (t l r : @tree T).
Implicit Types (c : list (@frame T)).
Implicit Types (e : list (positive * T)).

Lemma min_ctx_plug t : forall c,
  plug (min_ctx t c).1 (min_ctx t c).2 = plug c t.
Proof.
  induction t as [|l IHl p h v r _]; intros c; [done|].
  destruct l as [|ll y hy vy lr]; [done|].
  change (min_ctx (Node (Node ll y hy vy lr) p h v r) c)
    with (min_ctx (Node ll y hy vy lr) (FL p h v r :: c)).
  by rewrite IHl.
Qed.

Lemma min_ctx_app t : forall c,
  min_ctx t c = ((min_ctx t []).1 ++ c, (min_ctx t []).2).
Proof.
  induction t as [|l IHl p h v r _]; intros c; [done|].
  destruct l as [|ll y hy vy lr]; [done|].
  change (min_ctx (Node (Node ll y hy vy lr) p h v r) c)
    with (min_ctx (Node ll y hy vy lr) (FL p h v r :: c)).
  change (min_ctx (Node (Node ll y hy vy lr) p h v r) [])
    with (min_ctx (Node ll y hy vy lr) [FL p h v r]).
  rewrite (IHl (FL p h v r :: c)), (IHl [FL p h v r]). cbn [fst snd].
  by rewrite <- app_assoc.
Qed.

Lemma min_ctx_node t c :
  t ≠ Leaf -> exists s hs vs sr, (min_ctx t c).2 = Node Leaf s hs vs sr.
Proof.
  revert c. induction t as [|l IHl p h v r _]; intros c Ht; [done|].
  destruct l as [|ll y hy vy lr]; [by eexists _, _, _, _|].
  change (min_ctx (Node (Node ll y hy vy lr) p h v r) c)
    with (min_ctx (Node ll y hy vy lr) (FL p h v r :: c)).
  by apply IHl.
Qed.

(** The path up from the left-most node only has left edges: the node comes
    first in order. *)
Lemma min_ctx_before t : forall c, before (min_ctx t c).1 = before c.
Proof.
  induction t as [|l IHl p h v r _]; intros c; [done|].
  destruct l as [|ll y hy vy lr]; [done|].
  change (min_ctx (Node (Node ll y hy vy lr) p h v r) c)
    with (min_ctx (Node ll y hy vy lr) (FL p h v r :: c)).
  rewrite IHl. cbn. by rewrite app_nil_r.
Qed.

Lemma leftmost_spec t : forall fuel par p sz rt m Q,
  Repr m par t -> root_of t = Some p -> (depth t <= fuel)%nat ->
  (forall s, root_of (min_ctx t []).2 = Some s -> Q s (AvlTree sz rt m)) ->
  wp (leftmost fuel p) (AvlTree sz rt m) Q.
Proof.
  induction t as [|l IHl q h v r _]; intros fuel par p sz rt m Q HR [= <-] Hf HQ.
  destruct fuel as [|fuel]; [cbn in Hf; lia|]. cbn in Hf.
  destruct HR as (Hq & Hl & Hr). cbn [leftmost]. wp_go.
  destruct l as [|ll y hy vy lr]; cbn [root_of].
  - wp_go. by apply HQ.
  - eapply IHl; [done|done|lia|]. intros s Hs. apply HQ.
    change (min_ctx (Node (Node ll y hy vy lr) q h v r) [])
      with (min_ctx (Node ll y hy vy lr) [FL q h v r]).
    by rewrite min_ctx_app.
Qed.

Lemma not_in_plug c t q :
  q ∉ ids (plug c t) <-> (q ∉ ids t) /\ (q ∉ cids c).
Proof. rewrite ids_plug_perm, not_elem_of_app. done. Qed.

Lemma not_in_plug_mono c t t' q :
  (forall y, y ∈ ids t' -> y ∈ ids t) ->
  q ∉ ids (plug c t) -> q ∉ ids (plug c t').
Proof. rewrite !not_in_plug. naive_solver. Qed.

Lemma erase_unlink_two_spec sz rt m c l x h v r Q :
  linked (AvlTree sz rt m) (plug c (Node l x h v r)) ->
  l ≠ Leaf -> r ≠ Leaf ->
  (forall rt' m',
     linked (AvlTree sz rt' m') (unlink2_tree c l r h) ->
     (forall q, q ∉ ids (plug c (Node l x h v r)) -> m' !! q = m !! q) ->
     Q (unlink2_start r) (AvlTree sz rt' m')) ->
  wp (erase_unlink x) (AvlTree sz rt m) Q.
Proof.
  intros Hlk Hl Hr HQ.
  pose proof (linked_root_lookup _ _ _ _ _ _ _ _ _ Hlk) as Hx.
  pose proof (count_fuel _ _ Hlk) as Hfuel. rewrite count_plug, count_node in Hfuel.
  assert (Hlk' := Hlk).
  apply linked_plug in Hlk' as (_ & _ & (_ & HRl & HRr) & _).
  destruct l as [|ll y hy vy lr]; [done|]. clear Hl.
  destruct (min_ctx_node r [] Hr) as (s & hs & vs & sr & Hmin).
  pose proof (min_ctx_plug r []) as Hplug. rewrite Hmin, plug_nil in Hplug.
  unfold unlink2_tree, unlink2_start in HQ. rewrite Hmin in HQ.
  set (cr := (min_ctx r []).1) in *.
  destruct (root_of r) as [z|] eqn:Hrz; [|by destruct r].
  unfold erase_unlink. wp_go.
  eapply (leftmost_spec r); [done|done| |].
  { pose proof (depth_count r). lia. }
  intros s' Hs'. rewrite Hmin in Hs'. simplify_eq/=.
  (* refocus on the successor *)
  rewrite <- Hplug in Hlk.
  change (plug c (Node (Node ll y hy vy lr) x h v (plug cr (Node Leaf s' hs vs sr))))
    with (plug c (fill (FR (Node ll y hy vy lr) x h v) (plug cr (Node Leaf s' hs vs sr)))) in Hlk.
  rewrite <- plug_cons, <- plug_app in Hlk.
  pose proof (linked_root_lookup _ _ _ _ _ _ _ _ _ Hlk) as Hs.
  wp_go.
  assert (Hsfresh : s' ∉ ids (plug (cr ++ FR (Node ll y hy vy lr) x h v :: c) sr)).
  { pose proof (lk_nodup _ _ Hlk) as Hnd.
    rewrite ids_plug_perm, ids_node, ids_leaf in Hnd. cbn [app] in Hnd.
    rewrite ids_plug_perm. nd. dis. }
  assert (Hids : forall q,
    q ∉ ids (plug c (Node (Node ll y hy vy lr) x h v r)) ->
    q ∉ ids (plug (cr ++ FR (Node ll y hy vy lr) x h v :: c) (Node Leaf s' hs vs sr))).
  { intros q Hq. rewrite plug_app, plug_cons. cbn [fill]. by rewrite Hplug. }
  eapply splice_out_spec; [exact Hlk|]. clear Hlk HRl HRr.
  intros rt1 m1 Hlk Hsame Hfr1.
  rewrite Hs in Hsame. clear Hs Hx.
  wp_go.
  rewrite plug_app, plug_cons in Hlk, Hsfresh. cbn [fill] in Hlk, Hsfresh.
  eapply take_over_spec; [exact Hlk|exact Hsame|exact Hsfresh|].
  intros rt2 m2 Hlk2 Hfr2. wp_go.
  assert (Hstart : (if bool_decide (cparent (cr ++ FR (Node ll y hy vy lr) x h v :: c) = Some x)
                    then Some s' else cparent (cr ++ FR (Node ll y hy vy lr) x h v :: c))
                   = match cparent cr with Some p => Some p | None => Some s' end).
  { destruct cr as [|f cr'] eqn:Ecr; cbn [app cparent frame_node].
    - by rewrite bool_decide_eq_true_2.
    - rewrite bool_decide_eq_false_2; [done|].
      intros [= E]. pose proof (lk_nodup _ _ Hlk) as Hnd.
      rewrite ids_plug_perm, ids_node in Hnd. nd.
      match goal with H : x ∉ ids (plug _ _) |- _ => apply H end.
      rewrite ids_plug_perm. apply elem_of_app; right. apply cparent_in.
      cbn. by rewrite E. }
  rewrite Hstart. apply HQ; [done|].
  intros q Hq. rewrite Hfr2, Hfr1; [done|by apply Hids| |].
  - intros ->. apply Hids in Hq. rewrite ids_plug_perm, ids_node in Hq. set_solver.
  - revert Hq. apply not_in_plug_mono. intros q'.
    rewrite !ids_node, <- Hplug, !ids_plug_perm, ids_node, ids_leaf.
    set_solver.
Qed.

End Erase2.

Ltac cnt :=
  unfold count in *;
  repeat (rewrite ?plug_app, ?plug_cons in *; cbn [fill] in * );
  repeat (progress (rewrite ?elems_plug, ?length_app in * );
          cbn [elems length app] in * );
  cbn [elems length app] in *; rewrite ?length_app in *; cbn [length] in *;
  lia.

(** * erase: the tree it leaves *)

Section Erase3.
Context {T : Type}.
Implicit Types (m : gmap positive (avl_node T)) (t l r : @tree T).
Implicit Types (c : list (@frame T)).
Implicit Types (e : list (positive * T)).

Lemma min_ctx_cases r :
  r ≠ Leaf ->
  exists s hs vs sr,
    (min_ctx r []).2 = Node Leaf s hs vs sr
    /\ (((min_ctx r []).1 = [] /\ r = Node Leaf s hs vs sr)
        \/ exists p1 h1 v1 r1 cr',
             (min_ctx r []).1 = FL p1 h1 v1 r1 :: cr'
             /\ r = plug cr' (Node (Node Leaf s hs vs sr) p1 h1 v1 r1)
             /\ before cr' = []).
Proof.
  intros Hr. destruct (min_ctx_node r [] Hr) as (s & hs & vs & sr & Hmin).
  exists s, hs, vs, sr. split; [done|].
  pose proof (min_ctx_plug r []) as Hplug. rewrite Hmin, plug_nil in Hplug.
  pose proof (min_ctx_before r []) as Hb.
  destruct (min_ctx r []).1 as [|[p1 h1 v1 r1|l1 p1 h1 v1] cr'].
  - left. by rewrite plug_nil in Hplug.
  - right. exists p1, h1, v1, r1, cr'. rewrite plug_cons in Hplug.
    cbn in Hb. by rewrite app_nil_r in Hb.
  - cbn in Hb. by destruct (before cr'), (elems l1).
Qed.

Lemma erase2_tree_ok c l x h v r :
  hok (plug c (Node l x h v r)) ->
  Z.of_nat (count (plug c (Node l x h v r))) < 2 ^ 31 ->
  r ≠ Leaf ->
  hok (erase2_tree c l r h)
  /\ elems (erase2_tree c l r h) = before c ++ elems l ++ elems r ++ after c.
Proof.
  intros Hok Hc Hr. unfold erase2_tree.
  destruct (min_ctx_cases r Hr) as (s & hs & vs & sr & -> & Hcase).
  apply hok_plug in Hok as [Ht HC]. cbn [ht] in HC.
  destruct Hcase as [[-> ->]|(p1 & h1 & v1 & r1 & cr' & -> & -> & Hb)].
  - destruct Ht as (Hl & (_ & Hsr & _) & Hh).
    destruct (rebalance_tree_ok c l s h vs sr) as [? He]; [done..| |].
    { clear -Hc. cnt. }
    split; [done|]. rewrite He, elems_plug. cbn.
    by rewrite <- !app_assoc.
  - destruct Ht as (Hl & Hr' & Hh).
    assert (Hr'' := Hr'). apply hok_plug in Hr'' as [(Hs & Hr1 & Hh1) HC'].
    destruct Hs as (_ & Hsr & Hhs). cbn [ht] in *.
    assert (Hbig : hok (plug (cr' ++ FR l s h vs :: c)
                     (Node (Node Leaf s hs vs sr) p1 h1 v1 r1))).
    { rewrite plug_app, plug_cons. cbn [fill]. apply hok_plug. done. }
    apply hok_plug in Hbig as [_ HCbig]. cbn [ht] in HCbig.
    destruct (rebalance_tree_ok (cr' ++ FR l s h vs :: c) sr p1 h1 v1 r1)
      as [? He]; [done..| |].
    { clear -Hc. cnt. }
    split; [done|]. rewrite He, plug_app, plug_cons. cbn [fill].
    rewrite !elems_plug. cbn. rewrite !elems_plug. cbn.
    rewrite Hb. cbn. by repeat (rewrite <- app_assoc; cbn).
Qed.

Lemma erase_two_spec sz rt m c l x h v r Q :
  linked (AvlTree sz rt m) (plug c (Node l x h v r)) ->
  l ≠ Leaf -> r ≠ Leaf ->
  hok (plug c (Node l x h v r)) ->
  Z.of_nat (count (plug c (Node l x h v r))) < 2 ^ 31 ->
  (forall s', linked s' (erase2_tree c l r h) ->
     mSize s' = size_wrap (sz - 1) -> Q tt s') ->
  wp (erase x) (AvlTree sz rt m) Q.
Proof.
  intros Hlk Hl Hr Hok Hc HQ. unfold erase. wp_bind_syn.
  eapply erase_unlink_two_spec; [exact Hlk|done..|].
  intros rt1 m1 Hlk1 _. unfold unlink2_tree, unlink2_start, erase2_tree in *.
  destruct (min_ctx_cases r Hr) as (s & hs & vs & sr & Hmin & Hcase).
  rewrite Hmin in *.
  apply hok_plug in Hok as [Ht HC]. cbn [ht] in HC.
  destruct Hcase as [[Hcr ->]|(p1 & h1 & v1 & r1 & cr' & Hcr & -> & Hb)];
    rewrite Hcr in *; cbn [cparent root_of frame_node when_some].
  - rewrite plug_nil in Hlk1.
    destruct Ht as (Hl' & (_ & Hsr & _) & Hh).
    wp_bind_syn. eapply rebalance_spec; [exact Hlk1|done..| |].
    { clear -Hc. cnt. }
    intros [sz' rt2 m2] Hlk2 Hsz. cbn in Hsz. subst sz'.
    unfold decr_size. wp_go. apply HQ; [|done]. by eapply linked_size.
  - destruct Ht as (Hl' & Hr' & Hh).
    assert (Hr'' := Hr'). apply hok_plug in Hr'' as [(Hs & Hr1 & Hh1) HC'].
    destruct Hs as (_ & Hsr & Hhs). cbn [ht] in *.
    assert (Hbig : hok (plug (cr' ++ FR l s h vs :: c)
                     (Node (Node Leaf s hs vs sr) p1 h1 v1 r1))).
    { rewrite plug_app, plug_cons. cbn [fill]. apply hok_plug. done. }
    apply hok_plug in Hbig as [_ HCbig]. cbn [ht] in HCbig.
    assert (Etree : plug c (Node l s h vs (plug (FL p1 h1 v1 r1 :: cr') sr))
                    = plug (cr' ++ FR l s h vs :: c) (Node sr p1 h1 v1 r1)).
    { by rewrite plug_app, !plug_cons. }
    rewrite Etree in Hlk1.
    wp_bind_syn. eapply rebalance_spec; [exact Hlk1|done..| |].
    { clear -Hc. cnt. }
    intros [sz' rt2 m2] Hlk2 Hsz. cbn in Hsz. subst sz'.
    unfold decr_size. wp_go. apply HQ; [|done]. by eapply linked_size.
Qed.

End Erase3.

Ltac cnt_ctx :=
  match goal with
  | H : (count (plug ?c ?t) < _)%nat |- _ =>
      pose proof (length_ctx c); rewrite count_plug in H;
      try rewrite count_node in H; lia
  end.

(** * next and prev *)

Section Traverse.
Context {T : Type}.
Implicit Types (m : gmap positive (avl_node T)) (t l r : @tree T).
Implicit Types (c : list (@frame T)).
Implicit Types (e : list (positive * T)).

Lemma leftmost_head t : forall fuel par p sz rt m Q,
  Repr m par t -> root_of t = Some p -> (depth t <= fuel)%nat ->
  (forall s, head (ids t) = Some s -> Q s (AvlTree sz rt m)) ->
  wp (leftmost fuel p) (AvlTree sz rt m) Q.
Proof.
  induction t as [|l IHl q h v r _]; intros fuel par p sz rt m Q HR [= <-] Hf HQ.
  destruct fuel as [|fuel]; [cbn in Hf; lia|]. cbn in Hf.
  destruct HR as (Hq & Hl & Hr). cbn [leftmost]. wp_go.
  destruct l as [|ll y hy vy lr]; cbn [root_of].
  - wp_go. by apply HQ.
  - eapply IHl; [done|done|lia|]. intros s Hs. apply HQ.
    rewrite ids_node. destruct (ids (Node ll y hy vy lr)); [done|]. done.
Qed.

Lemma rightmost_last t : forall fuel par p sz rt m Q,
  Repr m par t -> root_of t = Some p -> (depth t <= fuel)%nat ->
  (forall s, last (ids t) = Some s -> Q s (AvlTree sz rt m)) ->
  wp (rightmost fuel p) (AvlTree sz rt m) Q.
Proof.
  induction t as [|l _ q h v r IHr]; intros fuel par p sz rt m Q HR [= <-] Hf HQ.
  destruct fuel as [|fuel]; [cbn in Hf; lia|]. cbn in Hf.
  destruct HR as (Hq & Hl & Hr). cbn [rightmost]. wp_go.
  destruct r as [|rl y hy vy rr]; cbn [root_of].
  - wp_go. apply HQ. rewrite ids_node, ids_leaf. by rewrite last_snoc.
  - eapply IHr; [done|done|lia|]. intros s Hs. apply HQ.
    rewrite ids_node, last_app, last_cons, Hs. done.
Qed.

(** The climb of [next] from the root of the subtree in the hole of [c]
    ends at the first node after the hole. *)
Lemma next_up_spec c : forall fuel p t sz rt m Q,
  linked (AvlTree sz rt m) (plug c t) -> root_of t = Some p ->
  (length c < fuel)%nat ->
  Q (head (after c).*1) (AvlTree sz rt m) ->
  wp (next_up fuel p) (AvlTree sz rt m) Q.
Proof.
  induction c as [|f c IH]; intros fuel p t sz rt m Q Hlk Hp Hf HQ.
  - destruct fuel as [|fuel]; [cbn in Hf; lia|].
    destruct (linked_child_lookup _ _ _ _ _ _ Hlk Hp) as (l & h & v & r & -> & Hc).
    cbn [next_up]. wp_go. done.
  - destruct fuel as [|fuel]; [cbn in Hf; lia|]. cbn in Hf.
    destruct (linked_child_lookup _ _ _ _ _ _ Hlk Hp) as (l & h & v & r & -> & Hc).
    rewrite plug_cons in Hlk.
    cbn [next_up]. destruct f as [q hq vq sib|sib q hq vq]; cbn [fill] in Hlk.
    + pose proof (linked_root_lookup _ _ _ _ _ _ _ _ _ Hlk) as Hq.
      cbn [cparent frame_node] in *. wp_go.
      rewrite bool_decide_eq_true_2 by done. wp_go. done.
    + pose proof (linked_root_lookup _ _ _ _ _ _ _ _ _ Hlk) as Hq.
      cbn [cparent frame_node] in *. wp_go.
      rewrite bool_decide_eq_false_2.
      2:{ intros E%root_in_ids. pose proof (lk_nodup _ _ Hlk) as Hnd.
          rewrite ids_plug_perm, !ids_node in Hnd. nd. dis. }
      eapply IH; [exact Hlk|done|lia|done].
Qed.

Lemma prev_up_spec c : forall fuel p t sz rt m Q,
  linked (AvlTree sz rt m) (plug c t) -> root_of t = Some p ->
  (length c < fuel)%nat ->
  Q (last (before c).*1) (AvlTree sz rt m) ->
  wp (prev_up fuel p) (AvlTree sz rt m) Q.
Proof.
  induction c as [|f c IH]; intros fuel p t sz rt m Q Hlk Hp Hf HQ.
  - destruct fuel as [|fuel]; [cbn in Hf; lia|].
    destruct (linked_child_lookup _ _ _ _ _ _ Hlk Hp) as (l & h & v & r & -> & Hc).
    cbn [prev_up]. wp_go. done.
  - destruct fuel as [|fuel]; [cbn in Hf; lia|]. cbn in Hf.
    destruct (linked_child_lookup _ _ _ _ _ _ Hlk Hp) as (l & h & v & r & -> & Hc).
    rewrite plug_cons in Hlk.
    cbn [prev_up]. destruct f as [q hq vq sib|sib q hq vq]; cbn [fill] in Hlk.
    + pose proof (linked_root_lookup _ _ _ _ _ _ _ _ _ Hlk) as Hq.
      cbn [cparent frame_node] in *. wp_go.
      rewrite bool_decide_eq_false_2.
      2:{ intros E%root_in_ids. pose proof (lk_nodup _ _ Hlk) as Hnd.
          rewrite ids_plug_perm, !ids_node in Hnd. nd. dis. }
      eapply IH; [exact Hlk|done|lia|].
      cbn [before frame_before] in HQ. by rewrite app_nil_r in HQ.
    + pose proof (linked_root_lookup _ _ _ _ _ _ _ _ _ Hlk) as Hq.
      cbn [cparent frame_node] in *. wp_go.
      rewrite bool_decide_eq_true_2 by done. wp_go.
      cbn [before frame_before] in HQ.
      rewrite app_assoc, fmap_app in HQ. cbn [fmap list_fmap fst] in HQ.
      rewrite last_snoc in HQ. done.
Qed.

(** Every node of the tree is the root of a subtree below some path. *)
Lemma focus_at t p :
  p ∈ ids t -> exists c l h v r, t = plug c (Node l p h v r).
Proof.
  assert (H : forall t c, p ∈ ids t ->
    exists c' l h v r, plug c t = plug c' (Node l p h v r)).
  { clear t. induction t as [|l IHl q h v r IHr]; intros c Hp.
    - by rewrite ids_leaf in Hp; apply elem_of_nil in Hp.
    - rewrite ids_node in Hp.
      apply elem_of_app in Hp as [Hp|Hp]; [|apply elem_of_cons in Hp as [->|Hp]].
      + destruct (IHl (FL q h v r :: c) Hp) as (c' & ? & ? & ? & ? & E).
        rewrite plug_cons in E. eauto 6.
      + by exists c, l, h, v, r.
      + destruct (IHr (FR l q h v :: c) Hp) as (c' & ? & ? & ? & ? & E).
        rewrite plug_cons in E. eauto 6. }
  intros Hp. destruct (H t [] Hp) as (c' & l & h & v & r & E).
  rewrite plug_nil in E. eauto 6.
Qed.

Lemma NoDup_split_unique (p : positive) L1 L2 L1' L2' :
  NoDup (L1 ++ p :: L2) -> L1 ++ p :: L2 = L1' ++ p :: L2' ->
  L1 = L1' /\ L2 = L2'.
Proof.
  revert L1'. induction L1 as [|a L1 IH]; intros L1' Hnd E.
  - destruct L1' as [|b L1']; cbn in *; [by simplify_eq|].
    simplify_eq. apply NoDup_cons in Hnd as [Hn _]. set_solver.
  - destruct L1' as [|b L1']; cbn in *; simplify_eq.
    + apply NoDup_cons in Hnd as [Hn _]. set_solver.
    + apply NoDup_cons in Hnd as [_ Hnd].
      destruct (IH L1' Hnd) as [-> ->]; done.
Qed.

Lemma next_spec sz rt m t L1 p L2 Q :
  linked (AvlTree sz rt m) t -> ids t = L1 ++ p :: L2 ->
  Q (head L2) (AvlTree sz rt m) ->
  wp (next p) (AvlTree sz rt m) Q.
Proof.
  intros Hlk EL HQ.
  destruct (focus_at t p) as (c & l & h & v & r & ->).
  { rewrite EL. set_solver. }
  pose proof (lk_nodup _ _ Hlk) as Hnd.
  assert (E : ids (plug c (Node l p h v r))
              = ((before c).*1 ++ ids l) ++ p :: (ids r ++ (after c).*1)).
  { rewrite ids_plug, ids_node. by repeat (rewrite <- app_assoc; cbn). }
  rewrite EL in Hnd. rewrite EL in E.
  apply NoDup_split_unique in E as [-> ->]; [|done].
  pose proof (linked_root_lookup _ _ _ _ _ _ _ _ _ Hlk) as Hp.
  pose proof (count_fuel _ _ Hlk) as Hfuel.
  unfold next. wp_go.
  destruct r as [|rl y hy vy rr]; cbn [root_of].
  - wp_go. eapply (next_up_spec c); [exact Hlk|done| |done].
    cnt_ctx.
  - wp_go. wp_bind_syn.
    apply linked_plug in Hlk as (_ & _ & (_ & _ & Hr) & _).
    eapply (leftmost_head (Node rl y hy vy rr)); [exact Hr|done| |].
    + pose proof (depth_count (Node rl y hy vy rr)). cnt_ctx.
    + intros s Hs. wp_go.
      destruct (ids (Node rl y hy vy rr)); [done|]. cbn in *. by rewrite Hs in HQ.
Qed.

Lemma prev_spec sz rt m t L1 p L2 Q :
  linked (AvlTree sz rt m) t -> ids t = L1 ++ p :: L2 ->
  Q (last L1) (AvlTree sz rt m) ->
  wp (prev p) (AvlTree sz rt m) Q.
Proof.
  intros Hlk EL HQ.
  destruct (focus_at t p) as (c & l & h & v & r & ->).
  { rewrite EL. set_solver. }
  pose proof (lk_nodup _ _ Hlk) as Hnd.
  assert (E : ids (plug c (Node l p h v r))
              = ((before c).*1 ++ ids l) ++ p :: (ids r ++ (after c).*1)).
  { rewrite ids_plug, ids_node. by repeat (rewrite <- app_assoc; cbn). }
  rewrite EL in Hnd. rewrite EL in E.
  apply NoDup_split_unique in E as [-> ->]; [|done].
  pose proof (linked_root_lookup _ _ _ _ _ _ _ _ _ Hlk) as Hp.
  pose proof (count_fuel _ _ Hlk) as Hfuel.
  unfold prev. wp_go.
  destruct l as [|ll y hy vy lr]; cbn [root_of].
  - wp_go. eapply (prev_up_spec c); [exact Hlk|done| |].
    + cnt_ctx.
    + rewrite ids_leaf, app_nil_r in HQ. done.
  - wp_go. wp_bind_syn.
    apply linked_plug in Hlk as (_ & _ & (_ & Hl & _) & _).
    eapply (rightmost_last (Node ll y hy vy lr)); [exact Hl|done| |].
    + pose proof (depth_count (Node ll y hy vy lr)). cnt_ctx.
    + intros s Hs. wp_go.
      rewrite last_app, Hs in HQ. done.
Qed.

End Traverse.

(** * clear *)

Section ClearSpec.
Context {T : Type}.
Implicit Types (m : gmap positive (avl_node T)) (t l r : @tree T).
Implicit Types (c : list (@frame T)).

Lemma preorder_perm t : preorder t ≡ₚ ids t.
Proof.
  induction t as [|l IHl p h v r IHr]; [done|].
  rewrite ids_node. cbn. rewrite IHl, IHr. by rewrite Permutation_middle.
Qed.

Lemma wp_handler handler p s (Q : unit -> avl_tree T -> Prop) :
  handler_local handler ->
  (forall s', (forall q, q ≠ p -> nodes s' !! q = nodes s !! q) -> Q tt s') ->
  wp (handler p) s Q.
Proof.
  intros Hh HQ. destruct (Hh p s) as (s' & Hrun & Hfr).
  unfold wp. rewrite Hrun. by apply HQ.
Qed.

Lemma clear_impl_spec handler t :
  forall fuel par p s (Q : list positive -> avl_tree T -> Prop),
  handler_local handler ->
  Repr (nodes s) par t -> NoDup (ids t) -> root_of t = Some p ->
  (depth t <= fuel)%nat ->
  (forall s', (forall q, q ∉ ids t -> nodes s' !! q = nodes s !! q) ->
     Q (preorder t) s') ->
  wp (clear_impl handler fuel p) s Q.
Proof.
  induction t as [|l IHl x h v r IHr];
    intros fuel par p s Q Hh HR Hnd [= <-] Hf HQ.
  destruct fuel as [|fuel]; [cbn in Hf; lia|]. cbn in Hf.
  destruct s as [sz rt m]. cbn [nodes] in *.
  destruct HR as (Hx & Hl & Hr). rewrite ids_node in Hnd. nd.
  assert (Hright : forall s2 vl,
    (forall q, q ≠ x -> q ∉ ids l -> nodes s2 !! q = m !! q) ->
    vl = preorder l ->
    wp (bind (match root_of r with
              | Some r' => clear_impl handler fuel r'
              | None => ret []
              end) (fun vr => ret (x :: vl ++ vr))) s2 Q).
  { intros s2 vl Hfr2 ->. apply wp_bind.
    destruct r as [|rl z hz vz rr]; cbn [root_of].
    - do 2 apply wp_ret. apply (HQ s2).
      intros q Hq. rewrite ids_node, ids_leaf in Hq. apply Hfr2; dis.
    - eapply (IHr fuel (Some x)); [done| |done|done|lia|].
      { eapply Repr_frame; [exact Hr|]. intros q Hq. apply Hfr2; dis. }
      intros s3 Hfr3. apply wp_ret. apply (HQ s3).
      intros q Hq. rewrite !ids_node in Hq. rewrite Hfr3, Hfr2; [done|dis..]. }
  cbn [clear_impl]. wp_go. wp_bind_syn.
  apply wp_handler; [done|]. intros s1 Hfr1. cbn [nodes] in Hfr1.
  destruct l as [|ll y hy vy lr]; cbn [root_of].
  - apply wp_bind, wp_ret. apply Hright; [|done].
    intros q ? _. by apply Hfr1.
  - apply wp_bind. eapply (IHl fuel (Some x)); [done| |done|done|lia|].
    { eapply Repr_frame; [exact Hl|]. intros q Hq. apply Hfr1. dis. }
    intros s2 Hfr2. apply Hright; [|done].
    intros q ? ?. rewrite Hfr2 by done. by apply Hfr1.
Qed.

Lemma find_loop_none value_comp fuel (v : T) :
  find_loop value_comp fuel v None = ret None.
Proof. by destruct fuel. Qed.

Lemma clear_spec handler sz rt m t (Q : list positive -> avl_tree T -> Prop) :
  handler_local handler ->
  linked (AvlTree sz rt m) t -> t ≠ Leaf ->
  (forall s', mRoot s' = None -> mSize s' = 0 ->
     (forall q, q ∉ ids t -> nodes s' !! q = m !! q) ->
     Q (preorder t) s') ->
  wp (clear handler) (AvlTree sz rt m) Q.
Proof.
  intros Hh Hlk Ht HQ.
  pose proof (count_fuel _ _ Hlk) as Hfuel. pose proof (depth_count t).
  destruct Hlk as [Hrt HR Hnd]. cbn [mRoot nodes] in *. subst rt.
  destruct (root_of t) as [p|] eqn:Hp; [|by destruct t].
  unfold clear. wp_go.
  eapply (clear_impl_spec handler t); [done|exact HR|done|done|lia|].
  intros [sz' rt' m'] Hfr. cbn [nodes] in Hfr. wp_go. by apply HQ.
Qed.

End ClearSpec.

(** * The operations, end to end *)

Section Operations.
Context {T : Type}.
Variable value_comp : T -> T -> bool.
Implicit Types (m : gmap positive (avl_node T)) (t l r : @tree T).
Implicit Types (c : list (@frame T)).
Implicit Types (s : avl_tree T).

Lemma wp_elim {A} (c : M T A) s Q :
  wp c s Q -> exists a s', c s = Some (a, s') /\ Q a s'.
Proof. apply wp_run. Qed.

Lemma find_run v s t :
  linked s t -> find value_comp v s = Some (find_tree value_comp v t, s).
Proof.
  intros Hlk. destruct s as [sz rt m].
  pose proof (find_spec value_comp v sz rt m t
    (fun res s' => res = find_tree value_comp v t /\ s' = AvlTree sz rt m)
    Hlk (conj eq_refl eq_refl)) as Hf.
  by apply wp_elim in Hf as (res & s' & -> & -> & ->).
Qed.

(** C6. [insert_unique] on a tree in BST order: when a stored value compares
    equal to the incoming one it returns false and changes nothing (tree and
    incoming node alike), and that stored node is the only one comparing
    equal; when none does, it returns true with the node linked at its place
    in order, the size one larger, and [find] of its value returns it. *)
Theorem insert_unique_rejects_or_links s t n cell :
  strict_weak_order value_comp ->
  linked s t -> bst value_comp t -> hok t ->
  Z.of_nat (count t) + 1 < 2 ^ 31 ->
  nodes s !! n = Some cell -> n ∉ ids t ->
  ((exists p w, (p, w) ∈ elems t /\ equivalent value_comp (elem cell) w) ->
     insert_unique value_comp n s = Some (false, s)
     /\ exists p w, (p, w) ∈ elems t /\ equivalent value_comp (elem cell) w
          /\ forall p' w', (p', w') ∈ elems t ->
               equivalent value_comp (elem cell) w' -> p' = p)
  /\ ((forall p w, (p, w) ∈ elems t -> ~ equivalent value_comp (elem cell) w) ->
     exists s' t',
       insert_unique value_comp n s = Some (true, s')
       /\ linked s' t'
       /\ (exists e1 e2, elems t = e1 ++ e2
             /\ elems t' = e1 ++ (n, elem cell) :: e2)
       /\ bst value_comp t' /\ hok t'
       /\ mSize s' = size_wrap (mSize s + 1)
       /\ find value_comp (elem cell) s' = Some (Some n, s')).
Proof.
  intros Hsw Hlk Hbst Hok Hc Hn Hfresh. destruct s as [sz rt m]. cbn [nodes mSize] in *.
  assert (Hord : ordered value_comp (elems t)).
  { apply bst_ordered; [apply Hsw|done]. }
  pose proof (insert_unique_spec value_comp sz rt m t n cell
    (fun b s' => match slot_unique value_comp (elem cell) t [] with
                 | None => b = false /\ s' = AvlTree sz rt m
                 | Some c' => b = true /\ linked s' (insert_at c' n (elem cell))
                              /\ mSize s' = size_wrap (sz + 1)
                 end) Hlk Hn Hfresh Hok Hc ltac:(done)) as Hwp.
  apply wp_elim in Hwp as (b & s' & Hrun & Hpost).
  destruct (slot_unique value_comp (elem cell) t []) as [c'|] eqn:Hslot.
  - destruct Hpost as (-> & Hlk' & Hsz). split.
    + intros (p & w & Hin & Heq). exfalso.
      by eapply slot_unique_some.
    + intros _.
      pose proof (slot_unique_plug _ _ _ _ _ Hslot) as Hplug. rewrite plug_nil in Hplug.
      destruct (insert_at_ok c' n (elem cell)) as [Hok' He']; [by rewrite Hplug..|].
      assert (Het : elems t = before c' ++ after c').
      { by rewrite <- Hplug, elems_plug. }
      assert (Hord' : ordered value_comp (elems (insert_at c' n (elem cell)))).
      { rewrite He'. apply ordered_insert; [done|by rewrite <- Het|].
        eapply slot_unique_fits; [done| |apply fits_nil|exact Hslot].
        by rewrite plug_nil. }
      exists s', (insert_at c' n (elem cell)).
      split_and!; [done|done|by eauto| |done|done|].
      * apply bst_ordered; [apply Hsw|done].
      * rewrite (find_run _ _ _ Hlk'). do 2 f_equal.
        apply find_tree_member; [done..|]. rewrite He'. set_solver.
  - destruct Hpost as [-> ->]. split.
    + intros _. split; [done|].
      destruct (slot_unique_none _ _ _ _ Hslot) as (p & w & Hin & Heq).
      exists p, w. split_and!; [done..|].
      intros p' w' Hin' Heq'.
      eapply (ordered_equiv_unique value_comp (elem cell) (elems t)); try done.
      by destruct Hlk.
    + intros Hno. exfalso.
      destruct (slot_unique_none _ _ _ _ Hslot) as (p & w & Hin & Heq).
      by eapply Hno.
Qed.

(** *** erase of a node with two children *)

Lemma leftmost_run s par r y0 :
  Repr (nodes s) par r -> root_of r = Some y0 ->
  (depth r < fuel_of s)%nat ->
  exists sn, root_of (min_ctx r []).2 = Some sn
    /\ leftmost (fuel_of s) y0 s = Some (sn, s).
Proof.
  intros HR Hr0 Hf. destruct s as [sz rt m]. cbn [nodes] in *.
  pose proof (leftmost_spec r (fuel_of (AvlTree sz rt m)) par y0 sz rt m
    (fun sn s' => root_of (min_ctx r []).2 = Some sn /\ s' = AvlTree sz rt m)
    HR Hr0 ltac:(lia) ltac:(done)) as Hwp.
  apply wp_elim in Hwp as (sn & s' & Hrun & Hsn & ->). eauto.
Qed.

Lemma erase_unlink_cells sz rt m c l x h v r :
  let s := AvlTree sz rt m in
  let nx := AvlNode (cparent c) (root_of l) (root_of r) h v in
  linked s (plug c (Node l x h v r)) -> l ≠ Leaf -> r ≠ Leaf ->
  exists sn ns start s1,
    (exists L1 L2, ids (plug c (Node l x h v r)) = L1 ++ x :: sn :: L2)
    /\ (exists y0, root_of r = Some y0
          /\ leftmost (fuel_of s) y0 s = Some (sn, s))
    /\ m !! sn = Some ns /\ mLeft ns = None
    /\ erase_unlink x s = Some (start, s1)
    /\ (let direct := bool_decide (mParent ns = Some x) in
        nodes s1 !! sn
          = Some (AvlNode (mParent nx) (mLeft nx)
                    (if direct then mRight ns else mRight nx)
                    (mHeight nx) (elem ns))
        /\ start = (if direct then Some sn else mParent ns)
        /\ (direct = false ->
            exists p np, mParent ns = Some p /\ nodes s1 !! p = Some np
              /\ mLeft np = mRight ns)
        /\ (forall ch, mRight ns = Some ch ->
            exists nch, nodes s1 !! ch = Some nch /\ mParent nch = start)).
Proof.
  intros s nx Hlk Hl Hr. subst s nx.
  destruct (min_ctx_cases r Hr) as (sn & hs & vs & sr & Hmin & Hcase).
  pose proof (min_ctx_plug r []) as Hplug. rewrite Hmin, plug_nil in Hplug.
  pose proof (min_ctx_before r []) as Hb. cbn in Hb.
  (* run the unlink *)
  pose proof (erase_unlink_two_spec sz rt m c l x h v r
    (fun start s1 => start = unlink2_start r
       /\ linked s1 (unlink2_tree c l r h)) Hlk Hl Hr
    ltac:(intros; split; [done|done])) as Hwp.
  apply wp_elim in Hwp as (start & [sz1 rt1 m1] & Hrun & -> & Hlk1).
  unfold unlink2_start, unlink2_tree in *. rewrite Hmin in *.
  remember (min_ctx r []).1 as cr eqn:Ecr. clear Ecr.
  (* the successor's record *)
  assert (Hlk0 := Hlk). rewrite <- Hplug in Hlk0.
  change (plug c (Node l x h v (plug cr (Node Leaf sn hs vs sr))))
    with (plug c (fill (FR l x h v) (plug cr (Node Leaf sn hs vs sr)))) in Hlk0.
  rewrite <- plug_cons, <- plug_app in Hlk0.
  pose proof (linked_root_lookup _ _ _ _ _ _ _ _ _ Hlk0) as Hsn.
  (* the left-most node of the right subtree *)
  assert (HRr : Repr m (Some x) r).
  { by apply linked_plug in Hlk as (_ & _ & (_ & _ & ?) & _). }
  destruct (root_of r) as [y0|] eqn:Hr0; [|by destruct r].
  destruct (leftmost_run (AvlTree sz rt m) (Some x) r y0 HRr Hr0) as (sn' & Hsn' & Hleft).
  { pose proof (count_fuel _ _ Hlk) as Hf. pose proof (depth_count r).
    rewrite count_plug, count_node in Hf. lia. }
  rewrite Hmin in Hsn'. cbn in Hsn'.
  assert (sn' = sn) by congruence. subst sn'. clear Hsn'.
  exists sn. do 3 eexists.
  split; [|split; [by eauto|split; [exact Hsn|split; [done|split; [exact Hrun|]]]]].
  { exists ((before c).*1 ++ ids l), ((elems sr).*1 ++ (after cr).*1 ++ (after c).*1).
    assert (Er : ids r = sn :: (elems sr).*1 ++ (after cr).*1).
    { unfold ids. rewrite <- Hplug, elems_plug, Hb. cbn. by rewrite fmap_app. }
    rewrite ids_plug, ids_node, Er. by repeat (rewrite <- app_assoc; cbn). }
  cbn [mParent mLeft mRight mHeight elem].
  pose proof (linked_root_lookup _ _ _ _ _ _ _ _ _ Hlk1) as Hs1.
  pose proof (lk_nodup _ _ Hlk0) as Hnd0.
  cbn [nodes].
  destruct Hcase as [[-> _]|(p1 & h1 & v1 & r1 & cr' & -> & Hr' & _)];
    cbn [app cparent frame_node root_of] in *.
  - rewrite bool_decide_eq_true_2 by done. rewrite plug_nil in Hs1, Hlk1.
    split_and!; [done|done|done|].
    intros ch Hch. destruct sr as [|a ch' hc vc b]; [done|]. cbn in Hch. simplify_eq.
    focus_right Hlk1.
    pose proof (linked_root_lookup _ _ _ _ _ _ _ _ _ Hlk1) as Hc1.
    eexists. split; [exact Hc1|done].
  - assert (Hp1 : p1 ≠ x).
    { rewrite plug_cons in Hnd0. cbn [fill] in Hnd0.
      rewrite plug_app, plug_cons in Hnd0. cbn [fill] in Hnd0.
      rewrite ids_plug_perm, ids_node in Hnd0.
      apply NoDup_app in Hnd0 as (Hnd0 & _ & _).
      apply NoDup_app in Hnd0 as (_ & _ & Hnd0).
      apply NoDup_cons in Hnd0 as [Hnd0 _].
      intros ->. apply Hnd0.
      rewrite ids_plug_perm, ids_node. set_solver. }
    rewrite bool_decide_eq_false_2 by congruence.
    assert (Eroot' : Some y0 = root_of (plug (FL p1 h1 v1 r1 :: cr') sr)).
    { rewrite <- Hr0, <- Hplug. by rewrite !root_of_plug. }
    split_and!.
    + rewrite Hs1. by rewrite <- Eroot'.
    + done.
    + intros _.
      assert (Etree : plug c (Node l sn h vs (plug (FL p1 h1 v1 r1 :: cr') sr))
                      = plug (cr' ++ FR l sn h vs :: c) (Node sr p1 h1 v1 r1)).
      { by rewrite plug_app, !plug_cons. }
      rewrite Etree in Hlk1.
      pose proof (linked_root_lookup _ _ _ _ _ _ _ _ _ Hlk1) as Hp1'.
      eexists p1, _. split_and!; [done|exact Hp1'|done].
    + intros ch Hch. destruct sr as [|a ch' hc vc b]; [done|]. cbn in Hch. simplify_eq.
      assert (Etree : plug c (Node l sn h vs (plug (FL p1 h1 v1 r1 :: cr') (Node a ch hc vc b)))
                      = plug (FL p1 h1 v1 r1 :: cr' ++ FR l sn h vs :: c) (Node a ch hc vc b)).
      { by rewrite !plug_cons, plug_app, !plug_cons. }
      rewrite Etree in Hlk1.
      pose proof (linked_root_lookup _ _ _ _ _ _ _ _ _ Hlk1) as Hc1.
      eexists. split; [exact Hc1|done].
Qed.

Lemma ordered_remove (e1 e2 : list (positive * T)) a :
  ordered value_comp (e1 ++ a :: e2) -> ordered value_comp (e1 ++ e2).
Proof.
  unfold ordered. rewrite !StronglySorted_app, StronglySorted_cons.
  intros (H12 & H1 & _ & H2). split_and!; [|done..].
  intros x1 x2 ? ?. apply H12; set_solver.
Qed.

Lemma erase_run_two sz rt m c l x h v r :
  linked (AvlTree sz rt m) (plug c (Node l x h v r)) ->
  l ≠ Leaf -> r ≠ Leaf ->
  hok (plug c (Node l x h v r)) ->
  Z.of_nat (count (plug c (Node l x h v r))) < 2 ^ 31 ->
  exists s2 t2,
    erase x (AvlTree sz rt m) = Some (tt, s2)
    /\ mSize s2 = size_wrap (sz - 1)
    /\ linked s2 t2 /\ hok t2
    /\ elems t2 = (before c ++ elems l) ++ elems r ++ after c.
Proof.
  intros Hlk Hl Hr Hok Hc.
  pose proof (erase_two_spec sz rt m c l x h v r
    (fun _ s2 => linked s2 (erase2_tree c l r h) /\ mSize s2 = size_wrap (sz - 1))
    Hlk Hl Hr Hok Hc ltac:(done)) as Hwp.
  apply wp_elim in Hwp as ([] & s2 & Hrun & Hlk2 & Hsz).
  destruct (erase2_tree_ok c l x h v r Hok Hc Hr) as [Hok2 He2].
  exists s2, (erase2_tree c l r h). split_and!; [done..|].
  by rewrite He2, <- app_assoc.
Qed.

(** C5. [erase] of a linked node with two children, in a tree in BST order
    with right stored heights.  The successor [sn] comes right after the
    node in order, is the left-most node of its right subtree and has no
    left child.  After the splice [sn] carries the node's parent, left and
    height, and as right child the node's own (what is left of it once [sn]
    is out: the former right child of [sn] when [sn] was the direct right
    child); the right child of [sn] hangs where [sn] was; the walk starts at
    the old parent of [sn], or at [sn] when that parent was the node.  In
    the end the size is one less, the tree is in order without the node, and
    every other stored value is found at its node. *)
Theorem erase_two_children s t x nx :
  strict_weak_order value_comp ->
  linked s t -> bst value_comp t -> hok t ->
  Z.of_nat (count t) < 2 ^ 31 ->
  nodes s !! x = Some nx -> x ∈ ids t ->
  mLeft nx ≠ None -> mRight nx ≠ None ->
  exists sn ns start s1 s2 t2,
    (exists L1 L2, ids t = L1 ++ x :: sn :: L2)
    /\ (exists y0, mRight nx = Some y0
          /\ leftmost (fuel_of s) y0 s = Some (sn, s))
    /\ nodes s !! sn = Some ns /\ mLeft ns = None
    /\ erase_unlink x s = Some (start, s1)
    /\ (let direct := bool_decide (mParent ns = Some x) in
        nodes s1 !! sn
          = Some (AvlNode (mParent nx) (mLeft nx)
                    (if direct then mRight ns else mRight nx)
                    (mHeight nx) (elem ns))
        /\ start = (if direct then Some sn else mParent ns)
        /\ (direct = false ->
            exists p np, mParent ns = Some p /\ nodes s1 !! p = Some np
              /\ mLeft np = mRight ns)
        /\ (forall ch, mRight ns = Some ch ->
            exists nch, nodes s1 !! ch = Some nch /\ mParent nch = start))
    /\ erase x s = Some (tt, s2)
    /\ mSize s2 = size_wrap (mSize s - 1)
    /\ linked s2 t2 /\ bst value_comp t2 /\ hok t2
    /\ (exists e1 e2, elems t = e1 ++ (x, elem nx) :: e2
          /\ elems t2 = e1 ++ e2)
    /\ (forall p w, (p, w) ∈ elems t -> p ≠ x ->
          find value_comp w s2 = Some (Some p, s2)).
Proof.
  intros Hsw Hlk Hbst Hok Hc Hx Hin Hnl Hnr.
  destruct s as [sz rt m]. cbn [nodes mSize] in *.
  destruct (focus_at t x Hin) as (c & l & h & v & r & ->).
  pose proof (linked_root_lookup _ _ _ _ _ _ _ _ _ Hlk) as Hx'.
  rewrite Hx in Hx'. injection Hx' as ->. cbn [mLeft mRight] in Hnl, Hnr.
  assert (Hl : l ≠ Leaf) by (by intros ->).
  assert (Hr : r ≠ Leaf) by (by intros ->).
  destruct (erase_unlink_cells sz rt m c l x h v r Hlk Hl Hr)
    as (sn & ns & start & s1 & Hsucc & Hleft & Hsn & Hnsl & Hun & Hcells).
  destruct (erase_run_two sz rt m c l x h v r Hlk Hl Hr Hok Hc)
    as (s2 & t2 & Hrun & Hsz & Hlk2 & Hok2 & He2).
  assert (Het : elems (plug c (Node l x h v r))
                = (before c ++ elems l) ++ (x, v) :: elems r ++ after c).
  { rewrite elems_plug. cbn. by repeat (rewrite <- app_assoc; cbn). }
  assert (Hord : ordered value_comp (elems (plug c (Node l x h v r)))).
  { apply bst_ordered; [apply Hsw|done]. }
  assert (Hord2 : ordered value_comp (elems t2)).
  { rewrite He2. eapply ordered_remove. by rewrite <- Het. }
  exists sn, ns, start, s1, s2, t2.
  split; [done|]. split; [done|]. split; [done|]. split; [done|].
  split; [done|]. split; [exact Hcells|]. split; [done|]. split; [done|].
  split; [done|]. split; [by apply bst_ordered; [apply Hsw|]|].
  split; [done|]. split; [by eauto|].
  intros p w Hp Hpx. rewrite (find_run _ _ _ Hlk2). do 2 f_equal.
  apply find_tree_member; [done..|].
  rewrite He2. rewrite Het in Hp. set_solver.
Qed.

(** *** insert_multi *)

Lemma insert_multi_links s t n cell :
  linked s t -> hok t -> Z.of_nat (count t) + 1 < 2 ^ 31 ->
  nodes s !! n = Some cell -> n ∉ ids t ->
  exists s' t',
    insert_multi value_comp n s = Some (tt, s')
    /\ linked s' t'
    /\ (exists e1 e2, elems t = e1 ++ e2
          /\ elems t' = e1 ++ (n, elem cell) :: e2)
    /\ hok t'
    /\ mSize s' = size_wrap (mSize s + 1).
Proof.
  intros Hlk Hok Hc Hn Hfresh. destruct s as [sz rt m]. cbn [nodes mSize] in *.
  set (c' := slot_multi value_comp (elem cell) t []).
  pose proof (insert_multi_spec value_comp sz rt m t n cell
    (fun _ s' => linked s' (insert_at c' n (elem cell))
                 /\ mSize s' = size_wrap (sz + 1))
    Hlk Hn Hfresh Hok Hc ltac:(done)) as Hwp.
  apply wp_elim in Hwp as ([] & s' & Hrun & Hlk' & Hsz).
  pose proof (slot_multi_plug value_comp (elem cell) t []) as Hplug.
  fold c' in Hplug. rewrite plug_nil in Hplug.
  destruct (insert_at_ok c' n (elem cell)) as [Hok' He']; [by rewrite Hplug..|].
  exists s', (insert_at c' n (elem cell)).
  split_and!; [done|done| |done|done].
  exists (before c'), (after c'). split; [|done].
  by rewrite <- Hplug, elems_plug.
Qed.

Lemma bind_run {A B} (c : M T A) (k : A -> M T B) s a s' :
  c s = Some (a, s') -> bind c k s = k a s'.
Proof. unfold bind. by intros ->. Qed.

Lemma load_run s p n : nodes s !! p = Some n -> load p s = Some (n, s).
Proof. unfold load. by intros ->. Qed.

Lemma value_run s p n : nodes s !! p = Some n -> value p s = Some (elem n, s).
Proof. intros H. unfold value. by rewrite (bind_run _ _ _ _ _ (load_run _ _ _ H)). Qed.
Lemma left_run s p n : nodes s !! p = Some n -> left p s = Some (mLeft n, s).
Proof. intros H. unfold left. by rewrite (bind_run _ _ _ _ _ (load_run _ _ _ H)). Qed.
Lemma right_run s p n : nodes s !! p = Some n -> right p s = Some (mRight n, s).
Proof. intros H. unfold right. by rewrite (bind_run _ _ _ _ _ (load_run _ _ _ H)). Qed.
Lemma height_run s p n : nodes s !! p = Some n -> height p s = Some (mHeight n, s).
Proof. intros H. unfold height. by rewrite (bind_run _ _ _ _ _ (load_run _ _ _ H)). Qed.

(** On a tie at a node with both children the descent goes on from the
    left child when its stored height is strictly smaller and from the right
    child otherwise. *)
Lemma insert_multi_tie_step s fuel n cn p cp y cy z cz :
  nodes s !! n = Some cn -> nodes s !! p = Some cp ->
  equivalent value_comp (elem cn) (elem cp) ->
  mLeft cp = Some y -> mRight cp = Some z ->
  nodes s !! y = Some cy -> nodes s !! z = Some cz ->
  insert_multi_loop value_comp (S fuel) n p s
  = insert_multi_loop value_comp fuel n
      (if mHeight cy <? mHeight cz then y else z) s.
Proof.
  intros Hn Hp [E1 E2] Hl Hr Hy Hz.
  cbn [insert_multi_loop].
  rewrite (bind_run _ _ _ _ _ (value_run _ _ _ Hn)).
  rewrite (bind_run _ _ _ _ _ (value_run _ _ _ Hp)).
  rewrite E1, E2.
  rewrite (bind_run _ _ _ _ _ (left_run _ _ _ Hp)), Hl.
  rewrite (bind_run _ _ _ _ _ (right_run _ _ _ Hp)), Hr.
  rewrite (bind_run _ _ _ _ _ (height_run _ _ _ Hy)).
  rewrite (bind_run _ _ _ _ _ (height_run _ _ _ Hz)).
  by destruct (_ <? _).
Qed.

(** *** clear *)

(** The walk and the handler calls: what [clear_impl] does to the state is
    the handler run on the nodes in pre-order, one call after the other. *)

Lemma visit_all_app (handler : positive -> M T unit) ps qs s :
  visit_all handler (ps ++ qs) s
  = bind (visit_all handler ps) (fun _ => visit_all handler qs) s.
Proof.
  revert s. induction ps as [|p ps IH]; intros s; [done|].
  cbn [app visit_all]. unfold bind.
  destruct (handler p s) as [[[] s1]|]; [|done]. by rewrite IH.
Qed.

Lemma visit_all_frame (handler : positive -> M T unit) ps s :
  handler_local handler ->
  exists s', visit_all handler ps s = Some (tt, s')
    /\ forall q, q ∉ ps -> nodes s' !! q = nodes s !! q.
Proof.
  intros Hh. revert s. induction ps as [|p ps IH]; intros s.
  - by exists s.
  - destruct (Hh p s) as (s1 & Hrun & Hfr1).
    destruct (IH s1) as (s2 & Hrun2 & Hfr2).
    exists s2. split.
    + cbn [visit_all]. unfold bind. by rewrite Hrun.
    + intros q Hq. apply not_elem_of_cons in Hq as [? ?].
      rewrite Hfr2 by done. by apply Hfr1.
Qed.

Lemma clear_impl_run handler t :
  forall fuel par s,
  handler_local handler ->
  Repr (nodes s) par t -> NoDup (ids t) -> (depth t <= fuel)%nat ->
  exists s',
    match root_of t with
    | Some p => clear_impl handler fuel p
    | None => ret []
    end s = Some (preorder t, s')
    /\ visit_all handler (preorder t) s = Some (tt, s').
Proof.
  induction t as [|l IHl x h v r IHr]; intros fuel par s Hh HR Hnd Hf.
  { by exists s. }
  destruct fuel as [|fuel]; [cbn in Hf; lia|]. cbn in Hf.
  cbn [root_of preorder clear_impl visit_all].
  pose proof HR as (Hx & Hl & Hr). rewrite ids_node in Hnd.
  apply NoDup_app in Hnd as (Hndl & Hxl & Hnd).
  apply NoDup_cons in Hnd as (Hxr & Hndr).
  rewrite (bind_run _ _ _ _ _ (left_run _ _ _ Hx)).
  rewrite (bind_run _ _ _ _ _ (right_run _ _ _ Hx)). cbn [mLeft mRight].
  destruct (Hh x s) as (s1 & Hrun1 & Hfr1).
  rewrite (bind_run _ _ _ _ _ Hrun1).
  destruct (IHl fuel (Some x) s1) as (s2 & Hrunl & Hvisl);
    [done| |done|lia|].
  { eapply Repr_frame; [exact Hl|]. intros q Hq. apply Hfr1.
    intros ->. apply (Hxl x Hq), elem_of_cons. by left. }
  destruct (visit_all_frame handler (preorder l) s1 Hh) as (s2' & E & Hfr2).
  rewrite Hvisl in E. injection E as <-.
  destruct (IHr fuel (Some x) s2) as (s3 & Hrunr & Hvisr);
    [done| |done|lia|].
  { eapply Repr_frame; [exact Hr|]. intros q Hq.
    rewrite Hfr2, Hfr1; [done| |].
    - by intros ->.
    - rewrite preorder_perm. intros Hql.
      apply (Hxl q Hql), elem_of_cons. by right. }
  exists s3. split.
  - rewrite (bind_run _ _ _ _ _ Hrunl), (bind_run _ _ _ _ _ Hrunr). done.
  - rewrite (bind_run _ _ _ _ _ Hrun1), visit_all_app.
    rewrite (bind_run _ _ _ _ _ Hvisl). exact Hvisr.
Qed.

Lemma clear_run handler s t :
  handler_local handler -> linked s t -> t ≠ Leaf ->
  exists s1,
    visit_all handler (preorder t) s = Some (tt, s1)
    /\ clear handler s = Some (preorder t, AvlTree 0 None (nodes s1))
    /\ forall q, q ∉ ids t -> nodes s1 !! q = nodes s !! q.
Proof.
  intros Hh Hlk Ht.
  pose proof (count_fuel _ _ Hlk) as Hfuel. pose proof (depth_count t).
  destruct (clear_impl_run handler t (fuel_of s) None s Hh)
    as (s1 & Hrun & Hvis); [by destruct Hlk|by destruct Hlk|lia|].
  destruct (visit_all_frame handler (preorder t) s Hh) as (s1' & E & Hfr).
  rewrite Hvis in E. injection E as <-.
  exists s1. split; [done|]. split.
  - unfold clear. destruct Hlk as [Hrt _ _].
    destruct s as [sz rt m]. cbn [mRoot] in Hrt. subst rt.
    destruct (root_of t) as [p|] eqn:Hp; [|by destruct t].
    unfold bind at 1. cbn [root mRoot]. unfold with_fuel.
    unfold bind at 1. rewrite Hrun. by destruct s1.
  - intros q Hq. apply Hfr. by rewrite preorder_perm.
Qed.

(** C8. [clear] on a non-empty tree, with any handler that only touches the
    storage of the node it is handed (it may wipe or free it): the handler
    runs on the nodes in pre-order, once for each linked node; since the
    children were read before the call, what the handler does to the node
    does not change the walk.  The state [clear] ends in is the one the
    handler calls on the pre-order sequence lead to, one call after the
    other, with the root then set to null and the size to 0; [find] finds
    nothing in it. *)
Theorem clear_visits_preorder handler s t :
  handler_local handler -> linked s t -> t ≠ Leaf ->
  exists s1 s',
    visit_all handler (preorder t) s = Some (tt, s1)
    /\ s' = AvlTree 0 None (nodes s1)
    /\ clear handler s = Some (preorder t, s')
    /\ preorder t ≡ₚ ids t /\ NoDup (preorder t)
    /\ mRoot s' = None /\ mSize s' = 0
    /\ forall v, find value_comp v s' = Some (None, s').
Proof.
  intros Hh Hlk Ht.
  destruct (clear_run handler s t Hh Hlk Ht) as (s1 & Hvis & Hrun & _).
  exists s1, (AvlTree 0 None (nodes s1)).
  split; [done|]. split; [done|]. split; [done|].
  split; [apply preorder_perm|]. split.
  - rewrite preorder_perm. by destruct Hlk.
  - split; [done|]. split; [done|]. intros v.
    unfold find, bind, root, with_fuel. cbn. by rewrite find_loop_none.
Qed.

(** *** next and prev *)

Lemma next_run s t L1 p L2 :
  linked s t -> ids t = L1 ++ p :: L2 -> next p s = Some (head L2, s).
Proof.
  intros Hlk E. destruct s as [sz rt m].
  pose proof (next_spec sz rt m t L1 p L2
    (fun res s' => res = head L2 /\ s' = AvlTree sz rt m) Hlk E ltac:(done)) as Hwp.
  by apply wp_elim in Hwp as (res & s' & -> & -> & ->).
Qed.

Lemma prev_run s t L1 p L2 :
  linked s t -> ids t = L1 ++ p :: L2 -> prev p s = Some (last L1, s).
Proof.
  intros Hlk E. destruct s as [sz rt m].
  pose proof (prev_spec sz rt m t L1 p L2
    (fun res s' => res = last L1 /\ s' = AvlTree sz rt m) Hlk E ltac:(done)) as Hwp.
  by apply wp_elim in Hwp as (res & s' & -> & -> & ->).
Qed.

Lemma prev_walk_run s t : linked s t ->
  forall L2 L1 p, ids t = L1 ++ p :: L2 ->
  prev_walk (length L1) p s = Some (reverse (L1 ++ [p]), s).
Proof.
  intros Hlk L2 L1. revert L2.
  induction L1 as [|a L1 IH] using rev_ind; intros L2 p E.
  - done.
  - rewrite length_app. cbn [length]. rewrite Nat.add_1_r. cbn [prev_walk].
    unfold bind. rewrite (prev_run _ _ _ _ _ Hlk E), last_snoc.
    rewrite <- app_assoc in E. cbn in E.
    rewrite (IH _ _ E). unfold ret. by rewrite (reverse_app _ [p]).
Qed.

Lemma elem_of_split (L : list positive) p :
  p ∈ L -> exists L1 L2, L = L1 ++ p :: L2.
Proof. apply list_elem_of_split. Qed.

(** C9. On the linked nodes of a tree, whatever their order of values,
    [next] and [prev] undo each other; walking [prev] from the last node in
    order passes every node, in reverse order, and ends at the first;
    [prev] of the first node and [next] of the last are null. *)
Theorem next_prev_inverse s t :
  linked s t ->
  (forall p q, p ∈ ids t -> q ∈ ids t ->
     next p s = Some (Some q, s) <-> prev q s = Some (Some p, s))
  /\ (forall pmax, last (ids t) = Some pmax ->
        prev_walk (length (ids t) - 1) pmax s = Some (reverse (ids t), s)
        /\ last (reverse (ids t)) = head (ids t)
        /\ next pmax s = Some (None, s))
  /\ (forall pmin, head (ids t) = Some pmin -> prev pmin s = Some (None, s)).
Proof.
  intros Hlk. pose proof (lk_nodup _ _ Hlk) as Hnd. split_and!.
  - intros p q Hp Hq.
    destruct (elem_of_split _ _ Hp) as (L1 & L2 & E).
    destruct (elem_of_split _ _ Hq) as (M1 & M2 & E').
    rewrite (next_run _ _ _ _ _ Hlk E), (prev_run _ _ _ _ _ Hlk E').
    split; intros [= H].
    + destruct L2 as [|q' L2]; [done|]. cbn in H. simplify_eq.
      assert (E2 : ids t = (L1 ++ [p]) ++ q :: L2) by (by rewrite <- app_assoc).
      rewrite E' in Hnd. rewrite E' in E2.
      apply NoDup_split_unique in E2 as [-> _]; [|done].
      by rewrite last_snoc.
    + destruct M1 as [|p' M1 _] using rev_ind; [done|].
      rewrite last_snoc in H. simplify_eq.
      rewrite <- app_assoc in E'. cbn in E'.
      rewrite E in Hnd. rewrite E in E'.
      apply NoDup_split_unique in E' as [_ ->]; done.
  - intros pmax Hmax.
    destruct (ids t) as [|a L _] eqn:E using rev_ind; [done|].
    rewrite last_snoc in Hmax. simplify_eq.
    assert (E' : ids t = L ++ pmax :: []) by done.
    split_and!.
    + rewrite length_app. cbn [length]. rewrite Nat.add_sub.
      by rewrite (prev_walk_run _ _ Hlk [] L pmax E').
    + apply last_reverse.
    + by rewrite (next_run _ _ _ _ _ Hlk E').
  - intros pmin Hmin.
    destruct (ids t) as [|a L] eqn:E; [done|]. cbn in Hmin. simplify_eq.
    by rewrite (prev_run _ _ [] pmin L Hlk E).
Qed.

(** C10. Stepping the end iterator: [++] leaves it at end; [--] moves it to
    the last node in order, the right-most one, or leaves it at end when the
    tree is empty. *)
Theorem end_iterator_steps s t :
  linked s t ->
  iter_incr None s = Some (None, s)
  /\ (t ≠ Leaf ->
      exists pmax, last (ids t) = Some pmax
        /\ iter_decr None s = Some (Some pmax, s))
  /\ (t = Leaf -> iter_decr None s = Some (None, s)).
Proof.
  intros Hlk. split_and!; [done| |].
  - intros Ht. destruct s as [sz rt m].
    pose proof (count_fuel _ _ Hlk) as Hf. pose proof (depth_count t).
    destruct Hlk as [Hrt HR _]. cbn [mRoot nodes] in *. subst rt.
    destruct (root_of t) as [p|] eqn:Hp; [|by destruct t].
    assert (Hwp : wp (iter_decr None) (AvlTree sz (Some p) m)
              (fun res s' => res = last (ids t) /\ is_Some res
                             /\ s' = AvlTree sz (Some p) m)).
    { unfold iter_decr. wp_go. wp_bind_syn.
      eapply (rightmost_last t); [exact HR|done|lia|].
      intros pm Hpm. wp_go. rewrite Hpm. eauto. }
    apply wp_elim in Hwp as (res & s' & Hrun & -> & [pm Hpm] & ->).
    exists pm. by rewrite Hrun, Hpm.
  - intros ->. destruct s as [sz rt m]. destruct Hlk as [Hrt _ _].
    cbn in Hrt. by subst rt.
Qed.

End Operations.

(** * The operations on trees of integers *)

Import IntTree.

Lemma ltb_strict_weak : strict_weak_order Z.ltb.
Proof.
  split.
  - intros a. apply Z.ltb_irrefl.
  - intros a b d. rewrite !Z.ltb_lt. lia.
  - intros a b d. unfold equivalent. rewrite !Z.ltb_ge. lia.
Qed.

Ltac solve_linked :=
  split;
  [ vm_compute; reflexivity
  | vm_compute; split_and!; first [exact I | reflexivity]
  | apply (bool_decide_unpack _); vm_compute; exact I ].

Lemma s7_linked : linked s7 t7.
Proof. solve_linked. Qed.

Lemma t7_ordered : bst Z.ltb t7.
Proof.
  apply bst_ordered; [apply ltb_strict_weak|].
  apply (bool_decide_unpack _). vm_compute. exact I.
Qed.

Lemma t7_hok : hok t7.
Proof. vm_compute. split_and!; first [exact I | reflexivity]. Qed.

Lemma t7_small : Z.of_nat (count t7) + 1 < 2 ^ 31.
Proof. vm_compute. reflexivity. Qed.

(** ** insert_or_replace goes the wrong way *)

(** C1, as the code has it.  [insert_or_replace] of 5 into the
    tree holding 10 links the new node as the right child of 10, so the
    in-order sequence is 10, 5 and [find 5] returns null. *)
Theorem insert_or_replace_misplaces :
  bind (insert_unique Z.ltb 1) (fun _ => insert_or_replace Z.ltb 2)
    (new_tree (storage [10; 5])) = Some (None, s_replace)
  /\ linked s_replace (Node Leaf 1 2 10 (leaf 2 5))
  /\ find Z.ltb 5 s_replace = Some (None, s_replace).
Proof.
  split_and!.
  - vm_compute. reflexivity.
  - solve_linked.
  - vm_compute. reflexivity.
Qed.

(** ** size *)

(** C3, as the code has it.  [empty()] converts [mSize] to [bool]: it
    answers true exactly when the size is not 0. *)
Theorem empty_is_nonzero_size {T} (s : avl_tree T) :
  empty s = Some (negb (mSize s =? 0), s).
Proof. reflexivity. Qed.

(** ** Balance after erase *)

(** C4, as the code has it.  Insert 2, 1, 3, 0 with
    [insert_unique], then erase the node holding 3: the walk stops at the
    root because its height is unchanged, and leaves it with a left subtree
    of height 2 and no right subtree. *)
Theorem erase_leaves_unbalanced :
  bind (run_all (map (insert_unique Z.ltb) [1; 2; 3; 4]%positive))
    (fun _ => erase 3) (new_tree (storage [2; 1; 3; 0]))
  = Some (tt, s_unbalanced)
  /\ linked s_unbalanced t_unbalanced
  /\ hok t_unbalanced
  /\ ~ balanced t_unbalanced.
Proof.
  split_and!.
  - vm_compute. reflexivity.
  - solve_linked.
  - vm_compute. split_and!; first [exact I | reflexivity].
  - intros (_ & _ & H). vm_compute in H. destruct H as [_ H]. by apply H.
Qed.

(** C2, as the code has it.  [insert_or_replace] into an empty
    tree links the node as the root and returns without touching [mSize]:
    a tree of one node whose size is still 0. *)
Theorem insert_or_replace_empty_keeps_size {T} (value_comp : T -> T -> bool)
    (m : gmap positive (avl_node T)) (n : positive) (cell : avl_node T) :
  m !! n = Some cell ->
  exists s',
    insert_or_replace value_comp n (AvlTree 0 None m) = Some (None, s')
    /\ linked s' (leaf n (elem cell))
    /\ mRoot s' = Some n /\ mSize s' = 0.
Proof.
  intros Hn.
  assert (Hwp : wp (insert_or_replace value_comp n) (AvlTree 0 None m)
            (fun res s' => res = None /\ linked s' (leaf n (elem cell))
                           /\ mRoot s' = Some n /\ mSize s' = 0)).
  { unfold insert_or_replace. wp_go. wp_bind_syn.
    eapply link_as_root_spec; [done|].
    intros s' Hlk Hsz. wp_go. split_and!; [done|done| |done].
    by destruct Hlk. }
  apply wp_elim in Hwp as (res & s' & Hrun & -> & ?). eauto.
Qed.

Lemma insert_or_replace_empty_keeps_size_witness :
  storage [7] !! 1%positive = Some (obj 7)
  /\ exists s',
      insert_or_replace Z.ltb 1 (new_tree (storage [7])) = Some (None, s')
      /\ mRoot s' = Some 1%positive /\ mSize s' = 0.
Proof.
  assert (H : storage [7] !! 1%positive = Some (obj 7))
    by (vm_compute; reflexivity).
  split; [exact H|].
  destruct (insert_or_replace_empty_keeps_size Z.ltb _ _ _ H)
    as (s' & Hrun & _ & Hrt & Hsz).
  exists s'. split; [exact Hrun|]. split; [exact Hrt|exact Hsz].
Defined.

(** ** insert_multi *)

(** C7. [insert_multi] always links the node: on every tree with right
    stored heights the call returns with the node somewhere in the in-order
    sequence and the size one larger, ties or not.  On a tie at a node with
    two children the descent goes to the left child when its stored height
    is strictly smaller and to the right child otherwise.  Inserting 5, 3,
    5, 8, 5 gives size 5 and the in-order values 3, 5, 5, 5, 8. *)
Theorem insert_multi_never_rejects :
  (forall T (value_comp : T -> T -> bool) (s : avl_tree T) t n cell,
     linked s t -> hok t -> Z.of_nat (count t) + 1 < 2 ^ 31 ->
     nodes s !! n = Some cell -> n ∉ ids t ->
     exists s' t',
       insert_multi value_comp n s = Some (tt, s')
       /\ linked s' t'
       /\ (exists e1 e2, elems t = e1 ++ e2
             /\ elems t' = e1 ++ (n, elem cell) :: e2)
       /\ hok t'
       /\ mSize s' = size_wrap (mSize s + 1))
  /\ (forall T (value_comp : T -> T -> bool) (s : avl_tree T)
        fuel n cn p cp y cy z cz,
        nodes s !! n = Some cn -> nodes s !! p = Some cp ->
        equivalent value_comp (elem cn) (elem cp) ->
        mLeft cp = Some y -> mRight cp = Some z ->
        nodes s !! y = Some cy -> nodes s !! z = Some cz ->
        insert_multi_loop value_comp (S fuel) n p s
        = insert_multi_loop value_comp fuel n
            (if mHeight cy <? mHeight cz then y else z) s)
  /\ (run_all (map (insert_multi Z.ltb) [1; 2; 3; 4; 5]%positive)
        (new_tree (storage [5; 3; 5; 8; 5])) = Some (tt, s_multi)
      /\ mSize s_multi = 5
      /\ linked s_multi t_multi
      /\ vals t_multi = [3; 5; 5; 5; 8]).
Proof.
  split_and!.
  - intros T value_comp s t n cell. apply insert_multi_links.
  - intros T value_comp s fuel n cn p cp y cy z cz.
    apply insert_multi_tie_step.
  - vm_compute. reflexivity.
  - vm_compute. reflexivity.
  - solve_linked.
  - reflexivity.
Qed.

(** A node holding 7 again goes into the seven-node tree. *)
Lemma insert_multi_never_rejects_witness :
  linked s7 t7 /\ hok t7 /\ Z.of_nat (count t7) + 1 < 2 ^ 31
  /\ nodes s7 !! 8%positive = Some (obj 7) /\ (8%positive ∉ ids t7)
  /\ exists s' t',
      insert_multi Z.ltb 8 s7 = Some (tt, s')
      /\ linked s' t' /\ mSize s' = size_wrap (mSize s7 + 1).
Proof.
  assert (H8 : nodes s7 !! 8%positive = Some (obj 7)) by (vm_compute; reflexivity).
  assert (Hf : 8%positive ∉ ids t7).
  { apply (bool_decide_unpack _). vm_compute. exact I. }
  split; [exact s7_linked|]. split; [exact t7_hok|]. split; [exact t7_small|].
  split; [exact H8|]. split; [exact Hf|].
  destruct (proj1 insert_multi_never_rejects Z Z.ltb s7 t7 8%positive (obj 7)
              s7_linked t7_hok t7_small H8 Hf)
    as (s' & t' & Hrun & Hlk & _ & _ & Hsz).
  exists s', t'. split; [exact Hrun|]. split; [exact Hlk|exact Hsz].
Defined.

(** ** The seven-node tree *)

Lemma t7_count : Z.of_nat (count t7) < 2 ^ 31.
Proof. vm_compute. reflexivity. Qed.

(** Erasing the root, the node holding 10, whose successor holds 12. *)
Lemma erase_two_children_witness :
  strict_weak_order Z.ltb /\ linked s7 t7 /\ bst Z.ltb t7 /\ hok t7
  /\ Z.of_nat (count t7) < 2 ^ 31
  /\ nodes s7 !! 1%positive = Some (AvlNode None (Some 2%positive) (Some 3%positive) 3 10)
  /\ 1%positive ∈ ids t7
  /\ exists s2 t2,
      erase 1 s7 = Some (tt, s2)
      /\ mSize s2 = size_wrap (mSize s7 - 1)
      /\ linked s2 t2 /\ bst Z.ltb t2
      /\ find Z.ltb 12 s2 = Some (Some 6%positive, s2).
Proof.
  assert (H1 : nodes s7 !! 1%positive
               = Some (AvlNode None (Some 2%positive) (Some 3%positive) 3 10))
    by (vm_compute; reflexivity).
  assert (Hin : 1%positive ∈ ids t7).
  { apply (bool_decide_unpack _). vm_compute. exact I. }
  split; [exact ltb_strict_weak|]. split; [exact s7_linked|].
  split; [exact t7_ordered|]. split; [exact t7_hok|]. split; [exact t7_count|].
  split; [exact H1|]. split; [exact Hin|].
  destruct (erase_two_children Z.ltb s7 t7 1%positive _
              ltb_strict_weak s7_linked t7_ordered t7_hok t7_count H1 Hin
              ltac:(discriminate) ltac:(discriminate))
    as (sn & ns & start & s1 & s2 & t2 & _ & _ & _ & _ & _ & _
        & Hrun & Hsz & Hlk & Hbst & _ & _ & Hfind).
  exists s2, t2. split; [exact Hrun|]. split; [exact Hsz|].
  split; [exact Hlk|]. split; [exact Hbst|].
  apply Hfind; [|discriminate].
  apply (bool_decide_unpack _). vm_compute. exact I.
Defined.

(** A second node holding 7 is rejected; a node holding 8 is linked. *)
Lemma insert_unique_rejects_or_links_witness :
  strict_weak_order Z.ltb /\ linked s7 t7 /\ bst Z.ltb t7 /\ hok t7
  /\ Z.of_nat (count t7) + 1 < 2 ^ 31
  /\ nodes s7 !! 8%positive = Some (obj 7) /\ (8%positive ∉ ids t7)
  /\ nodes s7 !! 9%positive = Some (obj 8) /\ (9%positive ∉ ids t7)
  /\ insert_unique Z.ltb 8 s7 = Some (false, s7)
  /\ exists s' t',
      insert_unique Z.ltb 9 s7 = Some (true, s')
      /\ linked s' t' /\ find Z.ltb 8 s' = Some (Some 9%positive, s').
Proof.
  assert (H8 : nodes s7 !! 8%positive = Some (obj 7)) by (vm_compute; reflexivity).
  assert (H9 : nodes s7 !! 9%positive = Some (obj 8)) by (vm_compute; reflexivity).
  assert (Hf8 : 8%positive ∉ ids t7).
  { apply (bool_decide_unpack _). vm_compute. exact I. }
  assert (Hf9 : 9%positive ∉ ids t7).
  { apply (bool_decide_unpack _). vm_compute. exact I. }
  split; [exact ltb_strict_weak|]. split; [exact s7_linked|].
  split; [exact t7_ordered|]. split; [exact t7_hok|]. split; [exact t7_small|].
  split; [exact H8|]. split; [exact Hf8|]. split; [exact H9|]. split; [exact Hf9|].
  split.
  - apply (proj1 (insert_unique_rejects_or_links Z.ltb s7 t7 8%positive (obj 7)
                    ltb_strict_weak s7_linked t7_ordered t7_hok t7_small H8 Hf8)).
    exists 5%positive, 7. split.
    + apply (bool_decide_unpack _). vm_compute. exact I.
    + split; reflexivity.
  - destruct (proj2 (insert_unique_rejects_or_links Z.ltb s7 t7 9%positive (obj 8)
                       ltb_strict_weak s7_linked t7_ordered t7_hok t7_small H9 Hf9))
      as (s' & t' & Hrun & Hlk & _ & _ & _ & _ & Hfind).
    + intros p w Hin [E1 E2]. cbn in E1, E2.
      apply Z.ltb_ge in E1, E2. assert (w = 8) by lia. subst w.
      assert (Hw : 8 ∈ vals t7) by (apply elem_of_vals; eauto).
      revert Hw. apply (bool_decide_unpack _). vm_compute. exact I.
    + exists s', t'. split; [exact Hrun|]. split; [exact Hlk|exact Hfind].
Defined.

Lemma wipe_local : handler_local wipe.
Proof.
  intros p [sz rt m]. eexists. split; [reflexivity|].
  intros q Hq. cbn. by apply lookup_insert_ne.
Qed.

Lemma clear_visits_preorder_witness :
  handler_local wipe /\ linked s7 t7 /\ t7 ≠ Leaf
  /\ exists s',
      clear wipe s7 = Some ([1; 2; 4; 5; 3; 6; 7]%positive, s')
      /\ (forall q, q ∈ [1; 2; 4; 5; 3; 6; 7]%positive ->
            nodes s' !! q = Some (obj 0))
      /\ mRoot s' = None /\ mSize s' = 0
      /\ find Z.ltb 10 s' = Some (None, s').
Proof.
  split; [exact wipe_local|]. split; [exact s7_linked|]. split; [discriminate|].
  destruct (clear_visits_preorder Z.ltb wipe s7 t7 wipe_local s7_linked
              ltac:(discriminate))
    as (s1 & s' & Hvis & -> & Hrun & _ & _ & Hrt & Hsz & Hfind).
  exists (AvlTree 0 None (nodes s1)).
  split; [exact Hrun|]. split; [|split; [exact Hrt|split; [exact Hsz|apply Hfind]]].
  assert (E : s1 = state_after (visit_all wipe (preorder t7)) s7)
    by (unfold state_after; rewrite Hvis; reflexivity).
  rewrite E. clear E Hvis Hrun Hfind. intros q Hq. cbn [nodes].
  repeat (apply elem_of_cons in Hq as [->|Hq]; [vm_compute; reflexivity|]).
  by apply elem_of_nil in Hq.
Defined.

Lemma next_prev_inverse_witness :
  linked s7 t7
  /\ prev_walk 6 7 s7 = Some ([7; 3; 6; 1; 5; 2; 4]%positive, s7)
  /\ next 7 s7 = Some (None, s7)
  /\ prev 4 s7 = Some (None, s7).
Proof.
  split; [exact s7_linked|].
  destruct (next_prev_inverse s7 t7 s7_linked) as (_ & Hmax & Hmin).
  destruct (Hmax 7%positive eq_refl) as (Hwalk & _ & Hnext).
  split; [exact Hwalk|]. split; [exact Hnext|].
  exact (Hmin 4%positive eq_refl).
Defined.

Lemma end_iterator_steps_witness :
  linked s7 t7
  /\ iter_incr None s7 = Some (None, s7)
  /\ iter_decr None s7 = Some (Some 7%positive, s7).
Proof.
  split; [exact s7_linked|].
  destruct (end_iterator_steps s7 t7 s7_linked) as (Hinc & Hdec & _).
  split; [exact Hinc|].
  destruct (Hdec ltac:(discriminate)) as (pmax & Hlast & Hrun).
  injection Hlast as <-. exact Hrun.
Defined.

(** * Balance after an insertion *)

Section Balance.
Context {T : Type}.
Implicit Types (m : gmap positive (avl_node T)) (t l r : @tree T).
Implicit Types (c : list (@frame T)).

Lemma balanced_plug c t : balanced (plug c t) <-> balanced t /\ balancedC c (ht t).
Proof.
  revert t. induction c as [|[p h v r|l p h v] c IH]; intros t.
  - simpl. unfold plug. simpl. tauto.
  - rewrite plug_cons, IH. simpl. tauto.
  - rewrite plug_cons, IH. simpl. tauto.
Qed.

Lemma ht_node l p v r :
  hok l -> hok r -> Z.of_nat (count l + count r) < 2 ^ 31 ->
  ht (node l p v r) = Z.max (ht l) (ht r) + 1.
Proof.
  intros Hl Hr Hc. unfold node. cbn [ht].
  apply hok_bounds in Hl, Hr. apply size_wrap_small. lia.
Qed.

Lemma balanced_node l p v r :
  balanced l -> balanced r -> -1 <= ht l - ht r <= 1 -> balanced (node l p v r).
Proof. unfold node. simpl. tauto. Qed.

(** [fix_left] on a node whose right subtree is two levels higher. *)
Lemma fix_left_tree_balanced l x h v r :
  hok l -> hok r -> balanced l -> balanced r ->
  Z.of_nat (count (Node l x h v r)) < 2 ^ 31 ->
  ht r = ht l + 2 ->
  let t' := fix_left_tree (Node l x h v r) in
  balanced t' /\ ht r <= ht t' <= ht r + 1.
Proof.
  intros Hl Hr Bl Br Hc Hd.
  destruct r as [|rl y hy vy rr].
  { simpl in Hd. apply hok_bounds in Hl. lia. }
  destruct Hr as (Hrl & Hrr & Hy). destruct Br as (Brl & Brr & Bd).
  rewrite !count_node in Hc. cbn [ht] in Hd.
  cbn [fix_left_tree]. destruct (Z.ltb_spec (ht rr) (ht rl)) as [Hlt|Hge].
  - destruct rl as [|a q hq vq b].
    { simpl in Hlt. apply hok_bounds in Hrr. lia. }
    destruct Hrl as (Ha & Hb & Hq). destruct Brl as (Ba & Bb & Bq).
    rewrite !count_node in Hc. cbn [ht] in *.
    assert (H1 : ht (node l x v a) = Z.max (ht l) (ht a) + 1)
      by (apply ht_node; [done..|lia]).
    assert (H2 : ht (node b y vy rr) = Z.max (ht b) (ht rr) + 1)
      by (apply ht_node; [done..|lia]).
    split.
    + apply balanced_node; [apply balanced_node; [done..|lia]
                            |apply balanced_node; [done..|lia]|lia].
    + rewrite ht_node; [lia|apply hok_node; [done..|lia]..|].
      rewrite !count_node'. lia.
  - cbn [ht] in *.
    assert (H1 : ht (node l x v rl) = Z.max (ht l) (ht rl) + 1)
      by (apply ht_node; [done..|lia]).
    split.
    + apply balanced_node; [apply balanced_node; [done..|lia]|done|lia].
    + rewrite ht_node; [lia|apply hok_node; [done..|lia]|done|].
      rewrite !count_node'. lia.
Qed.

Lemma fix_right_tree_balanced l x h v r :
  hok l -> hok r -> balanced l -> balanced r ->
  Z.of_nat (count (Node l x h v r)) < 2 ^ 31 ->
  ht l = ht r + 2 ->
  let t' := fix_right_tree (Node l x h v r) in
  balanced t' /\ ht l <= ht t' <= ht l + 1.
Proof.
  intros Hl Hr Bl Br Hc Hd.
  destruct l as [|ll y hy vy lr].
  { simpl in Hd. apply hok_bounds in Hr. lia. }
  destruct Hl as (Hll & Hlr & Hy). destruct Bl as (Bll & Blr & Bd).
  rewrite !count_node in Hc. cbn [ht] in Hd.
  cbn [fix_right_tree]. destruct (Z.ltb_spec (ht ll) (ht lr)) as [Hlt|Hge].
  - destruct lr as [|a q hq vq b].
    { simpl in Hlt. apply hok_bounds in Hll. lia. }
    destruct Hlr as (Ha & Hb & Hq). destruct Blr as (Ba & Bb & Bq).
    rewrite !count_node in Hc. cbn [ht] in *.
    assert (H1 : ht (node ll y vy a) = Z.max (ht ll) (ht a) + 1)
      by (apply ht_node; [done..|lia]).
    assert (H2 : ht (node b x v r) = Z.max (ht b) (ht r) + 1)
      by (apply ht_node; [done..|lia]).
    split.
    + apply balanced_node; [apply balanced_node; [done..|lia]
                            |apply balanced_node; [done..|lia]|lia].
    + rewrite ht_node; [lia|apply hok_node; [done..|lia]..|].
      rewrite !count_node'. lia.
  - cbn [ht] in *.
    assert (H1 : ht (node lr x v r) = Z.max (ht lr) (ht r) + 1)
      by (apply ht_node; [done..|lia]).
    split.
    + apply balanced_node; [done|apply balanced_node; [done..|lia]|lia].
    + rewrite ht_node; [lia|done|apply hok_node; [done..|lia]|].
      rewrite !count_node'. lia.
Qed.

(** One round of the walk at a node one of whose subtrees has grown by at
    most one level since its height [h] was stored. *)
Lemma step_tree_grow l x h v r hl0 hr0 :
  hok l -> hok r -> balanced l -> balanced r ->
  Z.of_nat (count (Node l x h v r)) < 2 ^ 31 ->
  h = Z.max hl0 hr0 + 1 -> -1 <= hl0 - hr0 <= 1 ->
  (ht l = hl0 /\ ht r = hr0) \/ (ht l = hl0 + 1 /\ ht r = hr0)
    \/ (ht l = hl0 /\ ht r = hr0 + 1) ->
  match step_tree (Node l x h v r) with
  | None => balanced (Node l x h v r)
  | Some t' => balanced t' /\ h <= ht t' <= h + 1
  end.
Proof.
  intros Hl Hr Bl Br Hc Hh Hb Hg. unfold step_tree.
  pose proof (hok_bounds l Hl). pose proof (hok_bounds r Hr).
  pose proof Hc as Hc'. rewrite count_node in Hc'.
  rewrite size_wrap_small by lia.
  destruct (Z.eqb_spec h (Z.max (ht l) (ht r) + 1)) as [He|Hne].
  { simpl. split; [done|]. split; [done|]. lia. }
  rewrite !to_int32_small by lia.
  destruct (Z.leb_spec (ht l - ht r) (-2)).
  { destruct (fix_left_tree_balanced l x (Z.max (ht l) (ht r) + 1) v r)
      as [? ?]; [done..|by rewrite count_node|lia|].
    split; [done|lia]. }
  destruct (Z.leb_spec 2 (ht l - ht r)).
  { destruct (fix_right_tree_balanced l x (Z.max (ht l) (ht r) + 1) v r)
      as [? ?]; [done..|by rewrite count_node|lia|].
    split; [done|lia]. }
  simpl. split; [split; [done|]; split; [done|]; lia|lia].
Qed.

(** The walk after a subtree has grown by at most one level restores
    balance everywhere. *)
Lemma rebalance_tree_grow c : forall l x h v r hl0 hr0,
  hok l -> hok r -> balanced l -> balanced r ->
  hokC c h -> balancedC c h ->
  Z.of_nat (count (plug c (Node l x h v r))) < 2 ^ 31 ->
  h = Z.max hl0 hr0 + 1 -> -1 <= hl0 - hr0 <= 1 ->
  (ht l = hl0 /\ ht r = hr0) \/ (ht l = hl0 + 1 /\ ht r = hr0)
    \/ (ht l = hl0 /\ ht r = hr0 + 1) ->
  balanced (rebalance_tree c (Node l x h v r)).
Proof.
  induction c as [|f c IH]; intros l x h v r hl0 hr0 Hl Hr Bl Br HC BC Hc Hh Hb Hg.
  - change (plug [] (Node l x h v r)) with (Node l x h v r) in *.
    cbn [rebalance_tree].
    pose proof (step_tree_grow l x h v r hl0 hr0 Hl Hr Bl Br Hc Hh Hb Hg) as Hs.
    destruct (step_tree (Node l x h v r)) as [t'|]; [by destruct Hs|done].
  - cbn [rebalance_tree].
    pose proof (count_plug_le (f :: c) (Node l x h v r)) as Hle.
    assert (Hc0 : Z.of_nat (count (Node l x h v r)) < 2 ^ 31) by lia.
    pose proof (step_tree_grow l x h v r hl0 hr0 Hl Hr Bl Br Hc0 Hh Hb Hg) as Hs.
    destruct (step_tree (Node l x h v r)) as [t'|] eqn:Hst.
    + destruct Hs as [Bt' Hht].
      apply step_tree_ok in Hst as (Ht' & He & _); [|done..].
      assert (He' : elems (fill f t') = elems (fill f (Node l x h v r)))
        by (destruct f; simpl; by rewrite He).
      rewrite plug_cons in Hc.
      rewrite <- (count_plug_congr _ _ _ He') in Hc.
      destruct f as [p hp vp sib|sib p hp vp]; cbn [fill hokC balancedC] in *.
      * destruct HC as (Hsib & -> & HC). destruct BC as (Bsib & Bd & BC).
        eapply (IH _ _ _ _ _ h (ht sib)); [done..|lia|lia].
      * destruct HC as (Hsib & -> & HC). destruct BC as (Bsib & Bd & BC).
        eapply (IH _ _ _ _ _ (ht sib) h); [done..|lia|lia].
    + apply step_tree_none in Hst; [|done..].
      apply balanced_plug. split; [done|]. done.
Qed.

(** Linking a leaf into an empty slot of a balanced tree and walking up
    leaves a balanced tree. *)
Lemma insert_at_balanced c n (v : T) :
  hok (plug c Leaf) -> balanced (plug c Leaf) ->
  Z.of_nat (count (plug c Leaf)) + 1 < 2 ^ 31 ->
  balanced (insert_at c n v).
Proof.
  intros Hok Hbal Hc. unfold insert_at.
  destruct c as [|f c]; [simpl; lia|].
  rewrite plug_cons in Hok, Hbal, Hc.
  apply hok_plug in Hok as [Hf HC]. apply balanced_plug in Hbal as [Bf BC].
  pose proof (count_fill_leaf c f n v) as Hcnt.
  destruct f as [p hp vp sib|sib p hp vp]; cbn [fill ht] in *.
  - destruct Hf as (_ & Hsib & ->). destruct Bf as (_ & Bsib & Bd).
    eapply (rebalance_tree_grow c _ _ _ _ _ 0 (ht sib));
      [simpl; split_and!; done|done|simpl; split_and!; [done..|lia]|done
      |done|done|unfold leaf in *; lia|done|done|simpl; lia].
  - destruct Hf as (Hsib & _ & ->). destruct Bf as (Bsib & _ & Bd).
    eapply (rebalance_tree_grow c _ _ _ _ _ (ht sib) 0);
      [done|simpl; split_and!; done|done|simpl; split_and!; [done..|lia]
      |done|done|unfold leaf in *; lia|done|done|simpl; lia].
Qed.

End Balance.

(** * The operations only rewrite links *)

Section Keeps.
Context {T : Type}.
Implicit Types (s : avl_tree T).

Lemma keeps_ret {A} (a : A) : keeps (T := T) (ret a).
Proof. by intros s a' s' [= _ ->]. Qed.

Lemma keeps_fail {A} : keeps (T := T) (A := A) fail.
Proof. by intros s a' s'. Qed.

Lemma keeps_bind {A B} (c : M T A) (k : A -> M T B) :
  keeps c -> (forall a, keeps (k a)) -> keeps (bind c k).
Proof.
  intros Hc Hk s b s'. unfold bind.
  destruct (c s) as [[a s1]|] eqn:E; [|done].
  intros Hrun. rewrite (Hk a _ _ _ Hrun). by eapply Hc.
Qed.

Lemma keeps_load p : keeps (T := T) (load p).
Proof.
  intros s a s'. unfold load. destruct (nodes s !! p); [|done]. by intros [= _ ->].
Qed.

Lemma keeps_rewrite p (f : avl_node T -> avl_node T) :
  (forall n, elem (f n) = elem n) ->
  keeps (bind (load p) (fun n => store p (f n))).
Proof.
  intros Hf s a s'. unfold bind, load, store.
  destruct (nodes s !! p) as [n|] eqn:E; [|done]. intros [= _ <-].
  unfold payload. cbn [nodes]. rewrite fmap_insert, Hf.
  apply insert_id. by rewrite lookup_fmap, E.
Qed.

Lemma keeps_parent p : keeps (T := T) (parent p).
Proof. apply keeps_bind; [apply keeps_load|intros; apply keeps_ret]. Qed.
Lemma keeps_left p : keeps (T := T) (left p).
Proof. apply keeps_bind; [apply keeps_load|intros; apply keeps_ret]. Qed.
Lemma keeps_right p : keeps (T := T) (right p).
Proof. apply keeps_bind; [apply keeps_load|intros; apply keeps_ret]. Qed.
Lemma keeps_height p : keeps (T := T) (height p).
Proof. apply keeps_bind; [apply keeps_load|intros; apply keeps_ret]. Qed.
Lemma keeps_value p : keeps (T := T) (value p).
Proof. apply keeps_bind; [apply keeps_load|intros; apply keeps_ret]. Qed.

Lemma keeps_set_mParent p v : keeps (T := T) (set_mParent p v).
Proof. by apply (keeps_rewrite p (fun n => AvlNode v _ _ _ _)). Qed.
Lemma keeps_set_mLeft p v : keeps (T := T) (set_mLeft p v).
Proof. by apply (keeps_rewrite p (fun n => AvlNode _ v _ _ _)). Qed.
Lemma keeps_set_mRight p v : keeps (T := T) (set_mRight p v).
Proof. by apply (keeps_rewrite p (fun n => AvlNode _ _ v _ _)). Qed.
Lemma keeps_set_mHeight p v : keeps (T := T) (set_mHeight p v).
Proof. by apply (keeps_rewrite p (fun n => AvlNode _ _ _ v _)). Qed.

Lemma keeps_root : keeps (T := T) root.
Proof. by intros s a s' [= _ ->]. Qed.
Lemma keeps_set_root v : keeps (T := T) (set_root v).
Proof. by intros s a s' [= _ <-]. Qed.
Lemma keeps_size : keeps (T := T) size.
Proof. by intros s a s' [= _ ->]. Qed.
Lemma keeps_set_mSize v : keeps (T := T) (set_mSize v).
Proof. by intros s a s' [= _ <-]. Qed.

Lemma keeps_with_fuel {A} (k : nat -> M T A) :
  (forall f, keeps (k f)) -> keeps (with_fuel k).
Proof. intros Hk s a s'. unfold with_fuel. apply Hk. Qed.

End Keeps.

Ltac keeps_step :=
  lazymatch goal with
  | |- keeps (bind _ _) => apply keeps_bind; [|intros ?]
  | |- keeps (ret _) => apply keeps_ret
  | |- keeps fail => apply keeps_fail
  | |- keeps (parent _) => apply keeps_parent
  | |- keeps (left _) => apply keeps_left
  | |- keeps (right _) => apply keeps_right
  | |- keeps (height _) => apply keeps_height
  | |- keeps (value _) => apply keeps_value
  | |- keeps (set_mParent _ _) => apply keeps_set_mParent
  | |- keeps (set_mLeft _ _) => apply keeps_set_mLeft
  | |- keeps (set_mRight _ _) => apply keeps_set_mRight
  | |- keeps (set_mHeight _ _) => apply keeps_set_mHeight
  | |- keeps root => apply keeps_root
  | |- keeps (set_root _) => apply keeps_set_root
  | |- keeps size => apply keeps_size
  | |- keeps (set_mSize _) => apply keeps_set_mSize
  | |- keeps (with_fuel _) => apply keeps_with_fuel; intros ?
  | |- keeps (match ?x with _ => _ end) => destruct x
  | |- keeps (let _ := _ in _) => cbv zeta
  end.

Ltac keeps_go := repeat keeps_step; auto.

Section Keeps2.
Context {T : Type}.
Variable value_comp : T -> T -> bool.

Lemma keeps_height_or_0 p : keeps (T := T) (height_or_0 p).
Proof. unfold height_or_0. keeps_go. Qed.

Lemma keeps_when_some p (k : positive -> M T unit) :
  (forall q, keeps (k q)) -> keeps (when_some p k).
Proof. intros Hk. unfold when_some. keeps_go. Qed.

Lemma keeps_deref p : keeps (T := T) (deref p).
Proof. unfold deref. keeps_go. Qed.

Lemma keeps_update_height p : keeps (T := T) (update_height p).
Proof. unfold update_height. keeps_go; apply keeps_height_or_0. Qed.

Lemma keeps_leftmost fuel : forall p, keeps (T := T) (leftmost fuel p).
Proof. induction fuel; intros p; simpl; keeps_go. Qed.

Lemma keeps_rightmost fuel : forall p, keeps (T := T) (rightmost fuel p).
Proof. induction fuel; intros p; simpl; keeps_go. Qed.

Lemma keeps_next_up fuel : forall p, keeps (T := T) (next_up fuel p).
Proof. induction fuel; intros p; simpl; keeps_go. Qed.

Lemma keeps_prev_up fuel : forall p, keeps (T := T) (prev_up fuel p).
Proof. induction fuel; intros p; simpl; keeps_go. Qed.

Lemma keeps_next p : keeps (T := T) (next p).
Proof. unfold next. keeps_go; [apply keeps_leftmost|apply keeps_next_up]. Qed.

Lemma keeps_prev p : keeps (T := T) (prev p).
Proof. unfold prev. keeps_go; [apply keeps_rightmost|apply keeps_prev_up]. Qed.

Lemma keeps_replace_as_child p q par : keeps (T := T) (replace_as_child p q par).
Proof. unfold replace_as_child. keeps_go. Qed.

Lemma keeps_replace p q : keeps (T := T) (replace p q).
Proof.
  unfold replace.
  keeps_go; first [apply keeps_replace_as_child | apply keeps_when_some; intros; keeps_go].
Qed.

Lemma keeps_rotate_left p : keeps (T := T) (rotate_left p).
Proof.
  unfold rotate_left.
  keeps_go; first [apply keeps_replace_as_child | apply keeps_when_some; intros; keeps_go].
Qed.

Lemma keeps_rotate_right p : keeps (T := T) (rotate_right p).
Proof.
  unfold rotate_right.
  keeps_go; first [apply keeps_replace_as_child | apply keeps_when_some; intros; keeps_go].
Qed.

Lemma keeps_fix_left p : keeps (T := T) (fix_left p).
Proof.
  unfold fix_left.
  keeps_go; first [apply keeps_deref | apply keeps_height_or_0
    | apply keeps_update_height | apply keeps_rotate_left | apply keeps_rotate_right].
Qed.

Lemma keeps_fix_right p : keeps (T := T) (fix_right p).
Proof.
  unfold fix_right.
  keeps_go; first [apply keeps_deref | apply keeps_height_or_0
    | apply keeps_update_height | apply keeps_rotate_left | apply keeps_rotate_right].
Qed.

Lemma keeps_rebalance_step p : keeps (T := T) (rebalance_step p).
Proof.
  unfold rebalance_step.
  keeps_go; first [apply keeps_height_or_0 | apply keeps_fix_left | apply keeps_fix_right].
Qed.

Lemma keeps_rebalance_loop fuel : forall p, keeps (T := T) (rebalance_loop fuel p).
Proof.
  induction fuel; intros p; simpl; keeps_go. apply keeps_rebalance_step.
Qed.

Lemma keeps_rebalance p : keeps (T := T) (rebalance p).
Proof. unfold rebalance. keeps_go. apply keeps_rebalance_loop. Qed.

Lemma keeps_fix_insert p : keeps (T := T) (fix_insert p).
Proof.
  unfold fix_insert. keeps_go. apply keeps_when_some, keeps_rebalance.
Qed.

Lemma keeps_link_as_root p : keeps (T := T) (link_as_root p).
Proof. unfold link_as_root. keeps_go. Qed.

Lemma keeps_incr_size : keeps (T := T) incr_size.
Proof. unfold incr_size. keeps_go. Qed.

Lemma keeps_decr_size : keeps (T := T) decr_size.
Proof. unfold decr_size. keeps_go. Qed.

Lemma keeps_link_left p q : keeps (T := T) (link_left p q).
Proof.
  unfold link_left. keeps_go; [apply keeps_fix_insert|apply keeps_incr_size].
Qed.

Lemma keeps_link_right p q : keeps (T := T) (link_right p q).
Proof.
  unfold link_right. keeps_go; [apply keeps_fix_insert|apply keeps_incr_size].
Qed.

Lemma keeps_insert_unique_loop fuel :
  forall n p, keeps (insert_unique_loop value_comp fuel n p).
Proof.
  induction fuel; intros n p; simpl; keeps_go;
    first [apply keeps_link_left | apply keeps_link_right].
Qed.

Lemma keeps_insert_unique n : keeps (insert_unique value_comp n).
Proof.
  unfold insert_unique. keeps_go;
    first [apply keeps_insert_unique_loop | apply keeps_link_as_root
          | apply keeps_incr_size].
Qed.

Lemma keeps_insert_or_replace_loop fuel :
  forall n p, keeps (insert_or_replace_loop value_comp fuel n p).
Proof.
  induction fuel; intros n p; simpl; keeps_go;
    first [apply keeps_link_left | apply keeps_link_right | apply keeps_replace].
Qed.

Lemma keeps_insert_or_replace n : keeps (insert_or_replace value_comp n).
Proof.
  unfold insert_or_replace. keeps_go;
    first [apply keeps_insert_or_replace_loop | apply keeps_link_as_root].
Qed.

Lemma keeps_insert_multi_loop fuel :
  forall n p, keeps (insert_multi_loop value_comp fuel n p).
Proof.
  induction fuel; intros n p; simpl; keeps_go;
    first [apply keeps_link_left | apply keeps_link_right].
Qed.

Lemma keeps_insert_multi n : keeps (insert_multi value_comp n).
Proof.
  unfold insert_multi. keeps_go;
    first [apply keeps_insert_multi_loop | apply keeps_link_as_root
          | apply keeps_incr_size].
Qed.

Lemma keeps_erase_unlink p : keeps (T := T) (erase_unlink p).
Proof.
  unfold erase_unlink.
  keeps_go; first [apply keeps_leftmost | apply keeps_replace_as_child
    | apply keeps_deref | apply keeps_when_some; intros; keeps_go].
Qed.

Lemma keeps_erase p : keeps (T := T) (erase p).
Proof.
  unfold erase. keeps_go;
    [apply keeps_erase_unlink|apply keeps_when_some, keeps_rebalance
    |apply keeps_decr_size].
Qed.

Lemma keeps_find_loop fuel : forall v p, keeps (find_loop value_comp fuel v p).
Proof. induction fuel; intros v p; destruct p; simpl; keeps_go. Qed.

Lemma keeps_find v : keeps (find value_comp v).
Proof. unfold find. keeps_go. apply keeps_find_loop. Qed.

Lemma payload_fuel (s s' : avl_tree T) :
  payload s' = payload s -> fuel_of s' = fuel_of s.
Proof.
  unfold payload, fuel_of. intros E. f_equal.
  rewrite <- (map_size_fmap elem (nodes s')), <- (map_size_fmap elem (nodes s)).
  by rewrite E.
Qed.

Lemma payload_lookup (s s' : avl_tree T) p cell :
  payload s' = payload s -> nodes s !! p = Some cell ->
  exists cell', nodes s' !! p = Some cell' /\ elem cell' = elem cell.
Proof.
  unfold payload. intros E Hp.
  assert (H : (elem <$> nodes s') !! p = Some (elem cell))
    by (by rewrite E, lookup_fmap, Hp).
  rewrite lookup_fmap in H. destruct (nodes s' !! p) as [c'|]; [|done].
  exists c'. split; [done|]. by injection H.
Qed.

End Keeps2.

(** * erase: a node with at most one child *)

Section EraseOne.
Context {T : Type}.
Implicit Types (m : gmap positive (avl_node T)) (t l r : @tree T).
Implicit Types (c : list (@frame T)).
Implicit Types (e : list (positive * T)).







End EraseOne.

(** * The set's comparison *)

Section SetFacts.
Context {Key : Type}.
Variable key_comp : Key -> Key -> bool.
Implicit Types (m : gmap positive (avl_node Key)) (t l r : @tree Key).
Implicit Types (c : list (@frame Key)).
Implicit Types (s : avl_tree Key).

Lemma find_cmp_loop_key_cmp fuel : forall k node s,
  find_cmp_loop (key_cmp key_comp) fuel k node s
  = find_loop key_comp fuel k node s.
Proof.
  induction fuel as [|fuel IH]; intros k [n|] s; cbn [find_cmp_loop find_loop];
    try done.
  unfold bind. destruct (value n s) as [[vn s1]|]; [|done].
  unfold key_cmp.
  destruct (key_comp k vn).
  { change (to_int32 (-1) <? 0) with true. cbn.
    destruct (left n s1) as [[l s2]|]; [apply IH|done]. }
  destruct (key_comp vn k).
  { change (to_int32 1 <? 0) with false. change (0 <? to_int32 1) with true.
    cbn. destruct (right n s1) as [[r s2]|]; [apply IH|done]. }
  change (to_int32 0 <? 0) with false. change (0 <? to_int32 0) with false.
  done.
Qed.

Lemma find_cmp_key_cmp k s :
  find_cmp (key_cmp key_comp) k s = find key_comp k s.
Proof.
  unfold find_cmp, find, bind, with_fuel. cbn. apply find_cmp_loop_key_cmp.
Qed.

End SetFacts.

(** * insert_unique and erase on trees in order *)

Section Runs.
Context {T : Type}.
Variable value_comp : T -> T -> bool.
Implicit Types (m : gmap positive (avl_node T)) (t l r : @tree T).
Implicit Types (c : list (@frame T)).
Implicit Types (s : avl_tree T).

Lemma find_tree_absent v t :
  ~ member value_comp v t -> find_tree value_comp v t = None.
Proof.
  intros Hno. destruct (find_tree value_comp v t) as [p|] eqn:E; [|done].
  apply find_tree_some in E as (w & Hin & Heq). destruct Hno. by exists p, w.
Qed.

Lemma find_tree_present v t :
  strict_weak_order value_comp -> ordered value_comp (elems t) ->
  member value_comp v t ->
  exists p w, find_tree value_comp v t = Some p
    /\ (p, w) ∈ elems t /\ equivalent value_comp v w.
Proof.
  intros Hsw Ho (p0 & w0 & Hin0 & Heq0).
  destruct (find_tree value_comp v t) as [p|] eqn:E.
  - apply find_tree_some in E as (w & ? & ?). by exists p, w.
  - by destruct (find_tree_none value_comp v t E Ho Hsw p0 w0).
Qed.

Lemma member_dec v t :
  strict_weak_order value_comp -> ordered value_comp (elems t) ->
  member value_comp v t \/ ~ member value_comp v t.
Proof.
  intros Hsw Ho. destruct (find_tree value_comp v t) as [p|] eqn:E.
  - left. apply find_tree_some in E as (w & ? & ?). by exists p, w.
  - right. intros (p & w & Hin & Heq).
    by eapply (find_tree_none value_comp v t E Ho Hsw).
Qed.

Lemma count_elems_insert (t t' : @tree T) e1 e2 a :
  elems t = e1 ++ e2 -> elems t' = e1 ++ a :: e2 ->
  count t' = S (count t).
Proof.
  unfold count. intros -> ->. rewrite !length_app. cbn. lia.
Qed.

Lemma ids_elems_insert (t t' : @tree T) e1 e2 n v :
  elems t = e1 ++ e2 -> elems t' = e1 ++ (n, v) :: e2 ->
  ids t' ≡ₚ n :: ids t.
Proof.
  unfold ids. intros -> ->. rewrite !fmap_app, fmap_cons. cbn.
  by rewrite Permutation_middle.
Qed.

(** What [insert_unique] does on a tree in BST order. *)
Lemma insert_unique_run s t n cell :
  strict_weak_order value_comp ->
  linked s t -> bst value_comp t -> hok t ->
  Z.of_nat (count t) + 1 < 2 ^ 31 ->
  nodes s !! n = Some cell -> n ∉ ids t ->
  (member value_comp (elem cell) t
     /\ insert_unique value_comp n s = Some (false, s))
  \/ (~ member value_comp (elem cell) t
      /\ exists s' t',
        insert_unique value_comp n s = Some (true, s')
        /\ linked s' t'
        /\ (exists e1 e2, elems t = e1 ++ e2
              /\ elems t' = e1 ++ (n, elem cell) :: e2)
        /\ bst value_comp t' /\ hok t'
        /\ (balanced t -> balanced t')
        /\ mSize s' = size_wrap (mSize s + 1)).
Proof.
  intros Hsw Hlk Hbst Hok Hc Hn Hfresh. destruct s as [sz rt m]. cbn [nodes mSize] in *.
  assert (Hord : ordered value_comp (elems t)).
  { apply bst_ordered; [apply Hsw|done]. }
  pose proof (insert_unique_spec value_comp sz rt m t n cell
    (fun b s' => match slot_unique value_comp (elem cell) t [] with
                 | None => b = false /\ s' = AvlTree sz rt m
                 | Some c' => b = true /\ linked s' (insert_at c' n (elem cell))
                              /\ mSize s' = size_wrap (sz + 1)
                 end) Hlk Hn Hfresh Hok Hc ltac:(done)) as Hwp.
  apply wp_elim in Hwp as (b & s' & Hrun & Hpost).
  destruct (slot_unique value_comp (elem cell) t []) as [c'|] eqn:Hslot.
  - right. destruct Hpost as (-> & Hlk' & Hsz). split.
    + intros (p & w & Hin & Heq). by eapply slot_unique_some.
    + pose proof (slot_unique_plug _ _ _ _ _ Hslot) as Hplug. rewrite plug_nil in Hplug.
      destruct (insert_at_ok c' n (elem cell)) as [Hok' He']; [by rewrite Hplug..|].
      assert (Het : elems t = before c' ++ after c').
      { by rewrite <- Hplug, elems_plug. }
      assert (Hord' : ordered value_comp (elems (insert_at c' n (elem cell)))).
      { rewrite He'. apply ordered_insert; [done|by rewrite <- Het|].
        eapply slot_unique_fits; [done| |apply fits_nil|exact Hslot].
        by rewrite plug_nil. }
      exists s', (insert_at c' n (elem cell)).
      split_and!; [done|done|by eauto| |done| |done].
      * apply bst_ordered; [apply Hsw|done].
      * intros Hbal. apply insert_at_balanced; by rewrite Hplug.
  - left. destruct Hpost as [-> ->]. split; [|done].
    destruct (slot_unique_none _ _ _ _ Hslot) as (p & w & Hin & Heq).
    by exists p, w.
Qed.


Lemma linked_frame sz sz' rt m m' t :
  linked (AvlTree sz rt m) t ->
  (forall q, q ∈ ids t -> m' !! q = m !! q) ->
  linked (AvlTree sz' rt m') t.
Proof.
  intros [Hrt HR Hnd] Hfr. split; [done| |done]. by eapply Repr_frame.
Qed.

Lemma linked_in_dom s t q : linked s t -> q ∈ ids t -> q ∈ dom (nodes s).
Proof.
  intros [_ HR _] Hq. apply elem_of_dom. by eapply Repr_lookup.
Qed.

Lemma Repr_elem m par t p w :
  Repr m par t -> (p, w) ∈ elems t ->
  exists cell, m !! p = Some cell /\ elem cell = w.
Proof.
  revert par. induction t as [|l IHl x h v r IHr]; intros par HR Hin.
  { cbn in Hin. by apply elem_of_nil in Hin. }
  destruct HR as (Hx & Hl & Hr). cbn in Hin.
  apply elem_of_app in Hin as [Hin|Hin]; [by eapply IHl|].
  apply elem_of_cons in Hin as [[= -> ->]|Hin]; [by eexists|by eapply IHr].
Qed.

Lemma linked_elem s t p w :
  linked s t -> (p, w) ∈ elems t ->
  exists cell, nodes s !! p = Some cell /\ elem cell = w.
Proof. intros [_ HR _]. by eapply Repr_elem. Qed.

End Runs.

(** * replace and insert_or_replace *)

Section Replace.
Context {T : Type}.
Variable value_comp : T -> T -> bool.
Implicit Types (m : gmap positive (avl_node T)) (t l r : @tree T).
Implicit Types (c : list (@frame T)).
Implicit Types (s : avl_tree T).




(** *** The order [insert_or_replace] keeps *)


Lemma flip_equivalent a b :
  equivalent (flip value_comp) a b <-> equivalent value_comp a b.
Proof. unfold equivalent, flip. tauto. Qed.

Lemma flip_member v t :
  member (flip value_comp) v t <-> member value_comp v t.
Proof.
  unfold member. split; intros (p & w & ? & ?); exists p, w;
    (split; [done|]); by apply flip_equivalent.
Qed.



End Replace.

(** * find with a three-way comparison *)

Section FindCmpFacts.
Context {T V : Type}.
Variable fn : V -> T -> Z.
Implicit Types (m : gmap positive (avl_node T)) (t l r : @tree T).
Implicit Types (s : avl_tree T).

Lemma find_cmp_loop_spec v t : forall fuel par sz rt m Q,
  Repr m par t -> (depth t <= fuel)%nat ->
  Q (find_cmp_tree fn v t) (AvlTree sz rt m) ->
  wp (find_cmp_loop fn fuel v (root_of t)) (AvlTree sz rt m) Q.
Proof.
  induction t as [|l IHl p h w r IHr]; intros fuel par sz rt m Q HR Hf HQ.
  { by destruct fuel. }
  destruct fuel as [|fuel]; [cbn in Hf; lia|]. cbn in Hf.
  destruct HR as (Hp & Hl & Hr). cbn [find_cmp_loop find_cmp_tree root_of] in *.
  wp_go. destruct (to_int32 (fn v w) <? 0).
  { wp_go. eapply IHl; [done|lia|done]. }
  destruct (0 <? to_int32 (fn v w)).
  { wp_go. eapply IHr; [done|lia|done]. }
  by wp_go.
Qed.

Lemma find_cmp_run v s t :
  linked s t -> find_cmp fn v s = Some (find_cmp_tree fn v t, s).
Proof.
  intros Hlk. destruct s as [sz rt m].
  pose proof (count_fuel _ _ Hlk). pose proof (depth_count t).
  assert (Hwp : wp (find_cmp fn v) (AvlTree sz rt m)
            (fun res s' => res = find_cmp_tree fn v t /\ s' = AvlTree sz rt m)).
  { unfold find_cmp. wp_go.
    destruct Hlk as [Hrt HR _]. cbn [mRoot nodes] in *. subst rt.
    eapply find_cmp_loop_spec; [done|lia|done]. }
  by apply wp_elim in Hwp as (res & s' & Hrun & -> & ->).
Qed.

Lemma find_cmp_tree_some v t p :
  find_cmp_tree fn v t = Some p ->
  exists w, (p, w) ∈ elems t /\ to_int32 (fn v w) = 0.
Proof.
  induction t as [|l IHl q h w r IHr]; [done|]. cbn [find_cmp_tree elems].
  destruct (Z.ltb_spec (to_int32 (fn v w)) 0).
  { intros (u & ? & ?)%IHl. exists u. split; [|done]. apply elem_of_app. by left. }
  destruct (Z.ltb_spec 0 (to_int32 (fn v w))).
  { intros (u & ? & ?)%IHr. exists u. split; [|done].
    apply elem_of_app. right. by right. }
  intros [= ->]. exists w. split; [|lia]. apply elem_of_app. right. left.
Qed.

Lemma find_cmp_tree_none v t :
  cmp_sorted fn v (elems t) -> find_cmp_tree fn v t = None ->
  forall p w, (p, w) ∈ elems t -> to_int32 (fn v w) ≠ 0.
Proof.
  unfold cmp_sorted.
  induction t as [|l IHl q h u r IHr]; intros Hs Hnone p w Hin.
  { cbn in Hin. by apply elem_of_nil in Hin. }
  cbn [find_cmp_tree elems] in *.
  apply StronglySorted_app in Hs as (Hlr & Hsl & Hsr).
  apply StronglySorted_cons in Hsr as (Hur & Hsr). rewrite Forall_forall in Hur.
  destruct (Z.ltb_spec (to_int32 (fn v u)) 0) as [Hlt|Hge].
  { apply elem_of_app in Hin as [Hin|Hin]; [by eapply IHl|].
    apply elem_of_cons in Hin as [[= -> ->]|Hin]; [lia|].
    specialize (Hur _ Hin). cbn in Hur. lia. }
  destruct (Z.ltb_spec 0 (to_int32 (fn v u))) as [Hgt|Hle]; [|done].
  apply elem_of_app in Hin as [Hin|Hin].
  - specialize (Hlr _ (q, u) Hin ltac:(left)). cbn in Hlr. lia.
  - apply elem_of_cons in Hin as [[= -> ->]|Hin]; [lia|by eapply IHr].
Qed.

End FindCmpFacts.

(** * Insertion keeps the balance *)

Section MoreOperations.
Context {T : Type}.
Variable value_comp : T -> T -> bool.
Implicit Types (m : gmap positive (avl_node T)) (t l r : @tree T).
Implicit Types (c : list (@frame T)).
Implicit Types (s : avl_tree T).

(** X1. [insert_unique] keeps the AVL balance: on a balanced tree with right
    stored heights it returns, and the tree it leaves is again balanced with
    right stored heights, whether the node was linked or rejected.  No order
    on the values is needed for this. *)
Theorem insert_unique_keeps_balance s t n cell :
  linked s t -> hok t -> balanced t ->
  Z.of_nat (count t) + 1 < 2 ^ 31 ->
  nodes s !! n = Some cell -> n ∉ ids t ->
  exists b s' t',
    insert_unique value_comp n s = Some (b, s')
    /\ linked s' t' /\ hok t' /\ balanced t'
    /\ (if b then exists e1 e2, elems t = e1 ++ e2
                    /\ elems t' = e1 ++ (n, elem cell) :: e2
        else s' = s /\ t' = t).
Proof.
  intros Hlk Hok Hbal Hc Hn Hfresh. destruct s as [sz rt m]. cbn [nodes] in *.
  pose proof (insert_unique_spec value_comp sz rt m t n cell
    (fun b s' => match slot_unique value_comp (elem cell) t [] with
                 | None => b = false /\ s' = AvlTree sz rt m
                 | Some c' => b = true /\ linked s' (insert_at c' n (elem cell))
                              /\ mSize s' = size_wrap (sz + 1)
                 end) Hlk Hn Hfresh Hok Hc ltac:(done)) as Hwp.
  apply wp_elim in Hwp as (b & s' & Hrun & Hpost).
  destruct (slot_unique value_comp (elem cell) t []) as [c'|] eqn:Hslot.
  - destruct Hpost as (-> & Hlk' & Hsz).
    pose proof (slot_unique_plug _ _ _ _ _ Hslot) as Hplug.
    rewrite plug_nil in Hplug.
    destruct (insert_at_ok c' n (elem cell)) as [Hok' He']; [by rewrite Hplug..|].
    exists true, s', (insert_at c' n (elem cell)).
    split_and!; [done..|by apply insert_at_balanced; rewrite Hplug|].
    exists (before c'), (after c'). split; [|done].
    by rewrite <- Hplug, elems_plug.
  - destruct Hpost as [-> ->]. by exists false, (AvlTree sz rt m), t.
Qed.

(** X2. [insert_multi] keeps the AVL balance: on a balanced tree with right
    stored heights it returns with the node linked, and the tree is again
    balanced with right stored heights. *)
Theorem insert_multi_keeps_balance s t n cell :
  linked s t -> hok t -> balanced t ->
  Z.of_nat (count t) + 1 < 2 ^ 31 ->
  nodes s !! n = Some cell -> n ∉ ids t ->
  exists s' t',
    insert_multi value_comp n s = Some (tt, s')
    /\ linked s' t' /\ hok t' /\ balanced t'
    /\ exists e1 e2, elems t = e1 ++ e2
         /\ elems t' = e1 ++ (n, elem cell) :: e2.
Proof.
  intros Hlk Hok Hbal Hc Hn Hfresh. destruct s as [sz rt m]. cbn [nodes] in *.
  set (c' := slot_multi value_comp (elem cell) t []).
  pose proof (insert_multi_spec value_comp sz rt m t n cell
    (fun _ s' => linked s' (insert_at c' n (elem cell)))
    Hlk Hn Hfresh Hok Hc ltac:(done)) as Hwp.
  apply wp_elim in Hwp as ([] & s' & Hrun & Hlk').
  pose proof (slot_multi_plug value_comp (elem cell) t []) as Hplug.
  rewrite plug_nil in Hplug. fold c' in Hplug.
  destruct (insert_at_ok c' n (elem cell)) as [Hok' He']; [by rewrite Hplug..|].
  exists s', (insert_at c' n (elem cell)).
  split_and!; [done..|by apply insert_at_balanced; rewrite Hplug|].
  exists (before c'), (after c'). split; [|done].
  by rewrite <- Hplug, elems_plug.
Qed.

End MoreOperations.

(** * erase and find *)

Section MoreOperations2.
Context {T : Type}.
Variable value_comp : T -> T -> bool.
Implicit Types (m : gmap positive (avl_node T)) (t l r : @tree T).
Implicit Types (c : list (@frame T)).
Implicit Types (s : avl_tree T).


(** X4. [find] on any linked tree returns without changing anything; a
    node it returns is linked and its value compares equal to the one looked
    for; on a tree in BST order it returns null only when no stored value
    compares equal.  On the empty tree it returns null. *)
Theorem find_returns_equal s t v :
  linked s t ->
  exists res,
    find value_comp v s = Some (res, s)
    /\ (forall p, res = Some p ->
          exists w, (p, w) ∈ elems t /\ equivalent value_comp v w)
    /\ (strict_weak_order value_comp -> bst value_comp t -> res = None ->
          forall p w, (p, w) ∈ elems t -> ~ equivalent value_comp v w)
    /\ (t = Leaf -> res = None).
Proof.
  intros Hlk. exists (find_tree value_comp v t).
  split; [by apply find_run|]. split; [|split].
  - intros p. apply find_tree_some.
  - intros Hsw Hbst Hnone. eapply find_tree_none; [done| |done].
    apply bst_ordered; [apply Hsw|done].
  - by intros ->.
Qed.

End MoreOperations2.

(** * Walking the tree *)

Section WalkFacts.
Context {T : Type}.
Variable value_comp : T -> T -> bool.
Implicit Types (m : gmap positive (avl_node T)) (t l r : @tree T).
Implicit Types (s : avl_tree T).

Lemma incr_walk_run s t : linked s t ->
  forall L2 L1 p fuel, ids t = L1 ++ p :: L2 -> (length L2 < fuel)%nat ->
  incr_walk fuel (Iterator this_tree (Some p)) s = Some (p :: L2, s).
Proof.
  intros Hlk. induction L2 as [|q L2 IH]; intros L1 p fuel E Hf.
  - destruct fuel as [|fuel]; [cbn in Hf; lia|].
    cbn [incr_walk iter_eq end_iterator mTree mPtr tree_ptr_eqb andb].
    rewrite bool_decide_eq_false_2 by done. unfold iter_next. cbn [mPtr mTree iter_incr].
    rewrite (bind_run _ _ _ _ _ (bind_run _ _ _ _ _ (next_run _ _ _ _ _ Hlk E))).
    cbn [head]. by destruct fuel.
  - destruct fuel as [|fuel]; [cbn in Hf; lia|].
    cbn [incr_walk iter_eq end_iterator mTree mPtr tree_ptr_eqb andb].
    rewrite bool_decide_eq_false_2 by done. unfold iter_next. cbn [mPtr mTree iter_incr].
    rewrite (bind_run _ _ _ _ _ (bind_run _ _ _ _ _ (next_run _ _ _ _ _ Hlk E))).
    cbn [head].
    assert (E' : ids t = (L1 ++ [p]) ++ q :: L2) by (by rewrite <- app_assoc).
    rewrite (bind_run _ _ _ _ _ (IH _ _ fuel E' ltac:(cbn in Hf; lia))).
    done.
Qed.

Lemma begin_run s t p :
  linked s t -> head (ids t) = Some p ->
  tree_begin s = Some (Iterator this_tree (Some p), s).
Proof.
  intros Hlk Hhd. destruct s as [sz rt m].
  pose proof (count_fuel _ _ Hlk) as Hf. pose proof (depth_count t).
  destruct Hlk as [Hrt HR _]. cbn [mRoot nodes] in *. subst rt.
  destruct (root_of t) as [x|] eqn:Hx; [|by destruct t].
  assert (Hwp : wp tree_begin (AvlTree sz (Some x) m)
            (fun res s' => res = Iterator this_tree (Some p)
                           /\ s' = AvlTree sz (Some x) m)).
  { unfold tree_begin. wp_go. wp_bind_syn.
    eapply (leftmost_head t); [exact HR|done|lia|].
    intros pm Hpm. wp_go. rewrite Hhd in Hpm. by injection Hpm as ->. }
  by apply wp_elim in Hwp as (res & s' & Hrun & -> & ->).
Qed.

(** The loop from [begin()] of an empty tree: the iterator is not [end()]
    and [++] leaves it as it is. *)
Lemma incr_walk_null s fuel :
  incr_walk fuel (Iterator null_tree None) s = None.
Proof.
  induction fuel as [|fuel IH]; [done|].
  cbn [incr_walk iter_eq end_iterator mTree mPtr tree_ptr_eqb andb].
  unfold iter_next. cbn [mPtr mTree iter_incr]. unfold bind at 1 2. cbn [ret].
  unfold bind. by rewrite IH.
Qed.

(** X5. On a tree that is not empty [begin()] is the iterator of this tree
    at the first node in order; from there the loop [for (; it != end();
    ++it)] passes every linked node once, in order, and ends.  On the empty
    tree [begin()] is the iterator with a null tree and a null node, which
    is not equal to [end()], and [++] does not change it: the loop does
    not end, whatever the number of steps.  On a tree in BST order the
    values passed are strictly ascending. *)
Theorem begin_to_end_in_order s t :
  linked s t ->
  (t ≠ Leaf ->
     exists p, head (ids t) = Some p
       /\ tree_begin s = Some (Iterator this_tree (Some p), s)
       /\ forall fuel, (count t < fuel)%nat ->
            incr_walk fuel (Iterator this_tree (Some p)) s = Some (ids t, s))
  /\ (t = Leaf ->
      tree_begin s = Some (Iterator null_tree None, s)
      /\ iter_eq (Iterator null_tree None) end_iterator = false
      /\ forall fuel, incr_walk fuel (Iterator null_tree None) s = None)
  /\ (strict_weak_order value_comp -> bst value_comp t ->
      ordered value_comp (elems t)).
Proof.
  intros Hlk. split; [|split].
  - intros Ht.
    assert (exists p, head (ids t) = Some p) as [p Hhd].
    { destruct t as [|l x h v r]; [done|].
      rewrite ids_node. destruct (ids l); cbn; eauto. }
    exists p. split; [done|]. split; [by apply (begin_run s t)|].
    intros fuel Hf.
    destruct (ids t) as [|p' L] eqn:E; [done|]. injection Hhd as ->.
    apply (incr_walk_run s t Hlk L [] p); [done|].
    unfold count in Hf. assert (length (ids t) = length (elems t))
      by (unfold ids; by rewrite length_fmap).
    rewrite E in H. cbn in H. lia.
  - intros ->. destruct Hlk as [Hrt _ _]. destruct s as [sz rt m].
    cbn in Hrt. subst rt. split; [done|]. split; [done|].
    intros fuel. apply incr_walk_null.
  - intros Hsw Hbst. apply bst_ordered; [apply Hsw|done].
Qed.

(** X6. [next] of a linked node is the node that follows it in order and
    [prev] the one before it, null at either end; neither changes anything;
    on a tree in BST order the node after holds a strictly greater value. *)
Theorem next_is_successor s t L1 p L2 :
  linked s t -> ids t = L1 ++ p :: L2 ->
  next p s = Some (head L2, s)
  /\ prev p s = Some (last L1, s)
  /\ (strict_weak_order value_comp -> bst value_comp t ->
      forall q v w, head L2 = Some q ->
        (p, v) ∈ elems t -> (q, w) ∈ elems t -> value_comp v w = true).
Proof.
  intros Hlk E. split; [by eapply next_run|]. split; [by eapply prev_run|].
  intros Hsw Hbst q v w Hq Hp Hqw.
  destruct L2 as [|q' L2]; [done|]. injection Hq as ->.
  assert (Hord : ordered value_comp (elems t))
    by (apply bst_ordered; [apply Hsw|done]).
  pose proof (lk_nodup _ _ Hlk) as Hnd.
  unfold ids in E, Hnd. unfold ordered in Hord.
  revert E Hnd Hord Hp Hqw. generalize (elems t) as e. clear.
  intros e. revert L1. induction e as [|[a u] e IH]; intros L1 E Hnd Hord Hp Hq.
  { by destruct L1. }
  rewrite fmap_cons in E, Hnd. cbn [fst] in E, Hnd.
  apply NoDup_cons in Hnd as [Ha Hnd].
  apply StronglySorted_cons in Hord as [Hall Hord].
  rewrite Forall_forall in Hall.
  assert (Hkey : forall x y, (x, y) ∈ e -> x ∈ e.*1).
  { intros x y Hxy. by apply (list_elem_of_fmap_2 fst _ (x, y)). }
  destruct L1 as [|b L1]; cbn [app] in E; injection E as -> E.
  - apply elem_of_cons in Hp as [[= ->]|Hp]; [|by apply Hkey in Hp].
    apply elem_of_cons in Hq as [[= Hq _]|Hq].
    { destruct e as [|[a' u'] e']; [done|]. cbn in E. injection E as -> _.
      destruct Ha. rewrite Hq. left. }
    by apply (Hall (q, w)).
  - apply elem_of_cons in Hp as [[= -> ->]|Hp].
    { destruct Ha. rewrite E. apply elem_of_app. right. left. }
    apply elem_of_cons in Hq as [[= -> ->]|Hq].
    { destruct Ha. rewrite E. apply elem_of_app. right. right. left. }
    by eapply IH.
Qed.

End WalkFacts.

(** * Rotations and fixes *)

Section NodeTheorems.
Context {T : Type}.
Variable value_comp : T -> T -> bool.
Implicit Types (m : gmap positive (avl_node T)) (t l r : @tree T).
Implicit Types (c : list (@frame T)).
Implicit Types (s : avl_tree T).

(** X7. [rotate_left] at a linked node [x] with right child [y] returns [y],
    now the root of the subtree with [x] as its left child and the former
    left subtree of [y] as the right subtree of [x]; heights are not
    touched and the in-order sequence is the same.  [rotate_right] at [y]
    then returns [x] and gives back the tree as it was. *)
Theorem rotate_left_then_right s c l x hx vx rl y hy vy rr :
  linked s (plug c (Node l x hx vx (Node rl y hy vy rr))) ->
  exists s1 s2,
    rotate_left x s = Some (y, s1)
    /\ linked s1 (plug c (Node (Node l x hx vx rl) y hy vy rr))
    /\ elems (plug c (Node (Node l x hx vx rl) y hy vy rr))
       = elems (plug c (Node l x hx vx (Node rl y hy vy rr)))
    /\ rotate_right y s1 = Some (x, s2)
    /\ linked s2 (plug c (Node l x hx vx (Node rl y hy vy rr)))
    /\ mSize s2 = mSize s.
Proof.
  intros Hlk. destruct s as [sz rt m].
  set (t := plug c (Node l x hx vx (Node rl y hy vy rr))) in *.
  set (t1 := plug c (Node (Node l x hx vx rl) y hy vy rr)).
  pose proof (rotate_left_spec sz rt m c l x hx vx rl y hy vy rr
    (fun res s1 => res = y /\ linked s1 t1 /\ mSize s1 = sz)
    Hlk ltac:(done)) as Hwp.
  apply wp_elim in Hwp as (res & [sz1 rt1 m1] & Hrun1 & -> & Hlk1 & Hsz1).
  cbn in Hsz1. subst sz1.
  pose proof (rotate_right_spec sz rt1 m1 c l x hx vx rl y hy vy rr
    (fun res s2 => res = x /\ linked s2 t /\ mSize s2 = sz)
    Hlk1 ltac:(done)) as Hwp.
  apply wp_elim in Hwp as (res & s2 & Hrun2 & -> & Hlk2 & Hsz2).
  exists (AvlTree sz rt1 m1), s2. split_and!; try done.
  unfold t, t1. rewrite !elems_plug. cbn [elems].
  by repeat (rewrite <- app_assoc; cbn [app]).
Qed.



End NodeTheorems.

(** * Elements and sides *)

Section NodeTheorems2.
Context {T : Type}.
Variable value_comp : T -> T -> bool.
Implicit Types (m : gmap positive (avl_node T)) (t l r : @tree T).
Implicit Types (c : list (@frame T)).
Implicit Types (s : avl_tree T).

(** X10. The tree never creates, frees or rewrites an element: whenever
    [insert_unique], [insert_or_replace], [insert_multi], [erase] or [find]
    returns, on any state at all, the same addresses hold nodes and every
    node holds the element it held before; only links, heights, the root
    and the size can differ. *)
Theorem operations_keep_elements s s' :
  (forall n b, insert_unique value_comp n s = Some (b, s') ->
     payload s' = payload s)
  /\ (forall n res, insert_or_replace value_comp n s = Some (res, s') ->
        payload s' = payload s)
  /\ (forall n, insert_multi value_comp n s = Some (tt, s') ->
        payload s' = payload s)
  /\ (forall x, erase x s = Some (tt, s') -> payload s' = payload s)
  /\ (forall v res, find value_comp v s = Some (res, s') ->
        payload s' = payload s).
Proof.
  split_and!.
  - intros n b. apply keeps_insert_unique.
  - intros n res. apply keeps_insert_or_replace.
  - intros n. apply keeps_insert_multi.
  - intros x. apply keeps_erase.
  - intros v res. apply keeps_find.
Qed.

(** X11. [is_left] and [is_right] of a linked node tell the side of its parent
    it hangs on; both are false for the root. *)
Theorem is_left_is_right_side s c l x h v r :
  linked s (plug c (Node l x h v r)) ->
  is_left x s
    = Some (match c with FL _ _ _ _ :: _ => true | _ => false end, s)
  /\ is_right x s
    = Some (match c with FR _ _ _ _ :: _ => true | _ => false end, s).
Proof.
  destruct s as [sz rt m].
  intros (-> & HC & (Hx & Hl & Hr) & Hnd)%linked_plug.
  set (s := AvlTree sz (croot c (root_of (Node l x h v r))) m).
  assert (Hpar : parent x s = Some (cparent c, s)).
  { unfold parent. by rewrite (bind_run _ _ _ _ _ (load_run s _ _ Hx)). }
  unfold is_left, is_right. rewrite !(bind_run _ _ _ _ _ Hpar).
  destruct c as [|[p hp vp rp|lp p hp vp] c']; cbn [cparent frame_node ReprC root_of] in *.
  - done.
  - destruct HC as (Hp & Hrp & _).
    rewrite (bind_run _ _ _ _ _ (left_run s _ _ Hp)).
    rewrite (bind_run _ _ _ _ _ (right_run s _ _ Hp)). cbn [mLeft mRight].
    rewrite bool_decide_eq_true_2 by done.
    rewrite bool_decide_eq_false_2; [done|].
    intros E%root_in_ids. rewrite ids_node in Hnd.
    apply NoDup_app in Hnd as (_ & Hd & _). apply (Hd x); [solve_elem|].
    rewrite cids_cons_FL. solve_elem.
  - destruct HC as (Hp & Hlp & _).
    rewrite (bind_run _ _ _ _ _ (left_run s _ _ Hp)).
    rewrite (bind_run _ _ _ _ _ (right_run s _ _ Hp)). cbn [mLeft mRight].
    rewrite (bool_decide_eq_true_2 (Some x = Some x)) by done.
    rewrite bool_decide_eq_false_2; [done|].
    intros E%root_in_ids. rewrite ids_node in Hnd.
    apply NoDup_app in Hnd as (_ & Hd & _). apply (Hd x); [solve_elem|].
    rewrite cids_cons_FR. solve_elem.
Qed.

End NodeTheorems2.

(** * insert_or_replace *)

Section ReplaceTheorems.
Context {T : Type}.
Variable value_comp : T -> T -> bool.
Implicit Types (m : gmap positive (avl_node T)) (t l r : @tree T).
Implicit Types (c : list (@frame T)).
Implicit Types (s : avl_tree T).


End ReplaceTheorems.

(** * find with a comparison *)

Section FindCmpTheorems.
Context {T V : Type}.
Implicit Types (t : @tree T) (s : avl_tree T).

Lemma to_int32_in_range z : - 2 ^ 31 <= z < 2 ^ 31 -> to_int32 z = z.
Proof. intros Hz. unfold to_int32. rewrite Z.mod_small; lia. Qed.

(** X13. [find] with a caller's three-way comparison, on any linked tree:
    it returns without changing anything.  The result of the comparison is
    narrowed to [int] before it is tested: a node that is returned is linked
    and compares 0 with the value as an [int], and when the narrowed
    comparison agrees with the order of the tree, null is returned only
    when no linked node compares 0 as an [int].  When the comparison stays
    within the range of [int] on the nodes of the tree, the same holds of
    the number the comparison returns. *)
Theorem find_cmp_finds_zero (fn : V -> T -> Z) v s t :
  linked s t ->
  exists res,
    find_cmp fn v s = Some (res, s)
    /\ (forall p, res = Some p ->
          exists w, (p, w) ∈ elems t /\ to_int32 (fn v w) = 0)
    /\ (cmp_sorted fn v (elems t) -> res = None ->
        forall p w, (p, w) ∈ elems t -> to_int32 (fn v w) ≠ 0)
    /\ ((forall p w, (p, w) ∈ elems t -> - 2 ^ 31 <= fn v w < 2 ^ 31) ->
        (forall p, res = Some p -> exists w, (p, w) ∈ elems t /\ fn v w = 0)
        /\ (cmp_sorted fn v (elems t) -> res = None ->
            forall p w, (p, w) ∈ elems t -> fn v w ≠ 0)).
Proof.
  intros Hlk. exists (find_cmp_tree fn v t).
  split; [by apply find_cmp_run|]. split; [|split].
  - intros p. apply find_cmp_tree_some.
  - intros Hs Hnone. by apply find_cmp_tree_none.
  - intros Hrange. split.
    + intros p (w & Hin & Hw)%find_cmp_tree_some. exists w. split; [done|].
      by rewrite <- (to_int32_in_range (fn v w)) by eauto.
    + intros Hs Hnone p w Hin.
      rewrite <- (to_int32_in_range (fn v w)) by eauto.
      by eapply find_cmp_tree_none.
Qed.

(** X14. With the comparison [set] passes (-1 when the key is less, 1 when
    the node's key is less, 0 otherwise), [find] with a comparison does
    exactly what the plain [find] does, on every state. *)
Theorem find_cmp_key_cmp_is_find (value_comp : T -> T -> bool) (k : T) s :
  find_cmp (key_cmp value_comp) k s = find value_comp k s.
Proof.
  unfold find_cmp, find, bind, with_fuel. cbn [root mRoot].
  destruct (root s) as [[first s0]|] eqn:E; [|done].
  apply find_cmp_loop_key_cmp.
Qed.

End FindCmpTheorems.

(** * tinystl::set *)

Section SetTheorems.
Context {Key : Type}.
Variable key_comp : Key -> Key -> bool.
Implicit Types (m : gmap positive (avl_node Key)) (t l r : @tree Key).
Implicit Types (s : avl_tree Key).

Lemma is_set_fresh s t node :
  is_set key_comp s t -> nodes s !! node = None -> node ∉ ids t.
Proof.
  intros Hset Hnone Hin.
  apply (linked_in_dom _ _ _ (set_linked _ _ _ Hset)) in Hin.
  apply elem_of_dom in Hin as [? Hin]. congruence.
Qed.

Lemma payload_dom (s s' : avl_tree Key) :
  payload s' = payload s -> dom (nodes s') = dom (nodes s).
Proof.
  unfold payload. intros E.
  rewrite <- (dom_fmap_L elem (nodes s')), <- (dom_fmap_L elem (nodes s)).
  by rewrite E.
Qed.

(** X15. [set::emplace] (and [insert]) with [node] the storage the allocator
    returned: when the set holds a key comparing equal it returns
    [(end(), false)] and the whole state is as before, the storage given
    back; otherwise it returns [(iterator to node, true)] and the set holds
    the key at its place in order. *)
Theorem set_emplace_inserts_once s t node k :
  strict_weak_order key_comp ->
  is_set key_comp s t ->
  Z.of_nat (count t) + 1 < 2 ^ 31 ->
  nodes s !! node = None ->
  (member key_comp k t ->
     set_emplace key_comp node k s = Some ((None, false), s))
  /\ (~ member key_comp k t ->
      exists s' t',
        set_emplace key_comp node k s = Some ((Some node, true), s')
        /\ is_set key_comp s' t'
        /\ exists e1 e2, elems t = e1 ++ e2
             /\ elems t' = e1 ++ (node, k) :: e2).
Proof.
  intros Hsw Hset Hc Hnone.
  pose proof (is_set_fresh _ _ _ Hset Hnone) as Hfresh.
  destruct Hset as [Hlk Hbst Hok Hown Hsz].
  destruct s as [sz rt m]. cbn [nodes mSize] in *.
  set (cell := AvlNode None None None 0 k).
  set (s1 := AvlTree sz rt (<[node := cell]> m)).
  assert (Hcons : construct node k (AvlTree sz rt m) = Some (tt, s1)) by done.
  assert (Hlk1 : linked s1 t).
  { eapply linked_frame; [exact Hlk|]. intros q Hq.
    apply lookup_insert_ne. by intros ->. }
  assert (Hn1 : nodes s1 !! node = Some cell) by apply lookup_insert_eq.
  unfold set_emplace. rewrite (bind_run _ _ _ _ _ Hcons).
  destruct (insert_unique_run key_comp s1 t node cell Hsw Hlk1 Hbst Hok Hc Hn1 Hfresh)
    as [[Hmem Hrun]|(Hno & s' & t' & Hrun & Hlk' & (e1 & e2 & He & He') & Hbst' & Hok' & _ & Hsz')].
  - split; [|done]. intros _. rewrite (bind_run _ _ _ _ _ Hrun). cbn [negb].
    unfold bind, deallocate, ret. cbn [mSize mRoot nodes s1].
    by rewrite delete_insert_id.
  - split; [done|]. intros _. rewrite (bind_run _ _ _ _ _ Hrun). cbn [negb].
    exists s', t'. split; [done|]. split; [|by eauto].
    split; [done..| |].
    + rewrite (payload_dom s1 s') by (by eapply keeps_insert_unique).
      cbn [nodes s1]. rewrite dom_insert_L, Hown.
      rewrite (ids_elems_insert _ _ _ _ _ _ He He'). by rewrite list_to_set_cons.
    + rewrite Hsz'. cbn [mSize s1]. rewrite Hsz.
      rewrite (count_elems_insert _ _ _ _ _ He He').
      unfold size_wrap. rewrite Z.mod_small; lia.
Qed.





(** X18. [set::count], [contains] and [find] answer membership: 1, true and
    an iterator to a node whose key compares equal when the set holds such
    a key; 0, false and [end()] when it does not.  Nothing is changed. *)
Theorem set_count_is_membership s t k :
  strict_weak_order key_comp ->
  is_set key_comp s t ->
  (member key_comp k t ->
     set_count key_comp k s = Some (1, s)
     /\ set_contains key_comp k s = Some (true, s)
     /\ exists p w, set_find key_comp k s = Some (Some p, s)
          /\ (p, w) ∈ elems t /\ equivalent key_comp k w)
  /\ (~ member key_comp k t ->
      set_count key_comp k s = Some (0, s)
      /\ set_contains key_comp k s = Some (false, s)
      /\ set_find key_comp k s = Some (None, s)).
Proof.
  intros Hsw [Hlk Hbst Hok Hown Hsz].
  assert (Hord : ordered key_comp (elems t))
    by (apply bst_ordered; [apply Hsw|done]).
  pose proof (find_run key_comp k s t Hlk) as Hfind.
  rewrite <- find_cmp_key_cmp in Hfind.
  assert (Hcount : set_count key_comp k s
    = Some (match find_tree key_comp k t with Some _ => 1 | None => 0 end, s)).
  { unfold set_count. by rewrite (bind_run _ _ _ _ _ Hfind). }
  unfold set_contains, set_find.
  rewrite (bind_run _ _ _ _ _ Hcount), (bind_run _ _ _ _ _ Hfind), Hcount.
  split.
  - intros Hmem.
    destruct (find_tree_present key_comp k t Hsw Hord Hmem)
      as (p & w & -> & Hin & Heq).
    split; [done|]. split; [done|]. by exists p, w.
  - intros Hno. by rewrite (find_tree_absent key_comp k t Hno).
Qed.

Lemma clear_impl_deallocate_dom fuel : forall p s vis s',
  clear_impl (deallocate (Key := Key)) fuel p s = Some (vis, s') ->
  dom (nodes s') = dom (nodes s) ∖ list_to_set vis.
Proof.
  induction fuel as [|fuel IH]; intros p s vis s'; [done|].
  cbn [clear_impl]. unfold bind at 1.
  destruct (left p s) as [[l s0]|] eqn:El; [|done].
  assert (s0 = s) as ->.
  { unfold left, bind, load in El. destruct (nodes s !! p); [|done].
    by injection El. }
  unfold bind at 1.
  destruct (right p s) as [[r s0]|] eqn:Er; [|done].
  assert (s0 = s) as ->.
  { unfold right, bind, load in Er. destruct (nodes s !! p); [|done].
    by injection Er. }
  unfold bind at 1. unfold deallocate at 1.
  set (s1 := AvlTree (mSize s) (mRoot s) (delete p (nodes s))).
  unfold bind at 1.
  destruct (match l with
            | Some l' => clear_impl deallocate fuel l'
            | None => ret []
            end s1) as [[vl s2]|] eqn:Hl; [|done].
  unfold bind at 1.
  destruct (match r with
            | Some r' => clear_impl deallocate fuel r'
            | None => ret []
            end s2) as [[vr s3]|] eqn:Hr; [|done].
  intros [= <- <-].
  assert (H2 : dom (nodes s2) = dom (nodes s1) ∖ list_to_set vl).
  { destruct l as [l'|]; [by eapply IH|].
    injection Hl as <- <-. set_solver. }
  assert (H3 : dom (nodes s3) = dom (nodes s2) ∖ list_to_set vr).
  { destruct r as [r'|]; [by eapply IH|].
    injection Hr as <- <-. set_solver. }
  rewrite H3, H2. unfold s1. cbn [nodes]. rewrite dom_delete_L.
  rewrite list_to_set_cons, list_to_set_app_L. set_solver.
Qed.

Lemma deallocate_local : handler_local (deallocate (Key := Key)).
Proof.
  intros p s. eexists. split; [done|]. intros q Hq. cbn [nodes].
  by apply lookup_delete_ne.
Qed.

(** X19. [set::clear] (and the destructor): every node goes back to the
    allocator, the node storage is empty, and what is left is the empty
    set. *)
Theorem set_clear_frees_all s t :
  is_set key_comp s t ->
  exists s',
    set_clear s = Some (tt, s')
    /\ nodes s' = ∅ /\ mRoot s' = None /\ mSize s' = 0
    /\ is_set key_comp s' Leaf.
Proof.
  intros [Hlk Hbst Hok Hown Hsz].
  destruct s as [sz rt m]. cbn [nodes mSize] in *.
  assert (Hend : forall s', nodes s' = ∅ -> mRoot s' = None -> mSize s' = 0 ->
                 is_set key_comp s' Leaf).
  { intros [sz' rt' m'] Hm Hr Hs. cbn in Hm, Hr, Hs. subst.
    split; [split; [done|done|constructor]|done|done| |done].
    cbn. by rewrite dom_empty_L. }
  destruct t as [|l p h v r].
  - destruct Hlk as [Hrt _ _]. cbn in Hrt, Hown, Hsz. subst rt sz.
    apply dom_empty_inv_L in Hown. subst m.
    exists (AvlTree 0 None ∅). split; [done|]. split_and!; [done..|].
    by apply Hend.
  - pose proof (clear_spec deallocate sz rt m (Node l p h v r)
      (fun vis s' => vis = preorder (Node l p h v r)
                     /\ mRoot s' = None /\ mSize s' = 0)
      deallocate_local Hlk ltac:(done) ltac:(done)) as Hwp.
    apply wp_elim in Hwp as (vis & s' & Hrun & -> & Hrt & Hsz').
    assert (Hdom : dom (nodes s') = ∅).
    { revert Hrun. unfold clear, bind, root. cbn [mRoot].
      destruct Hlk as [Hroot _ _]. cbn in Hroot. subst rt.
      unfold with_fuel, bind.
      destruct (clear_impl deallocate (fuel_of (AvlTree sz (Some p) m)) p
                  (AvlTree sz (Some p) m)) as [[vis s1]|] eqn:Hci; [|done].
      unfold set_root, set_mSize, ret. cbn [mSize mRoot nodes].
      intros [= -> <-]. cbn [nodes].
      apply clear_impl_deallocate_dom in Hci. rewrite Hci. cbn [nodes].
      rewrite Hown. rewrite (preorder_perm (Node l p h v r)). set_solver. }
    apply dom_empty_inv_L in Hdom.
    exists s'. unfold set_clear. rewrite (bind_run _ _ _ _ _ Hrun).
    split; [done|]. split_and!; [done..|]. by apply Hend.
Qed.

End SetTheorems.

(** * The benchmark *)

Import IntTree Benchmark.

Lemma insert_all_run ps : forall s t,
  linked s t -> bst Z.ltb t -> hok t -> NoDup ps ->
  (forall p, p ∈ ps -> (p ∉ ids t) /\ is_Some (nodes s !! p)) ->
  Z.of_nat (count t + length ps) < 2 ^ 31 ->
  exists s' t',
    run_all (map (insert_unique Z.ltb) ps) s = Some (tt, s')
    /\ linked s' t' /\ bst Z.ltb t' /\ hok t'
    /\ payload s' = payload s
    /\ (forall q, q ∈ ids t' -> q ∈ ids t \/ q ∈ ps)
    /\ (forall v, member Z.ltb v t -> member Z.ltb v t')
    /\ (forall p cell, p ∈ ps -> nodes s !! p = Some cell ->
          member Z.ltb (elem cell) t')
    /\ (balanced t -> balanced t').
Proof.
  induction ps as [|p ps IH]; intros s t Hlk Hbst Hok Hnd Hps Hc.
  { exists s, t. cbn. split_and!; try done; [by left|]. intros ? ? H. by apply elem_of_nil in H. }
  apply NoDup_cons in Hnd as [Hp Hnd].
  destruct (Hps p ltac:(left)) as [Hfresh [cell Hcell]].
  cbn [length] in Hc.
  destruct (insert_unique_run Z.ltb s t p cell ltb_strict_weak Hlk Hbst Hok
              ltac:(lia) Hcell Hfresh)
    as [[Hmem Hrun]|(Hno & s1 & t1 & Hrun & Hlk1 & (e1 & e2 & He & He1) & Hbst1 & Hok1 & Hbal1 & Hsz1)].
  - destruct (IH s t Hlk Hbst Hok Hnd) as (s' & t' & Hrun' & Hlk' & Hbst' & Hok' & Hpay & Hids & Hmem' & Hval & Hbal');
      [intros q Hq; apply Hps; by right|lia|].
    exists s', t'. cbn [map run_all]. rewrite (bind_run _ _ _ _ _ Hrun).
    split_and!; try done.
    + intros q Hq. destruct (Hids q Hq); [by left|right; by right].
    + intros q cq [->|Hq]%elem_of_cons Hcq; [|by eapply Hval].
      rewrite Hcell in Hcq. injection Hcq as <-. by apply Hmem'.
  - pose proof (keeps_insert_unique Z.ltb p _ _ _ Hrun) as Hpay1.
    pose proof (ids_elems_insert _ _ _ _ _ _ He He1) as Hids1.
    pose proof (count_elems_insert _ _ _ _ _ He He1) as Hcnt1.
    destruct (IH s1 t1 Hlk1 Hbst1 Hok1 Hnd) as (s' & t' & Hrun' & Hlk' & Hbst' & Hok' & Hpay & Hids & Hmem' & Hval & Hbal').
    { intros q Hq. destruct (Hps q ltac:(by right)) as [Hq1 [cq Hcq]]. split.
      - rewrite Hids1. intros [->|?]%elem_of_cons; done.
      - destruct (payload_lookup s s1 q cq Hpay1 Hcq) as (cq' & -> & _). done. }
    { lia. }
    assert (Hin1 : member Z.ltb (elem cell) t1).
    { exists p, (elem cell). split; [rewrite He1; set_solver|].
      split; apply Z.ltb_irrefl. }
    assert (Hmono : forall v, member Z.ltb v t -> member Z.ltb v t1).
    { intros v (q & w & Hq & Hw). exists q, w. split; [|done].
      rewrite He1. rewrite He in Hq. set_solver. }
    exists s', t'. cbn [map run_all]. rewrite (bind_run _ _ _ _ _ Hrun).
    split_and!; try done.
    + by rewrite Hpay.
    + intros q Hq. destruct (Hids q Hq) as [Hq1|Hq1]; [|right; by right].
      rewrite Hids1 in Hq1. apply elem_of_cons in Hq1 as [->|Hq1]; [right; left|by left].
    + intros v Hv. by apply Hmem', Hmono.
    + intros q cq [->|Hq]%elem_of_cons Hcq.
      * rewrite Hcell in Hcq. injection Hcq as <-. by apply Hmem'.
      * destruct (payload_lookup s s1 q cq Hpay1 Hcq) as (cq' & Hcq' & <-).
        by eapply Hval.
    + intros Hb. by apply Hbal', Hbal1.
Qed.

Lemma find_all_run s t : linked s t -> bst Z.ltb t ->
  forall ps,
  (forall p, p ∈ ps -> exists cell, nodes s !! p = Some cell
                                   /\ member Z.ltb (elem cell) t) ->
  find_all ps s = Some (tt, s).
Proof.
  intros Hlk Hbst. induction ps as [|p ps IH]; intros Hps; [done|].
  destruct (Hps p ltac:(left)) as (cell & Hcell & Hmem).
  cbn [find_all]. rewrite (bind_run _ _ _ _ _ (value_run _ _ _ Hcell)).
  rewrite (bind_run _ _ _ _ _ (find_run Z.ltb (elem cell) s t Hlk)).
  destruct (find_tree_present Z.ltb (elem cell) t ltb_strict_weak) as (q & w & -> & _);
    [apply bst_ordered; [apply ltb_strict_weak|done]|done|].
  apply IH. intros q' Hq'. apply Hps. by right.
Qed.

Lemma visit_all_wipe ps : forall s s',
  visit_all wipe ps s = Some (tt, s') ->
  forall q, q ∈ ps -> nodes s' !! q = Some (obj 0).
Proof.
  induction ps as [|p ps IH]; intros s s' Hrun q Hq.
  { by apply elem_of_nil in Hq. }
  cbn [visit_all] in Hrun.
  destruct (wipe_local p s) as (s1 & Hw & _).
  rewrite (bind_run _ _ _ _ _ Hw) in Hrun.
  destruct (decide (q ∈ ps)) as [Hin|Hout]; [by eapply IH|].
  apply elem_of_cons in Hq as [->|Hq]; [|done].
  destruct (visit_all_frame wipe ps s1 wipe_local) as (s2 & E & Hfr).
  rewrite Hrun in E. injection E as <-. rewrite Hfr by done.
  unfold wipe, store in Hw. injection Hw as <-. cbn [nodes].
  apply lookup_insert_eq.
Qed.

(** X20. The benchmark's [run_avl_tree] never aborts: for any array of fewer
    than 2^31 elements, whatever their values and with duplicates among
    them, every [insert_unique] returns, every element's value is found
    afterwards (a rejected duplicate finds the node that was linked before
    it), and [clear] runs [memset] once on each linked node and on no
    other, leaving the tree empty: in the storage it returns with, every
    node it visited is all zero, one of them stood for each value of the
    array, and every other object still holds its value. *)
Theorem run_avl_tree_never_aborts (m : gmap positive (avl_node Z))
    (elements : list positive) :
  NoDup elements ->
  (forall e, e ∈ elements -> is_Some (m !! e)) ->
  Z.of_nat (length elements) < 2 ^ 31 ->
  exists visited s',
    run_avl_tree elements (new_tree m) = Some (visited, s')
    /\ mRoot s' = None /\ mSize s' = 0
    /\ NoDup visited
    /\ (forall q, q ∈ visited -> q ∈ elements)
    /\ (forall e ce, e ∈ elements -> m !! e = Some ce ->
          exists q cq, q ∈ visited /\ m !! q = Some cq /\ elem cq = elem ce)
    /\ (forall q, q ∈ visited -> nodes s' !! q = Some (obj 0))
    /\ (forall q cq, q ∉ visited -> m !! q = Some cq ->
          exists cq', nodes s' !! q = Some cq' /\ elem cq' = elem cq).
Proof.
  intros Hnd Hin Hc.
  destruct (insert_all_run elements (new_tree m) Leaf)
    as (s1 & t1 & Hrun1 & Hlk1 & Hbst1 & Hok1 & Hpay & Hids & _ & Hval & _);
    [split; [done|done|constructor]|done|done|done| |cbn; lia|].
  { intros p Hp. split; [by intros ?%elem_of_nil|by apply Hin]. }
  unfold new_tree in *. cbn [nodes] in *.
  assert (Hfind : find_all elements s1 = Some (tt, s1)).
  { apply (find_all_run s1 t1 Hlk1 Hbst1). intros p Hp.
    destruct (Hin p Hp) as [cp Hcp].
    destruct (payload_lookup _ s1 p cp Hpay Hcp) as (cp' & Hcp' & Hel).
    exists cp'. split; [done|]. rewrite Hel. by eapply Hval. }
  unfold run_avl_tree.
  rewrite (bind_run _ _ _ _ _ Hrun1), (bind_run _ _ _ _ _ Hfind).
  assert (Hback : forall e ce, e ∈ elements -> m !! e = Some ce ->
    exists q cq, q ∈ ids t1 /\ m !! q = Some cq /\ elem cq = elem ce).
  { intros e ce He Hce. destruct (Hval e ce He Hce) as (q & w & Hq & Hw1 & Hw2).
    assert (w = elem ce) as ->.
    { apply Z.ltb_ge in Hw1, Hw2. lia. }
    destruct (linked_elem s1 t1 q _ Hlk1 Hq) as (cq1 & Hcq1 & Hel1).
    assert (Hq' : q ∈ elements).
    { destruct (Hids q) as [H|H]; [|by apply elem_of_nil in H|done].
      unfold ids. by apply (list_elem_of_fmap_2 fst _ (q, elem ce)). }
    destruct (Hin q Hq') as [cq Hcq].
    destruct (payload_lookup _ s1 q cq Hpay Hcq) as (cq1' & Hcq1' & Hel).
    exists q, cq. split; [|split; [done|]].
    - unfold ids. by apply (list_elem_of_fmap_2 fst _ (q, elem ce)).
    - rewrite Hcq1 in Hcq1'. injection Hcq1' as <-. congruence. }
  destruct t1 as [|l p h v r].
  - exists [], s1. destruct s1 as [sz1 rt1 m1].
    destruct Hlk1 as [Hrt _ _]. cbn in Hrt. subst rt1.
    destruct elements as [|e es].
    + cbn in Hrun1. injection Hrun1 as <- <-.
      split; [done|]. split; [done|]. split; [done|]. split; [constructor|].
      split; [done|]. split; [intros e ce He; by apply elem_of_nil in He|].
      split; [intros q Hq; by apply elem_of_nil in Hq|].
      intros q cq _ Hcq. by exists cq.
    + destruct (Hin e ltac:(left)) as [ce Hce].
      destruct (Hback e ce ltac:(left) Hce) as (q & cq & Hq & _).
      by apply elem_of_nil in Hq.
  - destruct (clear_run wipe s1 (Node l p h v r) wipe_local Hlk1 ltac:(done))
      as (s2 & Hvis & Hrun & Hfr).
    exists (preorder (Node l p h v r)), (AvlTree 0 None (nodes s2)).
    split; [done|]. split; [done|]. split; [done|].
    split; [|split; [|split; [|split]]].
    + rewrite preorder_perm. by destruct Hlk1.
    + intros q Hq. rewrite preorder_perm in Hq.
      destruct (Hids q Hq) as [H|H]; [by apply elem_of_nil in H|done].
    + intros e ce He Hce. destruct (Hback e ce He Hce) as (q & cq & Hq & ?).
      exists q, cq. split; [|done]. by rewrite preorder_perm.
    + intros q Hq. cbn [nodes]. by eapply visit_all_wipe.
    + intros q cq Hq Hcq. cbn [nodes]. rewrite preorder_perm in Hq.
      rewrite Hfr by done.
      by destruct (payload_lookup _ s1 q cq Hpay Hcq) as (cq' & ? & ?); eauto.
Qed.

(** * rebalance, and insertion followed by erase *)

Section Composition.
Context {T : Type}.
Variable value_comp : T -> T -> bool.
Implicit Types (m : gmap positive (avl_node T)) (t l r : @tree T).
Implicit Types (c : list (@frame T)).
Implicit Types (s : avl_tree T).




End Composition.

(** * Examples *)

Import Benchmark IntExamples.

Lemma t7_balanced : balanced t7.
Proof. vm_compute. split_and!; first [exact I | discriminate]. Qed.

Lemma s7_node8 : nodes s7 !! 8%positive = Some (obj 7).
Proof. vm_compute. reflexivity. Qed.

Lemma s7_node9 : nodes s7 !! 9%positive = Some (obj 8).
Proof. vm_compute. reflexivity. Qed.

Lemma t7_fresh8 : 8%positive ∉ ids t7.
Proof. apply (bool_decide_unpack _). vm_compute. exact I. Qed.

Lemma t7_fresh9 : 9%positive ∉ ids t7.
Proof. apply (bool_decide_unpack _). vm_compute. exact I. Qed.

(** A node holding 8 goes into the seven-node tree. *)
Lemma insert_unique_keeps_balance_witness :
  linked s7 t7 /\ hok t7 /\ balanced t7
  /\ Z.of_nat (count t7) + 1 < 2 ^ 31
  /\ nodes s7 !! 9%positive = Some (obj 8) /\ (9%positive ∉ ids t7)
  /\ exists b s' t',
      insert_unique Z.ltb 9 s7 = Some (b, s')
      /\ linked s' t' /\ hok t' /\ balanced t'.
Proof.
  split; [exact s7_linked|]. split; [exact t7_hok|]. split; [exact t7_balanced|].
  split; [exact t7_small|]. split; [exact s7_node9|]. split; [exact t7_fresh9|].
  destruct (insert_unique_keeps_balance Z.ltb s7 t7 9%positive (obj 8)
              s7_linked t7_hok t7_balanced t7_small s7_node9 t7_fresh9)
    as (b & s' & t' & Hrun & Hlk & Hok & Hbal & _).
  exists b, s', t'. split; [exact Hrun|]. split; [exact Hlk|].
  split; [exact Hok|exact Hbal].
Defined.

(** A second node holding 7 goes into the seven-node tree. *)
Lemma insert_multi_keeps_balance_witness :
  linked s7 t7 /\ hok t7 /\ balanced t7
  /\ Z.of_nat (count t7) + 1 < 2 ^ 31
  /\ nodes s7 !! 8%positive = Some (obj 7) /\ (8%positive ∉ ids t7)
  /\ exists s' t',
      insert_multi Z.ltb 8 s7 = Some (tt, s')
      /\ linked s' t' /\ hok t' /\ balanced t'.
Proof.
  split; [exact s7_linked|]. split; [exact t7_hok|]. split; [exact t7_balanced|].
  split; [exact t7_small|]. split; [exact s7_node8|]. split; [exact t7_fresh8|].
  destruct (insert_multi_keeps_balance Z.ltb s7 t7 8%positive (obj 7)
              s7_linked t7_hok t7_balanced t7_small s7_node8 t7_fresh8)
    as (s' & t' & Hrun & Hlk & Hok & Hbal & _).
  exists s', t'. split; [exact Hrun|]. split; [exact Hlk|].
  split; [exact Hok|exact Hbal].
Defined.




(** Looking for 7 in the seven-node tree. *)
Lemma find_returns_equal_witness :
  linked s7 t7
  /\ exists res,
      find Z.ltb 7 s7 = Some (res, s7)
      /\ (forall p, res = Some p ->
            exists w, (p, w) ∈ elems t7 /\ equivalent Z.ltb 7 w).
Proof.
  split; [exact s7_linked|].
  destruct (find_returns_equal Z.ltb s7 t7 7 s7_linked)
    as (res & Hrun & Hsound & _).
  exists res. split; [exact Hrun|exact Hsound].
Defined.

Lemma set3_is_set : is_set Z.ltb set3 t_set3.
Proof.
  split.
  - solve_linked.
  - apply bst_ordered; [apply ltb_strict_weak|].
    apply (bool_decide_unpack _). vm_compute. exact I.
  - vm_compute. split_and!; first [exact I | reflexivity].
  - apply (bool_decide_unpack _). vm_compute. exact I.
  - vm_compute. reflexivity.
Qed.

Lemma t_set3_small : Z.of_nat (count t_set3) + 1 < 2 ^ 31.
Proof. vm_compute. reflexivity. Qed.


Lemma set3_free4 : nodes set3 !! 4%positive = None.
Proof. vm_compute. reflexivity. Qed.

Lemma t_set3_has8 : member Z.ltb 8 t_set3.
Proof.
  exists 3%positive, 8. split; [|split; reflexivity].
  apply (bool_decide_unpack _). vm_compute. exact I.
Qed.

Lemma t_set3_lacks4 : ~ member Z.ltb 4 t_set3.
Proof.
  intros (p & w & Hin & E1 & E2). apply Z.ltb_ge in E1, E2.
  assert (w = 4) by lia. subst w.
  assert (Hw : 4 ∈ vals t_set3) by (apply elem_of_vals; eauto).
  revert Hw. apply (bool_decide_unpack _). vm_compute. exact I.
Qed.

(** Emplacing 8 again and then 4 into the set holding 3, 5 and 8. *)
Lemma set_emplace_inserts_once_witness :
  strict_weak_order Z.ltb /\ is_set Z.ltb set3 t_set3
  /\ Z.of_nat (count t_set3) + 1 < 2 ^ 31
  /\ nodes set3 !! 4%positive = None
  /\ set_emplace Z.ltb 4 8 set3 = Some ((None, false), set3)
  /\ exists s' t',
      set_emplace Z.ltb 4 4 set3 = Some ((Some 4%positive, true), s')
      /\ is_set Z.ltb s' t'.
Proof.
  split; [exact ltb_strict_weak|]. split; [exact set3_is_set|].
  split; [exact t_set3_small|]. split; [exact set3_free4|]. split.
  - exact (proj1 (set_emplace_inserts_once Z.ltb set3 t_set3 4%positive 8
                    ltb_strict_weak set3_is_set t_set3_small set3_free4)
             t_set3_has8).
  - destruct (proj2 (set_emplace_inserts_once Z.ltb set3 t_set3 4%positive 4
                       ltb_strict_weak set3_is_set t_set3_small set3_free4)
                t_set3_lacks4) as (s' & t' & Hrun & Hset & _).
    exists s', t'. split; [exact Hrun|exact Hset].
Defined.


(** Counting 8 and 4 in the set holding 3, 5 and 8. *)
Lemma set_count_is_membership_witness :
  strict_weak_order Z.ltb /\ is_set Z.ltb set3 t_set3
  /\ set_count Z.ltb 8 set3 = Some (1, set3)
  /\ set_contains Z.ltb 4 set3 = Some (false, set3).
Proof.
  split; [exact ltb_strict_weak|]. split; [exact set3_is_set|]. split.
  - exact (proj1 (proj1 (set_count_is_membership Z.ltb set3 t_set3 8
                           ltb_strict_weak set3_is_set) t_set3_has8)).
  - exact (proj1 (proj2 (proj2 (set_count_is_membership Z.ltb set3 t_set3 4
                                  ltb_strict_weak set3_is_set) t_set3_lacks4))).
Defined.

(** Clearing the set holding 3, 5 and 8. *)
Lemma set_clear_frees_all_witness :
  is_set Z.ltb set3 t_set3
  /\ exists s', set_clear set3 = Some (tt, s') /\ nodes s' = ∅.
Proof.
  split; [exact set3_is_set|].
  destruct (set_clear_frees_all Z.ltb set3 t_set3 set3_is_set)
    as (s' & Hrun & Hnodes & _).
  exists s'. split; [exact Hrun|exact Hnodes].
Defined.

(** Walking the seven-node tree from [begin()], and an empty tree. *)
Lemma begin_to_end_in_order_witness :
  linked s7 t7
  /\ tree_begin s7 = Some (Iterator this_tree (Some 4%positive), s7)
  /\ incr_walk 8 (Iterator this_tree (Some 4%positive)) s7
     = Some ([4; 2; 5; 1; 6; 3; 7]%positive, s7)
  /\ linked (new_tree ∅) Leaf
  /\ tree_begin (new_tree ∅) = Some (Iterator null_tree None, new_tree ∅)
  /\ incr_walk 8 (Iterator null_tree None) (new_tree ∅) = None.
Proof.
  assert (Hempty : linked (new_tree ∅) (@Leaf Z)).
  { split; [reflexivity|exact I|constructor]. }
  split; [exact s7_linked|].
  destruct (begin_to_end_in_order Z.ltb s7 t7 s7_linked) as (Hfull & _ & _).
  destruct (Hfull ltac:(discriminate)) as (p & Hp & Hb & Hw).
  injection Hp as <-.
  split; [exact Hb|]. split; [apply Hw; vm_compute; lia|].
  split; [exact Hempty|].
  destruct (begin_to_end_in_order Z.ltb (new_tree ∅) Leaf Hempty)
    as (_ & Hnull & _).
  destruct (Hnull eq_refl) as (Hb0 & _ & Hw0).
  split; [exact Hb0|apply Hw0].
Defined.

Lemma storage9_present (e : positive) :
  e ∈ [1; 2; 3; 4; 5; 6; 7; 8; 9]%positive ->
  is_Some (storage [10; 5; 15; 3; 7; 12; 20; 7; 8] !! e).
Proof.
  intros He. repeat (apply elem_of_cons in He as [->|He]; [by eexists|]).
  by apply elem_of_nil in He.
Qed.

(** The benchmark on nine elements, two of them holding 7: the second
    one, at address 8, is rejected and keeps its value. *)
Lemma run_avl_tree_never_aborts_witness :
  NoDup [1; 2; 3; 4; 5; 6; 7; 8; 9]%positive
  /\ (forall e, e ∈ [1; 2; 3; 4; 5; 6; 7; 8; 9]%positive ->
        is_Some (storage [10; 5; 15; 3; 7; 12; 20; 7; 8] !! e))
  /\ Z.of_nat (length [1; 2; 3; 4; 5; 6; 7; 8; 9]%positive) < 2 ^ 31
  /\ exists s',
      run_avl_tree [1; 2; 3; 4; 5; 6; 7; 8; 9]%positive
        (new_tree (storage [10; 5; 15; 3; 7; 12; 20; 7; 8]))
      = Some ([1; 2; 4; 5; 9; 3; 6; 7]%positive, s')
      /\ mRoot s' = None /\ mSize s' = 0
      /\ (forall q, q ∈ [1; 2; 4; 5; 9; 3; 6; 7]%positive ->
            nodes s' !! q = Some (obj 0))
      /\ exists c8, nodes s' !! 8%positive = Some c8 /\ elem c8 = 7.
Proof.
  assert (Hnd : NoDup [1; 2; 3; 4; 5; 6; 7; 8; 9]%positive).
  { apply (bool_decide_unpack _). vm_compute. exact I. }
  assert (Hlen : Z.of_nat (length [1; 2; 3; 4; 5; 6; 7; 8; 9]%positive) < 2 ^ 31).
  { vm_compute. reflexivity. }
  split; [exact Hnd|]. split; [exact storage9_present|]. split; [exact Hlen|].
  destruct (run_avl_tree_never_aborts
              (storage [10; 5; 15; 3; 7; 12; 20; 7; 8])
              [1; 2; 3; 4; 5; 6; 7; 8; 9]%positive Hnd storage9_present Hlen)
    as (visited & s' & Hrun & Hrt & Hsz & _ & _ & _ & Hzero & Hkept).
  assert (Hvis : fst <$> run_avl_tree [1; 2; 3; 4; 5; 6; 7; 8; 9]%positive
                   (new_tree (storage [10; 5; 15; 3; 7; 12; 20; 7; 8]))
                 = Some [1; 2; 4; 5; 9; 3; 6; 7]%positive)
    by (vm_compute; reflexivity).
  rewrite Hrun in Hvis. injection Hvis as ->.
  exists s'. split; [exact Hrun|]. split; [exact Hrt|]. split; [exact Hsz|].
  split; [exact Hzero|].
  apply (Hkept 8%positive (obj 7)); [|vm_compute; reflexivity].
  apply (bool_decide_unpack _). vm_compute. exact I.
Defined.

(** Rotating the root of the seven-node tree to the left and back. *)
Lemma rotate_left_then_right_witness :
  linked s7 t7
  /\ exists s1 s2,
      rotate_left 1 s7 = Some (3%positive, s1)
      /\ rotate_right 3 s1 = Some (1%positive, s2)
      /\ linked s2 t7.
Proof.
  split; [exact s7_linked|].
  destruct (rotate_left_then_right s7 []
              (Node (leaf 4 3) 2 2 5 (leaf 5 7)) 1%positive 3 10
              (leaf 6 12) 3%positive 2 15 (leaf 7 20) s7_linked)
    as (s1 & s2 & Hr1 & _ & _ & Hr2 & Hlk & _).
  exists s1, s2. split; [exact Hr1|]. split; [exact Hr2|exact Hlk].
Defined.





(** The node holding 5 hangs on the left of the root of the seven-node
    tree. *)
Lemma is_left_is_right_side_witness :
  linked s7 t7
  /\ is_left 2 s7 = Some (true, s7) /\ is_right 2 s7 = Some (false, s7).
Proof.
  split; [exact s7_linked|].
  exact (is_left_is_right_side s7
           [FL 1%positive 3 10 (Node (leaf 6 12) 3 2 15 (leaf 7 20))]
           (leaf 4 3) 2%positive 2 5 (leaf 5 7) s7_linked).
Defined.




(** Looking for 7 + 2^32 in the seven-node tree with the difference as
    the comparison: the difference with 7 is 0 as an [int], and the node
    holding 7 is returned. *)
Lemma find_cmp_finds_zero_witness :
  linked s7 t7
  /\ find_cmp Z.sub (7 + 2 ^ 32) s7 = Some (Some 5%positive, s7)
  /\ exists w, (5%positive, w) ∈ elems t7 /\ to_int32 (7 + 2 ^ 32 - w) = 0.
Proof.
  split; [exact s7_linked|].
  destruct (find_cmp_finds_zero Z.sub (7 + 2 ^ 32) s7 t7 s7_linked)
    as (res & Hrun & Hsound & _).
  assert (Hres : fst <$> find_cmp Z.sub (7 + 2 ^ 32) s7 = Some (Some 5%positive))
    by (vm_compute; reflexivity).
  rewrite Hrun in Hres. injection Hres as ->.
  split; [exact Hrun|]. exact (Hsound 5%positive eq_refl).
Defined.



(** Around the node holding 7 in the seven-node tree. *)
Lemma next_is_successor_witness :
  linked s7 t7
  /\ ids t7 = [4; 2]%positive ++ 5%positive :: [1; 6; 3; 7]%positive
  /\ next 5 s7 = Some (Some 1%positive, s7)
  /\ prev 5 s7 = Some (Some 2%positive, s7).
Proof.
  assert (E : ids t7 = [4; 2]%positive ++ 5%positive :: [1; 6; 3; 7]%positive)
    by reflexivity.
  split; [exact s7_linked|]. split; [exact E|].
  destruct (next_is_successor Z.ltb s7 t7 _ _ _ s7_linked E) as (Hn & Hp & _).
  split; [exact Hn|exact Hp].
Defined.




